(** * Device classifier: path relations, ownership, conflict planning,
    merged devices, hidden folders and the CSV export projection.

  Shallow embedding of [src/lib/fileTree.ts] (path comparison helpers) and
  of the state and handlers of [src/App.tsx] (device set, merged devices,
  hidden folders, conflict plans, export).

  Modelling conventions
  - A JavaScript string is the list of its UTF-16 code units ([list N]).
  - A JavaScript [Set<string>], or a [Map] that is iterated, keeps
    insertion order, so it is a duplicate-free list (resp. an association
    list) that is extended at the end.
  - A [Map] or [Record<string,string>] that is only looked up is a [gmap]
    (own properties; the keys are CSV column names and device paths).
  - What comes from outside the engine is an argument: the parsed rows of
    [d3.csvParse], the identifier built from [Date.now()] and
    [Math.random()].
  - React state is one record; a handler is a function on that record and
    the effects keyed on [devicePaths] are run where the handler calls
    [setDevicePaths].
  - [String.prototype.localeCompare] depends on the host collation; it is
    a parameter ([Collator]) and [Array.prototype.sort] is the stable
    insertion sort for it. *)

From Stdlib Require Import NArith ZArith String Ascii Lia Sorted.
From stdpp Require Import base list gmap.

(* ===================================================================== *)
(** ** JavaScript string primitives *)
(* ===================================================================== *)

Module Js.

Abbreviation str := (list N).

(** An ASCII literal as a list of code units. *)
Definition lit (s : string) : str := map N_of_ascii (list_ascii_of_string s).

Definition SLASH : N := 47%N.
Definition BACKSLASH : N := 92%N.
Definition DOLLAR : N := 36%N.
(** U+2192 RIGHTWARDS ARROW and U+2205 EMPTY SET, used in group keys. *)
Definition ARROW : N := 8594%N.
Definition EMPTYSET : N := 8709%N.

(** ECMAScript WhiteSpace and LineTerminator code points, the characters
    removed by [String.prototype.trim]. *)
Definition isWhiteSpace (c : N) : bool :=
  ((9 <=? c) && (c <=? 13) || (c =? 32) || (c =? 160) || (c =? 5760)
   || (8192 <=? c) && (c <=? 8202) || (c =? 8232) || (c =? 8233)
   || (c =? 8239) || (c =? 8287) || (c =? 12288) || (c =? 65279))%N.

Fixpoint trimStart (s : str) : str :=
  match s with
  | [] => []
  | c :: s' => if isWhiteSpace c then trimStart s' else s
  end.

Definition trimEnd (s : str) : str := rev (trimStart (rev s)).

(** [s.trim()] *)
Definition trim (s : str) : str := trimEnd (trimStart s).

(** [Boolean(s)] for a string: the empty string is falsy. *)
Definition truthy (s : str) : bool :=
  match s with [] => false | _ => true end.

(** [s.replace(/\\/g, '/')] *)
Definition backslashesToSlashes (s : str) : str :=
  map (fun c => if (c =? BACKSLASH)%N then SLASH else c) s.

(** [s.replace(/\/+/g, '/')]: every maximal run of slashes becomes one. *)
Fixpoint collapseSlashes (s : str) : str :=
  match s with
  | [] => []
  | c :: s' =>
      if (c =? SLASH)%N then
        match s' with
        | c' :: _ => if (c' =? SLASH)%N then collapseSlashes s'
                     else c :: collapseSlashes s'
        | [] => [c]
        end
      else c :: collapseSlashes s'
  end.

(** [s.split(sep)] for a one-character separator; [''.split(sep)] is
    [['']]. *)
Fixpoint split (sep : N) (s : str) : list str :=
  match s with
  | [] => [[]]
  | c :: s' =>
      if (c =? sep)%N then [] :: split sep s'
      else match split sep s' with
           | seg :: segs => (c :: seg) :: segs
           | [] => [[c]]
           end
  end.

(** [s.startsWith(p)] *)
Fixpoint startsWith (s p : str) : bool :=
  match p, s with
  | [], _ => true
  | x :: p', y :: s' => (x =? y)%N && startsWith s' p'
  | _ :: _, [] => false
  end.

(** [arr.pop()] on a fresh array: the last element, [undefined] if none. *)
Definition pop (l : list str) : option str := last l.

(** [new Set(...).add(x)]: insertion order is kept, a present element is
    not moved. *)
Definition setAdd (s : list str) (x : str) : list str :=
  if decide (x ∈ s) then s else s ++ [x].

(** [Array.from(new Set(l))] *)
Definition setFrom (l : list str) : list str := foldl setAdd [] l.

(** [set.has(x)] *)
Definition setHas (s : list str) (x : str) : bool := bool_decide (x ∈ s).

(** The comparator behind [a.localeCompare(b)]: negative, zero or
    positive. *)
Class Collator := localeCompare : str → str → Z.

(** What [Array.prototype.sort] needs of a comparator to be defined
    (a consistent comparator): the induced "not after" relation is total
    and transitive. *)
Class ConsistentCollator (C : Collator) : Prop := {
  collate_total : ∀ a b, (localeCompare a b <= 0)%Z ∨ (localeCompare b a <= 0)%Z;
  collate_trans : ∀ a b c,
    (localeCompare a b <= 0)%Z → (localeCompare b c <= 0)%Z →
    (localeCompare a c <= 0)%Z
}.

(** [arr.sort(cmp)]: stable, so for a consistent comparator it is the
    insertion sort that puts an element before the first one it does not
    come after. *)
Fixpoint sortInsert {A} (cmp : A → A → Z) (x : A) (l : list A) : list A :=
  match l with
  | [] => [x]
  | y :: l' => if (cmp x y <=? 0)%Z then x :: l else y :: sortInsert cmp x l'
  end.

Definition sortBy {A} (cmp : A → A → Z) (l : list A) : list A :=
  foldr (sortInsert cmp) [] l.

(** [a] does not come after [b]. *)
Definition notAfter {A} (cmp : A → A → Z) (a b : A) : Prop := (cmp a b <= 0)%Z.

(** Sorted ascending for the collation. *)
Definition ascending `{Collator} (l : list str) : Prop :=
  StronglySorted (notAfter localeCompare) l.

(** Code-unit lexicographic comparison: a concrete collation, used to
    run the model on examples. *)
Fixpoint codeUnitCompare (a b : str) : Z :=
  match a, b with
  | [], [] => 0
  | [], _ :: _ => -1
  | _ :: _, [] => 1
  | x :: a', y :: b' =>
      match (x ?= y)%N with
      | Lt => -1
      | Gt => 1
      | Eq => codeUnitCompare a' b'
      end
  end.

#[global] Instance codeUnitCollator : Collator := codeUnitCompare.

End Js.
Import Js.

(* ===================================================================== *)
(** ** lib/fileTree.ts *)
(* ===================================================================== *)

Module FileTree.

Definition hexDigit (c : N) : option N :=
  if ((48 <=? c) && (c <=? 57))%N then Some (c - 48)%N
  else if ((65 <=? c) && (c <=? 70))%N then Some (c - 55)%N
  else if ((97 <=? c) && (c <=? 102))%N then Some (c - 87)%N
  else None.

(** [value.replace(/\$([0-9a-fA-F]{2})/g, (_, hex) =>
      String.fromCharCode(parseInt(hex, 16)))] *)
Fixpoint decodeStandardName (value : str) : str :=
  match value with
  | [] => []
  | c :: rest =>
      if (c =? DOLLAR)%N then
        match rest with
        | h1 :: h2 :: rest' =>
            match hexDigit h1, hexDigit h2 with
            | Some a, Some b => (16 * a + b)%N :: decodeStandardName rest'
            | _, _ => c :: decodeStandardName rest
            end
        | _ => c :: decodeStandardName rest
        end
      else c :: decodeStandardName rest
  end.

Definition normalizePath (value : str) : str :=
  collapseSlashes (backslashesToSlashes (trim value)).

Definition stripRootPrefix (segments : list str) : list str :=
  match segments with
  | s :: rest => if decide (s = lit "root") then rest else segments
  | [] => segments
  end.

Definition toComparableSegments (value : str) : list str :=
  stripRootPrefix
    (filter (fun s => truthy s = true) (map trim (split SLASH (normalizePath value)))).

Inductive PathRelation := same | ancestor | descendant | disjoint.

#[global] Instance PathRelation_eq_dec : EqDecision PathRelation.
Proof. solve_decision. Defined.

(** The loop [for (i = 0; i < minLen; i++) if (aSegs[i] !== bSegs[i])
    return 'disjoint']: [true] when it returns. *)
Fixpoint segmentsMismatch (aSegs bSegs : list str) : bool :=
  match aSegs, bSegs with
  | x :: aSegs', y :: bSegs' =>
      if decide (x = y) then segmentsMismatch aSegs' bSegs' else true
  | _, _ => false
  end.

Definition relateSegments (aSegs bSegs : list str) : PathRelation :=
  if (length aSegs =? 0)%nat || (length bSegs =? 0)%nat then disjoint
  else if segmentsMismatch aSegs bSegs then disjoint
  else if (length aSegs =? length bSegs)%nat then same
  else if (length aSegs <? length bSegs)%nat then ancestor
  else descendant.

Definition getPathRelation (a b : str) : PathRelation :=
  relateSegments (toComparableSegments a) (toComparableSegments b).

(** The prefix test shared by the two "downstream" predicates. *)
Fixpoint ancestorSegmentsMatch (pathSegs ancSegs : list str) : bool :=
  match ancSegs with
  | [] => true
  | x :: ancSegs' =>
      match pathSegs with
      | y :: pathSegs' =>
          if decide (y = x) then ancestorSegmentsMatch pathSegs' ancSegs' else false
      | [] => false
      end
  end.

Definition isAtOrDownstreamOfAnyFolderPath (path : str) (ancestorPaths : list str) : bool :=
  let pathSegs := toComparableSegments path in
  if (length pathSegs =? 0)%nat then false
  else
    existsb
      (fun a =>
         let ancSegs := toComparableSegments a in
         if (length ancSegs =? 0)%nat then false
         else if (length pathSegs <? length ancSegs)%nat then false
         else ancestorSegmentsMatch pathSegs ancSegs)
      ancestorPaths.

End FileTree.
Import FileTree.

(* ===================================================================== *)
(** ** App.tsx: data *)
(* ===================================================================== *)

Module PointRecord.
Record t := mk { path : str; type : str }.
End PointRecord.

Module MergedDevice.
Record t := mk { id : str; name : str; memberPaths : list str }.
End MergedDevice.

Module PendingMerge.
Record t := mk { memberPaths : list str; suggestedName : str }.
End PendingMerge.

Module ReassignmentGroup.
Record t := mk {
  fromDevicePath : option str;
  toDevicePath : option str;
  pointPaths : list str
}.
End ReassignmentGroup.

Module PendingDeviceConflict.
Record t := mk {
  toAdd : list str;
  toRemove : list str;
  droppedFromSelection : list str;
  upstreamConflicts : list str;
  downstreamConflicts : list str;
  reassignmentGroups : list ReassignmentGroup.t
}.
End PendingDeviceConflict.

(** The React state of [App] that the device engine reads and writes.
    [treeFolderPathSet] is the memo derived from the uploaded paths. *)
Record AppState := mkApp {
  csvText : option str;
  selectedColumn : str;
  points : list PointRecord.t;
  devicePaths : list str;
  mergedDevices : list MergedDevice.t;
  deviceNameByPath : gmap str str;
  selectedPaths : list str;
  hiddenFolderPaths : list str;
  pendingConflict : option PendingDeviceConflict.t;
  openReassignGroups : gmap str bool;
  pendingMerge : option PendingMerge.t;
  mergeName : str;
  treeFolderPathSet : gset str
}.

(** The state setters. *)
Definition setDevicePaths (f : list str → list str) (st : AppState) : AppState :=
  mkApp (csvText st) (selectedColumn st) (points st) (f (devicePaths st))
    (mergedDevices st) (deviceNameByPath st) (selectedPaths st)
    (hiddenFolderPaths st) (pendingConflict st) (openReassignGroups st)
    (pendingMerge st) (mergeName st) (treeFolderPathSet st).

Definition setMergedDevices (f : list MergedDevice.t → list MergedDevice.t)
    (st : AppState) : AppState :=
  mkApp (csvText st) (selectedColumn st) (points st) (devicePaths st)
    (f (mergedDevices st)) (deviceNameByPath st) (selectedPaths st)
    (hiddenFolderPaths st) (pendingConflict st) (openReassignGroups st)
    (pendingMerge st) (mergeName st) (treeFolderPathSet st).

Definition setDeviceNameByPath (f : gmap str str → gmap str str)
    (st : AppState) : AppState :=
  mkApp (csvText st) (selectedColumn st) (points st) (devicePaths st)
    (mergedDevices st) (f (deviceNameByPath st)) (selectedPaths st)
    (hiddenFolderPaths st) (pendingConflict st) (openReassignGroups st)
    (pendingMerge st) (mergeName st) (treeFolderPathSet st).

Definition setSelectedPaths (v : list str) (st : AppState) : AppState :=
  mkApp (csvText st) (selectedColumn st) (points st) (devicePaths st)
    (mergedDevices st) (deviceNameByPath st) v
    (hiddenFolderPaths st) (pendingConflict st) (openReassignGroups st)
    (pendingMerge st) (mergeName st) (treeFolderPathSet st).

Definition setPendingConflict (v : option PendingDeviceConflict.t)
    (st : AppState) : AppState :=
  mkApp (csvText st) (selectedColumn st) (points st) (devicePaths st)
    (mergedDevices st) (deviceNameByPath st) (selectedPaths st)
    (hiddenFolderPaths st) v (openReassignGroups st)
    (pendingMerge st) (mergeName st) (treeFolderPathSet st).

Definition setOpenReassignGroups (v : gmap str bool) (st : AppState) : AppState :=
  mkApp (csvText st) (selectedColumn st) (points st) (devicePaths st)
    (mergedDevices st) (deviceNameByPath st) (selectedPaths st)
    (hiddenFolderPaths st) (pendingConflict st) v
    (pendingMerge st) (mergeName st) (treeFolderPathSet st).

Definition setPendingMerge (v : option PendingMerge.t) (st : AppState) : AppState :=
  mkApp (csvText st) (selectedColumn st) (points st) (devicePaths st)
    (mergedDevices st) (deviceNameByPath st) (selectedPaths st)
    (hiddenFolderPaths st) (pendingConflict st) (openReassignGroups st)
    v (mergeName st) (treeFolderPathSet st).

Definition setMergeName (v : str) (st : AppState) : AppState :=
  mkApp (csvText st) (selectedColumn st) (points st) (devicePaths st)
    (mergedDevices st) (deviceNameByPath st) (selectedPaths st)
    (hiddenFolderPaths st) (pendingConflict st) (openReassignGroups st)
    (pendingMerge st) v (treeFolderPathSet st).

(* ===================================================================== *)
(** ** App.tsx: display names *)
(* ===================================================================== *)

(** [p.startsWith('root/') ? p.slice('root/'.length) : p] *)
Definition displayDevicePath (p : str) : str :=
  if startsWith p (lit "root/") then drop 5 p else p.

(** The memo [mergedNameByPath]: a later group overwrites an earlier one. *)
Definition mergedNameByPath (mds : list MergedDevice.t) : gmap str str :=
  foldl
    (fun m md =>
       let name := trim (MergedDevice.name md) in
       if truthy name then
         foldl (fun m p => <[p := name]> m) m (MergedDevice.memberPaths md)
       else m)
    ∅ mds.


Definition displayDeviceName (st : AppState) (p : str) : str :=
  let fallback :=
    let shown := displayDevicePath p in
    decodeStandardName (default shown (pop (split SLASH shown))) in
  let viaOverride :=
    match deviceNameByPath st !! p with
    | Some override =>
        if truthy override && truthy (trim override) then trim override
        else fallback
    | None => fallback
    end in
  match mergedNameByPath (mergedDevices st) !! p with
  | Some mergedName =>
      if truthy mergedName && truthy (trim mergedName) then trim mergedName
      else viaOverride
  | None => viaOverride
  end.

(* ===================================================================== *)
(** ** App.tsx: effects keyed on [devicePaths] *)
(* ===================================================================== *)

(** One iteration of the loop of the pruning effect over
    [(changed, next)]. *)
Definition pruneStep (deviceSet : list str) (acc : bool * list MergedDevice.t)
    (md : MergedDevice.t) : bool * list MergedDevice.t :=
  let kept := filter (fun p => setHas deviceSet p = true) (MergedDevice.memberPaths md) in
  if (length kept =? 0)%nat then (true, acc.2)
  else
    (acc.1 || negb (length kept =? length (MergedDevice.memberPaths md))%nat,
     acc.2 ++ [MergedDevice.mk (MergedDevice.id md) (MergedDevice.name md) kept]).

(** Prune merged groups if their member paths are no longer devices. *)
Definition pruneMergedDevices (devices : list str)
    (prev : list MergedDevice.t) : list MergedDevice.t :=
  let deviceSet := setFrom devices in
  let result := foldl (pruneStep deviceSet) (false, []) prev in
  if result.1 then result.2 else prev.

(** Prune overrides for removed devices. *)
Definition pruneNameOverrides (devices : list str)
    (prev : gmap str str) : gmap str str :=
  let deviceSet := setFrom devices in
  filter (fun kv => setHas deviceSet kv.1 = true) prev.

(** Both effects, as run after a render in which [devicePaths] changed. *)
Definition devicePathsEffects (st : AppState) : AppState :=
  setDeviceNameByPath (pruneNameOverrides (devicePaths st))
    (setMergedDevices (pruneMergedDevices (devicePaths st)) st).

(* ===================================================================== *)
(** ** App.tsx: ownership *)
(* ===================================================================== *)

(** [d.split('/').filter(Boolean).length] *)
Definition rawDepth (d : str) : nat :=
  length (filter (fun s => truthy s = true) (split SLASH d)).

(** [rel === 'ancestor' || rel === 'same'] *)
Definition qualifies (d pointPath : str) : bool :=
  match getPathRelation d pointPath with
  | ancestor | same => true
  | _ => false
  end.

(** One iteration of the loop of [computeOwnerDevice] over [best]. *)
Definition ownerStep (pointPath : str) (best : option (str * nat)) (d : str)
    : option (str * nat) :=
  if negb (qualifies d pointPath) then best
  else
    let depth := rawDepth d in
    match best with
    | None => Some (d, depth)
    | Some (_, bestDepth) => if (bestDepth <? depth)%nat then Some (d, depth) else best
    end.

(** The depth that the specification of the resolver names: the number of
    non-empty segments after stripping the root segment. *)
Definition folderSegmentDepth (d : str) : nat := length (toComparableSegments d).

Definition computeOwnerDevice (pointPath : str) (devices : list str) : option str :=
  fst <$> foldl (ownerStep pointPath) None devices.

(** What the loop has computed after any prefix of the device list: the
    first of the deepest qualifying devices seen so far. *)
Definition firstDeepest (p : str) (ds : list str) (best : option (str * nat)) : Prop :=
  match best with
  | None => ∀ d, d ∈ ds → qualifies d p = false
  | Some (d, n) =>
      n = rawDepth d ∧
      ∃ i, ds !! i = Some d ∧ qualifies d p = true ∧
           ∀ j d', ds !! j = Some d' → qualifies d' p = true →
                   rawDepth d' ≤ n ∧ (j < i → rawDepth d' < n)
  end.

(* ===================================================================== *)
(** ** App.tsx: reassignment groups *)
(* ===================================================================== *)

(** An entry of [groupMap]: [{ from, to, set }]. *)
Module GroupEntry.
Record t := mk { from : option str; to : option str; set : list str }.
End GroupEntry.

(** The template string [`${from ?? s}→${to ?? s}`]. *)
Definition arrowKey (sentinel : str) (from to : option str) : str :=
  default sentinel from ++ [ARROW] ++ default sentinel to.

(** [groupMap.get(key)] on the insertion-ordered map. *)
Fixpoint groupMapGet (key : str) (m : list (str * GroupEntry.t)) : option GroupEntry.t :=
  match m with
  | [] => None
  | (k, g) :: m' => if decide (k = key) then Some g else groupMapGet key m'
  end.

(** [g.set.add(p)] *)
Definition addPoint (p : str) (g : GroupEntry.t) : GroupEntry.t :=
  GroupEntry.mk (GroupEntry.from g) (GroupEntry.to g) (setAdd (GroupEntry.set g) p).

(** [g.set.add(p)] on the entry stored under [key]: the entry is changed
    in place. *)
Fixpoint groupMapAddPoint (key p : str) (m : list (str * GroupEntry.t))
    : list (str * GroupEntry.t) :=
  match m with
  | [] => []
  | (k, g) :: m' =>
      if decide (k = key) then (k, addPoint p g) :: m'
      else (k, g) :: groupMapAddPoint key p m'
  end.

(** The body of [for (const pt of points)]. *)
Definition reassignStep (currentDevices nextDevices : list str)
    (groupMap : list (str * GroupEntry.t)) (pt : PointRecord.t)
    : list (str * GroupEntry.t) :=
  let from := computeOwnerDevice (PointRecord.path pt) currentDevices in
  let to := computeOwnerDevice (PointRecord.path pt) nextDevices in
  if decide (from = to) then groupMap
  else if bool_decide (from = None) && negb (bool_decide (to = None)) then groupMap
  else if negb (bool_decide (from = None)) && bool_decide (to = None) then groupMap
  else
    let key := arrowKey [EMPTYSET] from to in
    match groupMapGet key groupMap with
    | None =>
        groupMap ++ [(key, GroupEntry.mk from to (setAdd [] (PointRecord.path pt)))]
    | Some _ => groupMapAddPoint key (PointRecord.path pt) groupMap
    end.

Definition reassignGroupMap (pts : list PointRecord.t)
    (currentDevices nextDevices : list str) : list (str * GroupEntry.t) :=
  foldl (reassignStep currentDevices nextDevices) [] pts.

Definition groupSortKey (g : ReassignmentGroup.t) : str :=
  arrowKey [] (ReassignmentGroup.fromDevicePath g) (ReassignmentGroup.toDevicePath g).

Definition computeReassignmentGroups `{Collator} (pts : list PointRecord.t)
    (currentDevices nextDevices : list str) : list ReassignmentGroup.t :=
  sortBy (fun a b => localeCompare (groupSortKey a) (groupSortKey b))
    (map (fun kg : str * GroupEntry.t =>
            ReassignmentGroup.mk (GroupEntry.from kg.2) (GroupEntry.to kg.2)
              (sortBy localeCompare (GroupEntry.set kg.2)))
         (reassignGroupMap pts currentDevices nextDevices)).

(* ===================================================================== *)
(** ** App.tsx: device set mutations and the conflict planner *)
(* ===================================================================== *)

Definition addDevices (pathsToAdd : list str) (st : AppState) : AppState :=
  if (length pathsToAdd =? 0)%nat then st
  else
    devicePathsEffects
      (setDevicePaths (fun prev => foldl setAdd (setFrom prev) pathsToAdd) st).

Definition applyDeviceChange (nextAdd nextRemove : list str) (st : AppState) : AppState :=
  devicePathsEffects
    (setDevicePaths
       (fun prev =>
          let removeSet := setFrom nextRemove in
          foldl setAdd (setFrom (filter (fun p => setHas removeSet p = false) prev)) nextAdd)
       st).

Definition removeDevices (pathsToRemove : list str) (st : AppState) : AppState :=
  if (length pathsToRemove =? 0)%nat then st
  else
    devicePathsEffects
      (setDevicePaths
         (fun prev =>
            let removeSet := setFrom pathsToRemove in
            filter (fun p => setHas removeSet p = false) prev)
         st).

(** The inner loop over [selectionUnique] with its [break]. *)
Definition isAncestorOfAnotherSelected (selectionUnique : list str) (candidate : str) : bool :=
  existsb
    (fun other =>
       if decide (candidate = other) then false
       else bool_decide (getPathRelation candidate other = ancestor))
    selectionUnique.

Definition selectionDropped (selectionUnique : list str) : list str :=
  filter (fun c => isAncestorOfAnotherSelected selectionUnique c = true) selectionUnique.

Definition selectionToAdd (selectionUnique : list str) : list str :=
  filter (fun c => isAncestorOfAnotherSelected selectionUnique c = false) selectionUnique.

(** The three sets filled by the loop over existing and incoming paths. *)
Module Conflicts.
Record t := mk { upstream : list str; downstream : list str; remove : list str }.
End Conflicts.

(** The two relations for which an existing device conflicts with an
    incoming one. *)
Definition conflicting (existing incoming : str) : Prop :=
  getPathRelation existing incoming = ancestor ∨
  getPathRelation existing incoming = descendant.

Definition conflictStep (existing : str) (acc : Conflicts.t) (incoming : str) : Conflicts.t :=
  match getPathRelation existing incoming with
  | ancestor =>
      Conflicts.mk (setAdd (Conflicts.upstream acc) existing) (Conflicts.downstream acc)
        (setAdd (Conflicts.remove acc) existing)
  | descendant =>
      Conflicts.mk (Conflicts.upstream acc) (setAdd (Conflicts.downstream acc) existing)
        (setAdd (Conflicts.remove acc) existing)
  | _ => acc
  end.

Definition scanConflicts (devices toAdd : list str) : Conflicts.t :=
  foldl (fun acc existing => foldl (conflictStep existing) acc toAdd)
    (Conflicts.mk [] [] []) devices.

(** The plan computed by [markSelectionAsDevices] before it decides
    whether to stage or to apply. *)
Definition planConflict `{Collator} (st : AppState) : PendingDeviceConflict.t :=
  let selectionUnique := setFrom (selectedPaths st) in
  let droppedFromSelection := selectionDropped selectionUnique in
  let toAdd := selectionToAdd selectionUnique in
  let sets := scanConflicts (devicePaths st) toAdd in
  let toRemove := sortBy localeCompare (Conflicts.remove sets) in
  let nextDevices :=
    setFrom (filter (fun p => setHas (Conflicts.remove sets) p = false) (devicePaths st)
             ++ toAdd) in
  PendingDeviceConflict.mk
    (sortBy localeCompare toAdd)
    toRemove
    (sortBy localeCompare droppedFromSelection)
    (sortBy localeCompare (Conflicts.upstream sets))
    (sortBy localeCompare (Conflicts.downstream sets))
    (computeReassignmentGroups (points st) (devicePaths st) nextDevices).

Definition markSelectionAsDevices `{Collator} (st : AppState) : AppState :=
  if (length (selectedPaths st) =? 0)%nat then st
  else
    let selectionUnique := setFrom (selectedPaths st) in
    let plan := planConflict st in
    if negb (length (PendingDeviceConflict.toRemove plan) =? 0)%nat
       || negb (length (PendingDeviceConflict.droppedFromSelection plan) =? 0)%nat
    then setOpenReassignGroups ∅ (setPendingConflict (Some plan) st)
    else setSelectedPaths [] (addDevices (selectionToAdd selectionUnique) st).

Definition confirmDeviceConflict (st : AppState) : AppState :=
  match pendingConflict st with
  | None => st
  | Some plan =>
      setSelectedPaths []
        (setOpenReassignGroups ∅
           (setPendingConflict None
              (applyDeviceChange (PendingDeviceConflict.toAdd plan)
                 (PendingDeviceConflict.toRemove plan) st)))
  end.

Definition cancelDeviceConflict (st : AppState) : AppState :=
  setOpenReassignGroups ∅ (setPendingConflict None st).

(* ===================================================================== *)
(** ** App.tsx: merged devices *)
(* ===================================================================== *)

Definition beginMergeDevices (memberPathsToMerge : list str) (suggestedName : str)
    (st : AppState) : AppState :=
  let memberPaths := filter (fun p => truthy p = true) (setFrom memberPathsToMerge) in
  if (length memberPaths <? 2)%nat then st
  else setMergeName suggestedName
         (setPendingMerge (Some (PendingMerge.mk memberPaths suggestedName)) st).

Definition cancelMergeDevices (st : AppState) : AppState :=
  setMergeName [] (setPendingMerge None st).

(** [md.memberPaths.some((p) => memberSet.has(p))] *)
Definition sharesMember (memberSet : list str) (md : MergedDevice.t) : bool :=
  existsb (setHas memberSet) (MergedDevice.memberPaths md).

(** [freshId] stands for the identifier built from [Date.now()] and
    [Math.random()]. *)
Definition confirmMergeDevices `{Collator} (freshId : str) (st : AppState) : AppState :=
  match pendingMerge st with
  | None => st
  | Some pm =>
      let name := trim (mergeName st) in
      if negb (truthy name) then st
      else
        let memberSet := setFrom (PendingMerge.memberPaths pm) in
        cancelMergeDevices
          (devicePathsEffects
             (setMergedDevices
                (fun prev =>
                   filter (fun md => sharesMember memberSet md = false) prev
                   ++ [MergedDevice.mk freshId name (sortBy localeCompare memberSet)])
                (setDevicePaths (fun prev => foldl setAdd (setFrom prev) memberSet) st)))
  end.

(* ===================================================================== *)
(** ** App.tsx: hidden folders *)
(* ===================================================================== *)

(** The inner loop of [normalizeHiddenFolderPaths] with its [break]. *)
Definition coveredByOther (candidates : list str) (p : str) : bool :=
  existsb
    (fun other =>
       if decide (p = other) then false
       else match getPathRelation other p with
            | ancestor | same => true
            | _ => false
            end)
    candidates.

(** [unique.filter(...).filter(...)] *)
Definition hiddenCandidates (tree : gset str) (incoming : list str) : list str :=
  let unique := setFrom (filter (fun p => truthy p = true) (map trim incoming)) in
  filter (fun p => (if (size tree =? 0)%nat then true else bool_decide (p ∈ tree)) = true)
    (filter (fun p => p ≠ lit "root") unique).

(** [candidates.sort(...)] sorts in place, so the inner loop runs over the
    sorted array as well. *)
Definition normalizeHiddenFolderPaths `{Collator} (tree : gset str)
    (incoming : list str) : list str :=
  let candidates := sortBy localeCompare (hiddenCandidates tree incoming) in
  let kept := filter (fun p => coveredByOther candidates p = false) candidates in
  sortBy localeCompare kept.

(* ===================================================================== *)
(** ** App.tsx: export *)
(* ===================================================================== *)

Definition DEVICE_NAME : str := lit "device_name".

(** The [device_name] computed for one parsed row. *)
Definition exportDeviceName (st : AppState) (rec : gmap str str) : str :=
  let pointPath := trim (default [] (rec !! selectedColumn st)) in
  let isHidden :=
    if truthy pointPath && negb (length (hiddenFolderPaths st) =? 0)%nat
    then isAtOrDownstreamOfAnyFolderPath pointPath (hiddenFolderPaths st)
    else false in
  let owner :=
    if negb isHidden && truthy pointPath
    then computeOwnerDevice pointPath (devicePaths st)
    else None in
  if isHidden then lit "-"
  else match owner with
       | Some o => if truthy o then displayDeviceName st o else []
       | None => []
       end.

(** The rows handed to [d3.csvFormat]; [None] when the handler returns
    early. [rows] is the result of [d3.csvParse(csvText)]. *)
Definition exportCsvWithDeviceNames (st : AppState) (rows : list (gmap str str))
    : option (list (gmap str str)) :=
  match csvText st with
  | None => None
  | Some text =>
      if negb (truthy text) || negb (truthy (selectedColumn st)) then None
      else Some (map (fun rec => <[DEVICE_NAME := exportDeviceName st rec]> rec) rows)
  end.

(* ===================================================================== *)
(** ** lib/fileTree.ts: folders of a path, listings, strict descent *)
(* ===================================================================== *)

(** [arr.join(sep)] for a one-character separator. *)
Fixpoint join (sep : N) (l : list str) : str :=
  match l with
  | [] => []
  | [x] => x
  | x :: l' => x ++ sep :: join sep l'
  end.

(** The segments every path is compared by before the root is stripped:
    [normalizePath(v).split('/').map((s) => s.trim()).filter(Boolean)]. *)
Definition rawSegments (value : str) : list str :=
  filter (fun s => truthy s = true) (map trim (split SLASH (normalizePath value))).

(** The folder segments of a point path: the final segment (the point) is
    ignored. *)
Definition splitFolderSegments (pathValue : str) : list str :=
  let normalized := normalizePath pathValue in
  if negb (truthy normalized) then []
  else
    let segs := filter (fun s => truthy s = true) (map trim (split SLASH normalized)) in
    if (length segs <=? 1)%nat then [] else removelast segs.

Definition isDownstreamOfAnyFolderPath (path : str) (ancestorPaths : list str) : bool :=
  let pathSegs := toComparableSegments path in
  if (length pathSegs =? 0)%nat then false
  else
    existsb
      (fun a =>
         let ancSegs := toComparableSegments a in
         if (length ancSegs =? 0)%nat then false
         else if (length pathSegs <=? length ancSegs)%nat then false
         else ancestorSegmentsMatch pathSegs ancSegs)
      ancestorPaths.

(** The segments of the folder argument of the two listings: split and
    root-stripped, but not trimmed one by one. *)
Definition listingFolderSegments (folderPath : str) : list str :=
  stripRootPrefix (filter (fun s => truthy s = true) (split SLASH (normalizePath folderPath))).

(** The leaf of a full path when it lies under the folder, [None] when
    the loop body ends in [continue]. *)
Definition leafUnderFolder (folderSegs : list str) (p : str) : option str :=
  let segs := toComparableSegments p in
  if (length segs <=? 1)%nat then None
  else
    if ancestorSegmentsMatch (removelast segs) folderSegs then last segs else None.

Definition listLeafPointsUnderFolder `{Collator} (folderPath : str)
    (fullPaths : list str) : list str :=
  let folderSegs := listingFolderSegments folderPath in
  sortBy localeCompare
    (foldl (fun out p =>
              match leafUnderFolder folderSegs p with
              | Some leaf => setAdd out leaf
              | None => out
              end)
       [] fullPaths).

Module LeafPointsByType.
Record t := mk { type : str; points : list str }.
End LeafPointsByType.

(** [(row.type ?? '').trim() || 'Unknown'] *)
Definition typeLabelOf (row : PointRecord.t) : str :=
  let t := trim (PointRecord.type row) in
  if truthy t then t else lit "Unknown".

(** [pointsByType.get(typeLabel)] *)
Fixpoint typeMapGet (key : str) (m : list (str * list str)) : option (list str) :=
  match m with
  | [] => None
  | (k, s) :: m' => if decide (k = key) then Some s else typeMapGet key m'
  end.

(** [set.add(leaf)] on the set stored under [key]. *)
Fixpoint typeMapAdd (key leaf : str) (m : list (str * list str)) : list (str * list str) :=
  match m with
  | [] => []
  | (k, s) :: m' =>
      if decide (k = key) then (k, setAdd s leaf) :: m'
      else (k, s) :: typeMapAdd key leaf m'
  end.

Definition typeMapStep (folderSegs : list str) (m : list (str * list str))
    (row : PointRecord.t) : list (str * list str) :=
  match leafUnderFolder folderSegs (PointRecord.path row) with
  | None => m
  | Some leaf =>
      let typeLabel := typeLabelOf row in
      match typeMapGet typeLabel m with
      | None => m ++ [(typeLabel, setAdd [] leaf)]
      | Some _ => typeMapAdd typeLabel leaf m
      end
  end.

Definition pointsByTypeMap (folderPath : str) (pts : list PointRecord.t)
    : list (str * list str) :=
  foldl (typeMapStep (listingFolderSegments folderPath)) [] pts.

Definition listLeafPointsUnderFolderByType `{Collator} (folderPath : str)
    (pts : list PointRecord.t) : list LeafPointsByType.t :=
  sortBy (fun a b => localeCompare (LeafPointsByType.type a) (LeafPointsByType.type b))
    (map (fun kv : str * list str =>
            LeafPointsByType.mk kv.1 (sortBy localeCompare kv.2))
       (pointsByTypeMap folderPath pts)).

(* ===================================================================== *)
(** ** App.tsx: names, selection, hiding, statistics, parsing *)
(* ===================================================================== *)

Definition setHiddenFolderPaths (f : list str → list str) (st : AppState) : AppState :=
  mkApp (csvText st) (selectedColumn st) (points st) (devicePaths st)
    (mergedDevices st) (deviceNameByPath st) (selectedPaths st)
    (f (hiddenFolderPaths st)) (pendingConflict st) (openReassignGroups st)
    (pendingMerge st) (mergeName st) (treeFolderPathSet st).

Definition renameDevice (path nextName : str) (st : AppState) : AppState :=
  let trimmed := trim nextName in
  setDeviceNameByPath
    (fun prev => if negb (truthy trimmed) then delete path prev
                 else <[path := trimmed]> prev)
    st.

(** [set.delete(x)] *)
Definition setDelete (s : list str) (x : str) : list str :=
  filter (fun y => y ≠ x) s.

Definition setSelection (next : list str) (st : AppState) : AppState :=
  setSelectedPaths (setFrom next) st.

Definition toggleSelection (path : str) (st : AppState) : AppState :=
  let set := setFrom (selectedPaths st) in
  setSelectedPaths (if setHas set path then setDelete set path else setAdd set path) st.

Definition selectSingle (path : str) (st : AppState) : AppState :=
  setSelectedPaths [path] st.

Definition pruneSelectedFolders `{Collator} (pathsToHide : list str)
    (st : AppState) : AppState :=
  let nextToHide := filter (fun p => truthy p = true) (map trim pathsToHide) in
  if (length nextToHide =? 0)%nat then st
  else
    setSelectedPaths
      (filter (fun p => isAtOrDownstreamOfAnyFolderPath p nextToHide = false)
         (selectedPaths st))
      (setHiddenFolderPaths
         (fun prev => normalizeHiddenFolderPaths (treeFolderPathSet st) (prev ++ nextToHide))
         st).

(** The callback passed to the graph as [onUnhideHiddenFolders]. *)
Definition unhideHiddenFolders (pathsToUnhide : list str) (st : AppState) : AppState :=
  if (length pathsToUnhide =? 0)%nat then st
  else
    let removeSet := setFrom pathsToUnhide in
    setHiddenFolderPaths (filter (fun p => setHas removeSet p = false)) st.

(** The memo [deviceEntityCount]. *)
Definition deviceEntityCount (st : AppState) : nat :=
  let named := mergedNameByPath (mergedDevices st) in
  length (mergedDevices st)
  + length (filter (fun p => named !! p = None) (devicePaths st)).

Definition folderKeyFromPointPath (p : str) : option str :=
  let segs := filter (fun s => truthy s = true) (map trim (split SLASH (normalizePath p))) in
  if (length segs <=? 1)%nat then None
  else
    let folders := removelast segs in
    if (length folders =? 0)%nat then None
    else
      match folders with
      | first :: _ =>
          if decide (first = lit "root") then Some (join SLASH folders)
          else Some (lit "root/" ++ join SLASH folders)
      | [] => None
      end.

Module UnassignedStats.
Record t := mk {
  totalPointsCount : nat;
  unassignedPointsCount : nat;
  unassignedFolderPaths : list str
}.
End UnassignedStats.

(** One iteration of the loop of [unassignedStats] over
    [(unassigned, folderSet)]. *)
Definition unassignedStep (devices : list str) (acc : nat * list str)
    (pt : PointRecord.t) : nat * list str :=
  match computeOwnerDevice (PointRecord.path pt) devices with
  | Some _ => acc
  | None =>
      (S acc.1,
       match folderKeyFromPointPath (PointRecord.path pt) with
       | Some fk => if truthy fk then setAdd acc.2 fk else acc.2
       | None => acc.2
       end)
  end.

Definition unassignedStats `{Collator} (st : AppState) : UnassignedStats.t :=
  let result := foldl (unassignedStep (devicePaths st)) (0, []) (points st) in
  UnassignedStats.mk (length (points st)) result.1 (sortBy localeCompare result.2).

(** [parsePointsFromCsv]; [rows] is the result of [d3.csvParse(text)]. *)
Definition parsePointsFromCsv (rows : list (gmap str str)) (pathCol typeCol : str)
    : list PointRecord.t :=
  omap
    (fun rec : gmap str str =>
       let path := trim (default [] (rec !! pathCol)) in
       if negb (truthy path) then None
       else
         let type :=
           if truthy typeCol then
             let t := trim (default [] (rec !! typeCol)) in
             if truthy t then t else lit "Unknown"
           else lit "Points" in
         Some (PointRecord.mk path type))
    rows.

(** [!inputColumns.includes('device_name')] decides whether the export
    appends the column. *)
Definition exportColumns (inputColumns : list str) : list str :=
  if bool_decide (DEVICE_NAME ∈ inputColumns) then inputColumns
  else inputColumns ++ [DEVICE_NAME].

(* ===================================================================== *)
(** ** components/Devices.tsx: the device list and its bulk actions *)
(* ===================================================================== *)

(** [DeviceListItem]: a merged device or a single device. *)
Module DeviceListItem.
Inductive t :=
  | merged (id name : str) (memberPaths : list str)
  | device (path : str).
End DeviceListItem.

Definition memberPathsForItem (it : DeviceListItem.t) : list str :=
  match it with
  | DeviceListItem.merged _ _ memberPaths => memberPaths
  | DeviceListItem.device path => [path]
  end.

(** The template strings [`m:${it.id}`] and [`p:${it.path}`]. *)
Definition keyFor (it : DeviceListItem.t) : str :=
  match it with
  | DeviceListItem.merged id _ _ => lit "m:" ++ id
  | DeviceListItem.device path => lit "p:" ++ path
  end.

(** The memo [mergedMemberSet]. *)
Definition mergedMemberSet (mds : list MergedDevice.t) : list str :=
  foldl (fun s md => foldl setAdd s (MergedDevice.memberPaths md)) [] mds.

(** The memo [items]: the merged devices by name, then the devices that
    are in no merged device, by path. *)
Definition items `{Collator} (st : AppState) : list DeviceListItem.t :=
  let sortedPaths := sortBy localeCompare (devicePaths st) in
  let mergedItems :=
    map (fun md => DeviceListItem.merged (MergedDevice.id md) (MergedDevice.name md)
                     (MergedDevice.memberPaths md))
      (sortBy (fun a b => localeCompare (MergedDevice.name a) (MergedDevice.name b))
         (mergedDevices st)) in
  let unmerged :=
    map DeviceListItem.device
      (filter (fun p => setHas (mergedMemberSet (mergedDevices st)) p = false)
         sortedPaths) in
  mergedItems ++ unmerged.

(** The memo [keyToItem]: a later item replaces an earlier one with the
    same key. *)
Definition keyToItem (its : list DeviceListItem.t) : gmap str DeviceListItem.t :=
  foldl (fun m it => <[keyFor it := it]> m) ∅ its.

(** [for (const p of memberPathsForItem(it)) if (deviceSet.has(p))
    paths.push(p)] *)
Definition deviceMembers (st : AppState) (it : DeviceListItem.t) : list str :=
  filter (fun p => setHas (setFrom (devicePaths st)) p = true) (memberPathsForItem it).

(** One iteration of the loop of [mergeSelected] over
    [(memberPaths, suggestedName)]. *)
Definition mergeSelectedStep `{Collator} (st : AppState) (acc : list str * str)
    (k : str) : list str * str :=
  match keyToItem (items st) !! k with
  | None => acc
  | Some it =>
      (acc.1 ++ deviceMembers st it,
       if negb (truthy acc.2) then
         match it with
         | DeviceListItem.merged _ name _ => name
         | DeviceListItem.device path => displayDeviceName st path
         end
       else acc.2)
  end.

(** [mergeSelected], with [onBeginMerge] bound to [beginMergeDevices];
    [checkedKeys] is the local state of the panel. *)
Definition mergeSelected `{Collator} (checkedKeys : list str) (st : AppState) : AppState :=
  let checkedSet := setFrom checkedKeys in
  if (length checkedSet <? 2)%nat then st
  else
    let result := foldl (mergeSelectedStep st) ([], []) checkedSet in
    let unique := setFrom result.1 in
    if (length unique <? 2)%nat then st
    else
      beginMergeDevices unique
        (if truthy result.2 then result.2
         else displayDeviceName st (default [] (head unique)))
        st.

(** One iteration of the loop of [deleteChecked] over [paths]. *)
Definition deleteCheckedStep `{Collator} (st : AppState) (paths : list str)
    (k : str) : list str :=
  match keyToItem (items st) !! k with
  | None => paths
  | Some it => paths ++ deviceMembers st it
  end.

(** [deleteChecked], with [onRemoveDevices] bound to [removeDevices]. *)
Definition deleteChecked `{Collator} (checkedKeys : list str) (st : AppState) : AppState :=
  let toDeleteKeys := setFrom checkedKeys in
  if (length toDeleteKeys =? 0)%nat then st
  else
    let paths := foldl (deleteCheckedStep st) [] toDeleteKeys in
    let unique := setFrom paths in
    if (length unique =? 0)%nat then st
    else removeDevices unique st.

(* ===================================================================== *)
(** ** lib/fileTree.ts: the folder tree *)
(* ===================================================================== *)

(** [FileTreeNode]. The builder shares every node between the map
    [nodeByKey] and the [children] array of its parent; the nodes are kept
    here in the map, under their keys, and [children] holds the keys of the
    child nodes. *)
Module FileTreeNode.
Record t := mk { name : str; path : str; children : list str }.
End FileTreeNode.

(** [currentNode.children.push(nextNode)] *)
Definition pushChild (child : str) (node : FileTreeNode.t) : FileTreeNode.t :=
  FileTreeNode.mk (FileTreeNode.name node) (FileTreeNode.path node)
    (FileTreeNode.children node ++ [child]).

(** The body of [for (const seg of segments)] over
    [(nodeByKey, currentKey)]; [currentNode] is the node stored under
    [currentKey]. *)
Definition insertSegment (acc : gmap str FileTreeNode.t * str) (seg : str)
    : gmap str FileTreeNode.t * str :=
  let nextKey := acc.2 ++ SLASH :: seg in
  match acc.1 !! nextKey with
  | Some _ => (acc.1, nextKey)
  | None =>
      (alter (pushChild nextKey) acc.2
         (<[nextKey := FileTreeNode.mk (decodeStandardName seg) nextKey []]> acc.1),
       nextKey)
  end.

(** The body of [for (const p of paths)]. *)
Definition insertPath (rootName : str) (nodeByKey : gmap str FileTreeNode.t) (p : str)
    : gmap str FileTreeNode.t :=
  let segments := splitFolderSegments p in
  if (length segments =? 0)%nat then nodeByKey
  else (foldl insertSegment (nodeByKey, rootName) segments).1.

(** [a.name] for the node stored under the key [a]. *)
Definition nodeName (nodeByKey : gmap str FileTreeNode.t) (key : str) : str :=
  match nodeByKey !! key with
  | Some node => FileTreeNode.name node
  | None => []
  end.

(** [sortRec]; the recursion goes down the tree, [fuel] bounds its
    depth. *)
Fixpoint sortRec `{Collator} (fuel : nat) (nodeByKey : gmap str FileTreeNode.t)
    (key : str) : gmap str FileTreeNode.t :=
  match fuel with
  | O => nodeByKey
  | S fuel' =>
      match nodeByKey !! key with
      | None => nodeByKey
      | Some node =>
          if (length (FileTreeNode.children node) =? 0)%nat then nodeByKey
          else
            let sorted :=
              sortBy (fun a b => localeCompare (nodeName nodeByKey a) (nodeName nodeByKey b))
                (FileTreeNode.children node) in
            foldl (sortRec fuel')
              (<[key := FileTreeNode.mk (FileTreeNode.name node) (FileTreeNode.path node)
                          sorted]> nodeByKey)
              sorted
      end
  end.

(** [buildFolderTreeFromPaths]: the nodes of the tree; its root is the
    node stored under [rootName]. No path from the root is longer than the
    number of nodes. *)
Definition buildFolderTreeFromPaths `{Collator} (paths : list str) (rootName : str)
    : gmap str FileTreeNode.t :=
  let nodeByKey :=
    foldl (insertPath rootName)
      {[ rootName := FileTreeNode.mk rootName rootName [] ]} paths in
  sortRec (size nodeByKey) nodeByKey rootName.

(** The function [rec] of the memo [treeFolderPathSet] of App.tsx. *)
Fixpoint collectFolderPaths (fuel : nat) (nodes : gmap str FileTreeNode.t)
    (set : list str) (key : str) : list str :=
  match fuel with
  | O => set
  | S fuel' =>
      match nodes !! key with
      | None => set
      | Some node =>
          foldl (collectFolderPaths fuel' nodes) (setAdd set (FileTreeNode.path node))
            (FileTreeNode.children node)
      end
  end.

(** The memo [treeFolderPathSet] of App.tsx, with [treeData] the tree built
    from [paths]. *)
Definition treeFolderPathSetMemo `{Collator} (paths : list str) : list str :=
  if (length paths =? 0)%nat then []
  else
    let nodes := buildFolderTreeFromPaths paths (lit "root") in
    collectFolderPaths (size nodes) nodes [] (lit "root").

(* ===================================================================== *)
(** ** Invariants of the specification *)
(* ===================================================================== *)

(** The Device-Set invariant: no path of the set is an ancestor or a
    descendant of another path of the set. *)
Definition deviceSetInvariant (devices : list str) : Prop :=
  ∀ p q, p ∈ devices → q ∈ devices → p ≠ q →
         getPathRelation p q ≠ ancestor ∧ getPathRelation p q ≠ descendant.

(** Merge uniqueness: a folder path is a member of at most one merged
    device. *)
Definition mergeUnique (mds : list MergedDevice.t) : Prop :=
  ∀ i j a b p, mds !! i = Some a → mds !! j = Some b →
               p ∈ MergedDevice.memberPaths a → p ∈ MergedDevice.memberPaths b →
               i = j.

(** A point is reassigned from device [f] to device [t]: it has an owner
    under both device lists and the two differ. *)
Definition reassigned (currentDevices nextDevices : list str)
    (pt : PointRecord.t) (f t : str) : Prop :=
  computeOwnerDevice (PointRecord.path pt) currentDevices = Some f ∧
  computeOwnerDevice (PointRecord.path pt) nextDevices = Some t ∧
  f ≠ t.

(** What the group map holds after the loop has run over [pts]. *)
Definition groupMapInvariant (cur nxt : list str) (pts : list PointRecord.t)
    (m : list (str * GroupEntry.t)) : Prop :=
  NoDup m.*1 ∧
  ∀ k, match groupMapGet k m with
       | None => ∀ pt f t, pt ∈ pts → reassigned cur nxt pt f t →
                           f ++ [ARROW] ++ t ≠ k
       | Some g =>
           (∃ f t pt, GroupEntry.from g = Some f ∧ GroupEntry.to g = Some t ∧
                      k = f ++ [ARROW] ++ t ∧ pt ∈ pts ∧ reassigned cur nxt pt f t) ∧
           NoDup (GroupEntry.set g) ∧
           ∀ p, p ∈ GroupEntry.set g ↔
                ∃ pt f t, pt ∈ pts ∧ PointRecord.path pt = p ∧
                          reassigned cur nxt pt f t ∧ f ++ [ARROW] ++ t = k
       end.

(** Two merged devices with no member in common. *)
Definition disjointMembers (a b : MergedDevice.t) : Prop :=
  ∀ p, p ∈ MergedDevice.memberPaths a → p ∉ MergedDevice.memberPaths b.

(** What the pruning effect does to one merged device. *)
Definition pruneGroup (devices : list str) (md : MergedDevice.t) : option MergedDevice.t :=
  let kept := filter (fun p => setHas (setFrom devices) p = true)
                (MergedDevice.memberPaths md) in
  if (length kept =? 0)%nat then None
  else Some (MergedDevice.mk (MergedDevice.id md) (MergedDevice.name md) kept).

(** One user action on the engine: any handler, with any arguments. *)
Inductive engineStep `{Collator} : AppState → AppState → Prop :=
  | stepSelect sel st : engineStep st (setSelectedPaths sel st)
  | stepMark st : engineStep st (markSelectionAsDevices st)
  | stepConfirmConflict st : engineStep st (confirmDeviceConflict st)
  | stepCancelConflict st : engineStep st (cancelDeviceConflict st)
  | stepRemove ps st : engineStep st (removeDevices ps st)
  | stepBeginMerge ps suggested st : engineStep st (beginMergeDevices ps suggested st)
  | stepTypeMergeName n st : engineStep st (setMergeName n st)
  | stepCancelMerge st : engineStep st (cancelMergeDevices st)
  | stepConfirmMerge freshId st : engineStep st (confirmMergeDevices freshId st).

(* ===================================================================== *)
(** ** Sequences of user actions *)
(* ===================================================================== *)

(** Any user action: the engine's handlers and those above. *)
Inductive appStep `{Collator} : AppState → AppState → Prop :=
  | appEngine st st' : engineStep st st' → appStep st st'
  | appAddDevices ps st : appStep st (addDevices ps st)
  | appRename path nextName st : appStep st (renameDevice path nextName st)
  | appSetSelection next st : appStep st (setSelection next st)
  | appToggle path st : appStep st (toggleSelection path st)
  | appSelectSingle path st : appStep st (selectSingle path st)
  | appHide ps st : appStep st (pruneSelectedFolders ps st)
  | appUnhide ps st : appStep st (unhideHiddenFolders ps st).

(** No two different paths of the list overlap. *)
Definition pairwiseDisjoint (l : list str) : Prop :=
  ∀ p q, p ∈ l → q ∈ l → p ≠ q → getPathRelation p q = disjoint.

(** The merged devices hold current devices only and are never empty: what
    the pruning effect establishes. *)
Definition mergedSettled (st : AppState) : Prop :=
  ∀ md, md ∈ mergedDevices st →
        MergedDevice.memberPaths md ≠ [] ∧
        ∀ p, p ∈ MergedDevice.memberPaths md → p ∈ devicePaths st.

(** What the builder keeps of the node store: the root is there, every
    node is stored under its path, the children of a node are stored and
    have longer keys, and every node but the root is a child. *)
Definition treeWellFormed (rootName : str) (m : gmap str FileTreeNode.t) : Prop :=
  is_Some (m !! rootName) ∧
  (∀ k n, m !! k = Some n → FileTreeNode.path n = k) ∧
  (∀ k n c, m !! k = Some n → c ∈ FileTreeNode.children n →
            is_Some (m !! c) ∧ length k < length c) ∧
  (∀ c, is_Some (m !! c) → c ≠ rootName →
        ∃ k n, m !! k = Some n ∧ c ∈ FileTreeNode.children n).

(** Two node stores with the same nodes, up to the order of the
    children. *)
Definition sameShape (m m' : gmap str FileTreeNode.t) : Prop :=
  ∀ k, match m !! k, m' !! k with
       | Some n, Some n' =>
           FileTreeNode.name n = FileTreeNode.name n' ∧
           FileTreeNode.path n = FileTreeNode.path n' ∧
           ∀ c, c ∈ FileTreeNode.children n ↔ c ∈ FileTreeNode.children n'
       | None, None => True
       | _, _ => False
       end.

(** The walk from [key] adds [x] within [fuel] levels. *)
Fixpoint visits (m : gmap str FileTreeNode.t) (fuel : nat) (key x : str) : Prop :=
  match fuel with
  | O => False
  | S fuel' =>
      ∃ n, m !! key = Some n ∧
           (x = FileTreeNode.path n ∨
            ∃ c, c ∈ FileTreeNode.children n ∧ visits m fuel' c x)
  end.

(** The children of the node stored under [k] are in ascending order of
    their names. *)
Definition childrenSorted `{Collator} (m : gmap str FileTreeNode.t) (k : str) : Prop :=
  match m !! k with
  | Some n =>
      StronglySorted
        (notAfter (fun a b => localeCompare (nodeName m a) (nodeName m b)))
        (FileTreeNode.children n)
  | None => True
  end.

(* ===================================================================== *)
(** * Properties *)
(* ===================================================================== *)

(** ** Sets in insertion order *)

Section SetLemmas.

Implicit Types (s l : list str) (x y : str).

Lemma elem_of_setAdd s x y : y ∈ setAdd s x ↔ y ∈ s ∨ y = x.
Proof.
  unfold setAdd. destruct (decide (x ∈ s)) as [Hin|Hout].
  - split; [auto|]. intros [?| ->]; done.
  - rewrite elem_of_app, list_elem_of_singleton. done.
Qed.

Lemma NoDup_setAdd s x : NoDup s → NoDup (setAdd s x).
Proof.
  intros Hs. unfold setAdd. destruct (decide (x ∈ s)); [done|].
  apply NoDup_app. split_and!; [done| |apply NoDup_singleton].
  intros y Hy Hyx. apply list_elem_of_singleton in Hyx. by subst.
Qed.

Lemma elem_of_foldl_setAdd l s y : y ∈ foldl setAdd s l ↔ y ∈ s ∨ y ∈ l.
Proof.
  revert s. induction l as [|x l IH]; intros s; simpl.
  - rewrite elem_of_nil. tauto.
  - rewrite IH, elem_of_setAdd, elem_of_cons. tauto.
Qed.

Lemma NoDup_foldl_setAdd l s : NoDup s → NoDup (foldl setAdd s l).
Proof.
  revert s. induction l as [|x l IH]; intros s Hs; simpl; [done|].
  by apply IH, NoDup_setAdd.
Qed.

Lemma elem_of_setFrom l y : y ∈ setFrom l ↔ y ∈ l.
Proof.
  unfold setFrom. rewrite elem_of_foldl_setAdd, elem_of_nil. tauto.
Qed.

Lemma NoDup_setFrom l : NoDup (setFrom l).
Proof. apply NoDup_foldl_setAdd, NoDup_nil_2. Qed.

Lemma foldl_setAdd_NoDup_id l s :
  NoDup l → (∀ x, x ∈ l → x ∉ s) → foldl setAdd s l = s ++ l.
Proof.
  revert s. induction l as [|x l IH]; intros s Hnd Hdisj; simpl.
  - by rewrite app_nil_r.
  - apply NoDup_cons in Hnd as [Hx Hnd].
    unfold setAdd at 2. destruct (decide (x ∈ s)) as [Hin|_].
    { exfalso. eapply Hdisj; [left|done]. }
    rewrite IH; [by rewrite <- app_assoc|done|].
    intros y Hy. rewrite elem_of_app, list_elem_of_singleton.
    intros [Hys| ->]; [|done]. eapply Hdisj; [by right|done].
Qed.

Lemma setFrom_NoDup_id l : NoDup l → setFrom l = l.
Proof.
  intros Hnd. unfold setFrom. rewrite foldl_setAdd_NoDup_id; [done..|].
  intros x _. apply not_elem_of_nil.
Qed.

Lemma setHas_true s x : setHas s x = true ↔ x ∈ s.
Proof. unfold setHas. apply bool_decide_eq_true. Qed.

Lemma setHas_false s x : setHas s x = false ↔ x ∉ s.
Proof. unfold setHas. apply bool_decide_eq_false. Qed.

End SetLemmas.

(** ** Sorting *)

Section SortLemmas.

Context {A : Type} (cmp : A → A → Z).

Lemma sortInsert_perm x l : sortInsert cmp x l ≡ₚ x :: l.
Proof.
  induction l as [|y l IH]; simpl; [done|].
  destruct (cmp x y <=? 0)%Z; [done|].
  rewrite IH. apply Permutation_swap.
Qed.

Lemma sortBy_perm l : sortBy cmp l ≡ₚ l.
Proof.
  induction l as [|x l IH]; simpl; [done|].
  change (sortInsert cmp x (sortBy cmp l) ≡ₚ x :: l).
  by rewrite sortInsert_perm, IH.
Qed.

Lemma elem_of_sortBy x l : x ∈ sortBy cmp l ↔ x ∈ l.
Proof. by rewrite sortBy_perm. Qed.

Lemma length_sortBy l : length (sortBy cmp l) = length l.
Proof. by rewrite sortBy_perm. Qed.

Lemma NoDup_sortBy l : NoDup l → NoDup (sortBy cmp l).
Proof. by rewrite sortBy_perm. Qed.

Lemma sortBy_nil_inv l : sortBy cmp l = [] → l = [].
Proof.
  intros H. apply length_zero_iff_nil. by rewrite <- length_sortBy, H.
Qed.

(** Sorting an array that is already in order leaves it as it is. *)
Lemma sortBy_sorted_id l : Sorted (notAfter cmp) l → sortBy cmp l = l.
Proof.
  induction 1 as [|x l Hl IH Hhd]; [done|].
  change (sortInsert cmp x (sortBy cmp l) = x :: l). rewrite IH.
  destruct Hhd as [|y l' Hxy]; [done|]. simpl.
  unfold notAfter in Hxy. by destruct (Z.leb_spec (cmp x y) 0); [|lia].
Qed.

Hypothesis cmp_total : ∀ a b, notAfter cmp a b ∨ notAfter cmp b a.

Lemma sortInsert_sorted x l : Sorted (notAfter cmp) l → Sorted (notAfter cmp) (sortInsert cmp x l).
Proof.
  induction 1 as [|y l Hl IH Hhd]; simpl.
  - by repeat constructor.
  - destruct (Z.leb_spec (cmp x y) 0) as [Hle|Hgt].
    + constructor; [by constructor|by constructor].
    + constructor; [done|].
      assert (notAfter cmp y x) as Hyx.
      { destruct (cmp_total x y) as [H|H]; [unfold notAfter in H; lia|done]. }
      destruct Hhd as [|z l' Hyz]; simpl; [by constructor|].
      destruct (cmp x z <=? 0)%Z; by constructor.
Qed.

Lemma sortBy_sorted l : Sorted (notAfter cmp) (sortBy cmp l).
Proof.
  induction l as [|x l IH]; [constructor|].
  by apply sortInsert_sorted.
Qed.

Hypothesis cmp_trans : ∀ a b c, notAfter cmp a b → notAfter cmp b c → notAfter cmp a c.

Lemma sortBy_strongly_sorted l : StronglySorted (notAfter cmp) (sortBy cmp l).
Proof.
  apply Sorted_StronglySorted; [|apply sortBy_sorted].
  intros a b c. apply cmp_trans.
Qed.

End SortLemmas.

Section CollatorLemmas.

Context {C : Collator} {CC : ConsistentCollator C}.

Lemma sortBy_ascending l : ascending (sortBy localeCompare l).
Proof.
  apply sortBy_strongly_sorted.
  - intros a b. apply collate_total.
  - intros a b c. apply collate_trans.
Qed.

Lemma ascending_sortBy_id l : ascending l → sortBy localeCompare l = l.
Proof. intros H. by apply sortBy_sorted_id, StronglySorted_Sorted. Qed.

End CollatorLemmas.

(** ** Path relation *)

Section RelationLemmas.

Implicit Types (a b : list str).

Lemma segmentsMismatch_true a b :
  segmentsMismatch a b = true ↔
  ∃ i x y, a !! i = Some x ∧ b !! i = Some y ∧ x ≠ y.
Proof.
  revert b. induction a as [|x a IH]; intros [|y b]; simpl.
  - split; [done|]. by intros (i & ? & ? & ? & _).
  - split; [done|]. by intros (i & ? & ? & ? & _).
  - split; [done|]. intros (i & ? & ? & _ & ? & _). by destruct i.
  - destruct (decide (x = y)) as [->|Hne].
    + rewrite IH. split.
      * intros (i & u & v & ? & ? & ?). by exists (S i), u, v.
      * intros ([|i] & u & v & Hu & Hv & Huv); simpl in *.
        { congruence. }
        by exists i, u, v.
    + split; [|done]. intros _. by exists 0, x, y.
Qed.

Lemma segmentsMismatch_false a b :
  segmentsMismatch a b = false ↔ a `prefix_of` b ∨ b `prefix_of` a.
Proof.
  revert b. induction a as [|x a IH]; intros [|y b]; simpl.
  - split; [|done]. intros _. by left.
  - split; [|done]. intros _. left. apply prefix_nil.
  - split; [|done]. intros _. right. apply prefix_nil.
  - destruct (decide (x = y)) as [->|Hne].
    + rewrite IH. split.
      * intros [H|H]; [left|right]; by apply prefix_cons.
      * intros [H|H]; [left|right]; by apply prefix_cons_inv_2 in H.
    + split; [done|]. intros [H|H]; apply prefix_cons_inv_1 in H; congruence.
Qed.

Lemma prefix_length_eq_inv a b : a `prefix_of` b → length a = length b → a = b.
Proof.
  intros [k ->] Hlen. rewrite length_app in Hlen.
  destruct k; [by rewrite app_nil_r|simpl in Hlen; lia].
Qed.

Lemma relateSegments_nonempty a b :
  a ≠ [] → b ≠ [] →
  relateSegments a b =
    if segmentsMismatch a b then disjoint
    else if length a =? length b then same
    else if length a <? length b then ancestor
    else descendant.
Proof. by destruct a, b. Qed.

Lemma relateSegments_same a b : relateSegments a b = same ↔ a ≠ [] ∧ a = b.
Proof.
  destruct a as [|x a]; [simpl; split; [done|by intros [? _]]|].
  destruct b as [|y b]; [simpl; split; [done|by intros [_ ?]]|].
  rewrite relateSegments_nonempty by done.
  destruct (segmentsMismatch (x :: a) (y :: b)) eqn:Hm.
  - split; [done|]. intros [_ Heq]. rewrite Heq in Hm.
    assert (segmentsMismatch (y :: b) (y :: b) = false) as Hf
      by (apply segmentsMismatch_false; by left).
    congruence.
  - apply segmentsMismatch_false in Hm.
    destruct (Nat.eqb_spec (length (x :: a)) (length (y :: b))) as [Hlen|Hlen].
    + split; [|done]. intros _. split; [done|].
      destruct Hm as [H|H]; [|symmetry]; apply prefix_length_eq_inv; done.
    + split.
      * by destruct (length (x :: a) <? length (y :: b)).
      * intros [_ Heq]. by rewrite Heq in Hlen.
Qed.

Lemma relateSegments_ancestor a b :
  relateSegments a b = ancestor ↔ a ≠ [] ∧ a `prefix_of` b ∧ a ≠ b.
Proof.
  destruct a as [|x a]; [simpl; split; [done|by intros [? _]]|].
  destruct b as [|y b].
  { simpl. split; [done|]. intros (_ & H & _). by apply prefix_nil_inv in H. }
  rewrite relateSegments_nonempty by done.
  destruct (segmentsMismatch (x :: a) (y :: b)) eqn:Hm.
  - split; [done|]. intros (_ & Hp & _).
    assert (segmentsMismatch (x :: a) (y :: b) = false) as Hf
      by (apply segmentsMismatch_false; by left).
    congruence.
  - apply segmentsMismatch_false in Hm.
    destruct (Nat.eqb_spec (length (x :: a)) (length (y :: b))) as [Hlen|Hlen].
    + split; [done|]. intros (_ & Hp & Hne).
      by apply prefix_length_eq_inv in Hp.
    + destruct (Nat.ltb_spec (length (x :: a)) (length (y :: b))) as [Hlt|Hge].
      * split; [|done]. intros _. split_and!; [done| |congruence].
        destruct Hm as [H|H]; [done|].
        apply prefix_length in H. lia.
      * split; [done|]. intros (_ & Hp & _). apply prefix_length in Hp. lia.
Qed.

Lemma relateSegments_descendant a b :
  relateSegments a b = descendant ↔ b ≠ [] ∧ b `prefix_of` a ∧ a ≠ b.
Proof.
  destruct a as [|x a].
  { simpl. split; [done|]. intros (? & H & ?). by apply prefix_nil_inv in H. }
  destruct b as [|y b]; [simpl; split; [done|by intros [? _]]|].
  rewrite relateSegments_nonempty by done.
  destruct (segmentsMismatch (x :: a) (y :: b)) eqn:Hm.
  - split; [done|]. intros (_ & Hp & _).
    assert (segmentsMismatch (x :: a) (y :: b) = false) as Hf
      by (apply segmentsMismatch_false; by right).
    congruence.
  - apply segmentsMismatch_false in Hm.
    destruct (Nat.eqb_spec (length (x :: a)) (length (y :: b))) as [Hlen|Hlen].
    + split; [done|]. intros (_ & Hp & Hne).
      apply prefix_length_eq_inv in Hp; [congruence|done].
    + destruct (Nat.ltb_spec (length (x :: a)) (length (y :: b))) as [Hlt|Hge].
      * split; [done|]. intros (_ & Hp & _). apply prefix_length in Hp. lia.
      * split; [|done]. intros _. split_and!; [done| |congruence].
        destruct Hm as [H|H]; [|done].
        apply prefix_length in H. lia.
Qed.

Lemma relateSegments_disjoint a b :
  relateSegments a b = disjoint ↔
  a = [] ∨ b = [] ∨ ∃ i x y, a !! i = Some x ∧ b !! i = Some y ∧ x ≠ y.
Proof.
  rewrite <- segmentsMismatch_true.
  destruct a as [|x a]; [simpl; split; [by left|done]|].
  destruct b as [|y b]; [simpl; split; [by right; left|done]|].
  rewrite relateSegments_nonempty by done.
  destruct (segmentsMismatch (x :: a) (y :: b)) eqn:Hm.
  - split; [by right; right|done].
  - split; [|by intros [?|[?|?]]].
    destruct (length (x :: a) =? length (y :: b)); [done|].
    by destruct (length (x :: a) <? length (y :: b)).
Qed.

(** Swapping the arguments swaps ancestor and descendant. *)
Lemma relateSegments_flip a b :
  relateSegments a b = ancestor ↔ relateSegments b a = descendant.
Proof.
  rewrite relateSegments_ancestor, relateSegments_descendant.
  split; intros (?&?&?); split_and!; done.
Qed.

Lemma relateSegments_refl a : relateSegments a a = same ∨ relateSegments a a = disjoint.
Proof.
  destruct a as [|x a]; [by right|]. left. by apply relateSegments_same.
Qed.

End RelationLemmas.

Lemma getPathRelation_flip (a b : str) :
  getPathRelation a b = ancestor ↔ getPathRelation b a = descendant.
Proof. apply relateSegments_flip. Qed.

Lemma getPathRelation_self (a : str) :
  getPathRelation a a = same ∨ getPathRelation a a = disjoint.
Proof. apply relateSegments_refl. Qed.

(** A device qualifies as owner exactly when its comparable segments are a
    non-empty prefix of the point's. *)
Lemma qualifies_prefix (d p : str) :
  qualifies d p = true ↔
  toComparableSegments d ≠ [] ∧
  toComparableSegments d `prefix_of` toComparableSegments p.
Proof.
  unfold qualifies, getPathRelation.
  destruct (relateSegments _ _) eqn:Hrel.
  - apply relateSegments_same in Hrel as [Hne Heq]. rewrite <- Heq. done.
  - apply relateSegments_ancestor in Hrel as (?&?&?). done.
  - split; [done|]. intros [Hne Hp].
    apply relateSegments_descendant in Hrel as (Hne' & Hp' & Hneq).
    destruct Hneq. apply prefix_length_eq_inv; [done|].
    apply prefix_length in Hp, Hp'. lia.
  - split; [done|]. intros [Hne Hp].
    apply relateSegments_disjoint in Hrel as [H|[H|(i & x & y & Hx & Hy & Hxy)]].
    + done.
    + rewrite H in Hp. by apply prefix_nil_inv in Hp.
    + destruct Hp as [k Hk]. rewrite Hk in Hy.
      rewrite (lookup_app_l_Some _ _ _ _ Hx) in Hy. congruence.
Qed.

(** C3. [getPathRelation] is a total function of its two strings (every
    step of it is defined on every string, so it never throws), and on the
    comparable segments of [a] and [b] (normalized, split, trimmed, root
    stripped): an empty list on either side gives [disjoint]; a mismatch at
    a common index gives [disjoint]; equal lists give [same]; [a]'s list a
    strict prefix of [b]'s gives [ancestor], and the converse
    [descendant]. One of these cases always applies. *)
Theorem getPathRelation_cases (a b : str) :
  let aSegs := toComparableSegments a in
  let bSegs := toComparableSegments b in
  (aSegs = [] ∨ bSegs = [] → getPathRelation a b = disjoint) ∧
  (aSegs ≠ [] → bSegs ≠ [] →
   (∃ i x y, i < length aSegs `min` length bSegs ∧
             aSegs !! i = Some x ∧ bSegs !! i = Some y ∧ x ≠ y) →
   getPathRelation a b = disjoint) ∧
  (aSegs ≠ [] → bSegs ≠ [] → aSegs = bSegs → getPathRelation a b = same) ∧
  (aSegs ≠ [] → bSegs ≠ [] → aSegs `prefix_of` bSegs → aSegs ≠ bSegs →
   getPathRelation a b = ancestor) ∧
  (aSegs ≠ [] → bSegs ≠ [] → bSegs `prefix_of` aSegs → aSegs ≠ bSegs →
   getPathRelation a b = descendant) ∧
  (aSegs = [] ∨ bSegs = [] ∨
   (∃ i x y, i < length aSegs `min` length bSegs ∧
             aSegs !! i = Some x ∧ bSegs !! i = Some y ∧ x ≠ y) ∨
   aSegs = bSegs ∨
   (aSegs `prefix_of` bSegs ∧ aSegs ≠ bSegs) ∨
   (bSegs `prefix_of` aSegs ∧ aSegs ≠ bSegs)).
Proof.
  intros aSegs bSegs. unfold getPathRelation. fold aSegs bSegs.
  split_and!.
  - intros H. apply relateSegments_disjoint. tauto.
  - intros _ _ (i & x & y & _ & Hx & Hy & Hxy).
    apply relateSegments_disjoint. right; right. by exists i, x, y.
  - intros Ha _ Heq. by apply relateSegments_same.
  - intros Ha _ Hp Hne. by apply relateSegments_ancestor.
  - intros _ Hb Hp Hne. by apply relateSegments_descendant.
  - destruct (relateSegments aSegs bSegs) eqn:Hrel.
    + apply relateSegments_same in Hrel as [_ ?]. tauto.
    + apply relateSegments_ancestor in Hrel as (_ & ? & ?). tauto.
    + apply relateSegments_descendant in Hrel as (_ & ? & ?). tauto.
    + apply relateSegments_disjoint in Hrel as [?|[?|(i & x & y & Hx & Hy & Hxy)]];
        [tauto..|].
      right; right; left. exists i, x, y. split_and!; [|done..].
      apply lookup_lt_Some in Hx, Hy. lia.
Qed.

(** ** Ownership resolver *)

Lemma qualifies_relation (d p : str) :
  qualifies d p = true ↔ getPathRelation d p = ancestor ∨ getPathRelation d p = same.
Proof.
  unfold qualifies. destruct (getPathRelation d p); split; try done; auto.
  all: by intros [?|?].
Qed.

(** A qualifying candidate replaces the current best only when it is
    strictly deeper. *)
Lemma ownerStep_some (p b d : str) (n : nat) :
  ownerStep p (Some (b, n)) d =
    if qualifies d p && (n <? rawDepth d) then Some (d, rawDepth d) else Some (b, n).
Proof.
  unfold ownerStep. destruct (qualifies d p); simpl; [|done].
  by destruct (n <? rawDepth d).
Qed.

Lemma ownerStep_none (p d : str) :
  ownerStep p None d = if qualifies d p then Some (d, rawDepth d) else None.
Proof. unfold ownerStep. by destruct (qualifies d p). Qed.

Lemma ownerLoop_firstDeepest (p : str) (ds : list str) :
  firstDeepest p ds (foldl (ownerStep p) None ds).
Proof.
  induction ds as [|x ds IH] using rev_ind.
  - simpl. intros d Hd. by apply elem_of_nil in Hd.
  - rewrite foldl_app. simpl.
    destruct (foldl (ownerStep p) None ds) as [[b n]|]; simpl in IH.
    + destruct IH as (-> & i & Hi & Hq & Hmax).
      rewrite ownerStep_some.
      destruct (qualifies x p) eqn:Hx; simpl.
      * destruct (Nat.ltb_spec (rawDepth b) (rawDepth x)) as [Hlt|Hge].
        -- split; [done|]. exists (length ds). split_and!.
           ++ by rewrite lookup_app_r, Nat.sub_diag.
           ++ done.
           ++ intros j d' Hj Hd'.
              destruct (decide (j < length ds)) as [Hjl|Hjl].
              ** rewrite lookup_app_l in Hj by done.
                 destruct (Hmax j d' Hj Hd') as [Hle _]. lia.
              ** rewrite lookup_app_r in Hj by lia.
                 destruct (j - length ds) eqn:E; simpl in Hj; [|done].
                 injection Hj as <-. split; [done|lia].
        -- split; [done|]. exists i. split_and!.
           ++ by apply lookup_app_l_Some.
           ++ done.
           ++ intros j d' Hj Hd'.
              destruct (decide (j < length ds)) as [Hjl|Hjl].
              ** rewrite lookup_app_l in Hj by done. by apply Hmax.
              ** rewrite lookup_app_r in Hj by lia.
                 destruct (j - length ds) eqn:E; simpl in Hj; [|done].
                 injection Hj as <-. split; [done|].
                 apply lookup_lt_Some in Hi. lia.
      * split; [done|]. exists i. split_and!.
        -- by apply lookup_app_l_Some.
        -- done.
        -- intros j d' Hj Hd'.
           destruct (decide (j < length ds)) as [Hjl|Hjl].
           ** rewrite lookup_app_l in Hj by done. by apply Hmax.
           ** rewrite lookup_app_r in Hj by lia.
              destruct (j - length ds) eqn:E; simpl in Hj; [|done].
              injection Hj as <-. congruence.
    + rewrite ownerStep_none. destruct (qualifies x p) eqn:Hx; simpl.
      * split; [done|]. exists (length ds). split_and!.
        -- by rewrite lookup_app_r, Nat.sub_diag.
        -- done.
        -- intros j d' Hj Hd'.
           destruct (decide (j < length ds)) as [Hjl|Hjl].
           ** rewrite lookup_app_l in Hj by done.
              apply list_elem_of_lookup_2, IH in Hj. congruence.
           ** rewrite lookup_app_r in Hj by lia.
              destruct (j - length ds) eqn:E; simpl in Hj; [|done].
              injection Hj as <-. split; [done|lia].
      * intros d Hd. apply elem_of_app in Hd as [Hd|Hd]; [by apply IH|].
        apply list_elem_of_singleton in Hd. by subst.
Qed.

Lemma computeOwnerDevice_none (p : str) (ds : list str) :
  computeOwnerDevice p ds = None ↔ ∀ d, d ∈ ds → qualifies d p = false.
Proof.
  unfold computeOwnerDevice. pose proof (ownerLoop_firstDeepest p ds) as H.
  destruct (foldl (ownerStep p) None ds) as [[b n]|]; simpl in *.
  - split; [done|]. intros Hall. destruct H as (_ & i & Hi & Hq & _).
    apply list_elem_of_lookup_2, Hall in Hi. congruence.
  - done.
Qed.

Lemma computeOwnerDevice_some (p d : str) (ds : list str) :
  computeOwnerDevice p ds = Some d →
  ∃ i, ds !! i = Some d ∧ qualifies d p = true ∧
       ∀ j d', ds !! j = Some d' → qualifies d' p = true →
               rawDepth d' ≤ rawDepth d ∧ (j < i → rawDepth d' < rawDepth d).
Proof.
  unfold computeOwnerDevice. pose proof (ownerLoop_firstDeepest p ds) as H.
  destruct (foldl (ownerStep p) None ds) as [[b n]|]; simpl in *; [|done].
  intros [= <-]. by destruct H as (-> & H).
Qed.

(** Two devices that qualify for the same point overlap: their relation
    is never [disjoint]. *)
Lemma qualifying_overlap (p d1 d2 : str) :
  qualifies d1 p = true → qualifies d2 p = true →
  getPathRelation d1 d2 ≠ disjoint.
Proof.
  rewrite !qualifies_prefix. intros [Hn1 H1] [Hn2 H2] Hrel.
  apply relateSegments_disjoint in Hrel as [?|[?|(i & x & y & Hx & Hy & Hxy)]];
    [done..|].
  destruct H1 as [k1 Hk1], H2 as [k2 Hk2].
  pose proof (lookup_app_l_Some _ k1 _ _ Hx) as Hx'.
  pose proof (lookup_app_l_Some _ k2 _ _ Hy) as Hy'.
  rewrite <- Hk1 in Hx'. rewrite <- Hk2 in Hy'. congruence.
Qed.

(** C2 (as the code has it). A device is a candidate exactly when its
    relation to the point is [ancestor] or [same]; the result is none
    exactly when no device of the list qualifies; a returned device is in
    the list, qualifies, and no qualifying device of the list has a greater
    depth, where the depth is the number of non-empty pieces of the raw
    device path between slashes. Nothing is assumed of the device list. *)
Theorem computeOwnerDevice_deepest_raw (pointPath : str) (devices : list str) :
  (∀ d, qualifies d pointPath = true ↔
        getPathRelation d pointPath = ancestor ∨ getPathRelation d pointPath = same) ∧
  (computeOwnerDevice pointPath devices = None ↔
   ∀ d, d ∈ devices → qualifies d pointPath = false) ∧
  (∀ d, computeOwnerDevice pointPath devices = Some d →
        d ∈ devices ∧ qualifies d pointPath = true ∧
        ∀ d', d' ∈ devices → qualifies d' pointPath = true →
              rawDepth d' ≤ rawDepth d).
Proof.
  split_and!.
  - intros d. apply qualifies_relation.
  - apply computeOwnerDevice_none.
  - intros d Hd. apply computeOwnerDevice_some in Hd as (i & Hi & Hq & Hmax).
    split_and!; [by eapply list_elem_of_lookup_2|done|].
    intros d' Hd' Hq'. apply list_elem_of_lookup_1 in Hd' as [j Hj].
    by destruct (Hmax j d' Hj Hq').
Qed.

(** C2 fails with the depth taken after stripping the root segment: for
    the point root/a/b/c and the devices root/a and a/b (both qualify),
    the resolver answers root/a although a/b is deeper. *)
Lemma computeOwnerDevice_not_deepest_stripped :
  ¬ (∀ (pointPath : str) (devices : list str) (d : str),
       computeOwnerDevice pointPath devices = Some d →
       ∀ d', d' ∈ devices → qualifies d' pointPath = true →
             folderSegmentDepth d' ≤ folderSegmentDepth d).
Proof.
  intros H.
  specialize (H (lit "root/a/b/c") [lit "root/a"; lit "a/b"] (lit "root/a")
                eq_refl (lit "a/b")).
  assert (lit "a/b" ∈ [lit "root/a"; lit "a/b"]) as Hin by (right; left).
  specialize (H Hin eq_refl). vm_compute in H. lia.
Qed.

(** Where every device path is written canonically (its raw depth is one
    more than its stripped depth, as for the paths of tree nodes), the
    answer is also the deepest in the stripped sense. *)
Lemma computeOwnerDevice_canonical (pointPath d : str) (devices : list str) :
  (∀ x, x ∈ devices → rawDepth x = S (folderSegmentDepth x)) →
  computeOwnerDevice pointPath devices = Some d →
  ∀ d', d' ∈ devices → qualifies d' pointPath = true →
        folderSegmentDepth d' ≤ folderSegmentDepth d.
Proof.
  intros Hcanon Hd d' Hd' Hq.
  apply computeOwnerDevice_some in Hd as (i & Hi & _ & Hmax).
  apply list_elem_of_lookup_1 in Hd' as Hj. destruct Hj as [j Hj].
  destruct (Hmax j d' Hj Hq) as [Hle _].
  apply list_elem_of_lookup_2 in Hi.
  rewrite (Hcanon d Hi), (Hcanon d' Hd') in Hle. lia.
Qed.


(** ** Conflict planner: the selection against itself *)

Lemma isAncestorOfAnotherSelected_true (sel : list str) (c : str) :
  isAncestorOfAnotherSelected sel c = true ↔
  ∃ other, other ∈ sel ∧ other ≠ c ∧ getPathRelation c other = ancestor.
Proof.
  unfold isAncestorOfAnotherSelected. rewrite existsb_exists. split.
  - intros (other & Hin & H). exists other.
    destruct (decide (c = other)); [done|].
    apply bool_decide_eq_true in H. by rewrite list_elem_of_In.
  - intros (other & Hin & Hne & H). exists other.
    rewrite <- list_elem_of_In. split; [done|].
    destruct (decide (c = other)); [by subst|]. by apply bool_decide_eq_true.
Qed.

Lemma elem_of_selectionDropped (sel : list str) (c : str) :
  c ∈ selectionDropped sel ↔
  c ∈ sel ∧ ∃ other, other ∈ sel ∧ other ≠ c ∧ getPathRelation c other = ancestor.
Proof.
  unfold selectionDropped.
  by rewrite list_elem_of_filter, isAncestorOfAnotherSelected_true, (comm and).
Qed.

Lemma elem_of_selectionToAdd (sel : list str) (c : str) :
  c ∈ selectionToAdd sel ↔
  c ∈ sel ∧ ¬ ∃ other, other ∈ sel ∧ other ≠ c ∧ getPathRelation c other = ancestor.
Proof.
  unfold selectionToAdd.
  rewrite list_elem_of_filter, <- isAncestorOfAnotherSelected_true, (comm and).
  by rewrite not_true_iff_false.
Qed.

(** C4. For every candidate selection (deduplicated or not, the planner
    deduplicates it first), a candidate is dropped exactly when it is a
    strict ancestor of another candidate, it is kept to add exactly when
    it is not, every candidate lands in exactly one of the two lists, and
    the staged plan carries the two lists in separate fields. Selecting
    root/X and root/X/Y keeps root/X/Y and drops root/X. *)
Theorem selection_self_overlap `{Collator} (st : AppState) :
  let selectionUnique := setFrom (selectedPaths st) in
  (∀ c, c ∈ selectionUnique ↔ c ∈ selectedPaths st) ∧
  (∀ c, c ∈ selectionDropped selectionUnique ↔
        c ∈ selectionUnique ∧
        ∃ other, other ∈ selectionUnique ∧ other ≠ c ∧
                 getPathRelation c other = ancestor) ∧
  (∀ c, c ∈ selectionToAdd selectionUnique ↔
        c ∈ selectionUnique ∧
        ¬ ∃ other, other ∈ selectionUnique ∧ other ≠ c ∧
                   getPathRelation c other = ancestor) ∧
  (∀ c, c ∈ selectionUnique →
        (c ∈ selectionDropped selectionUnique ∧ c ∉ selectionToAdd selectionUnique) ∨
        (c ∈ selectionToAdd selectionUnique ∧ c ∉ selectionDropped selectionUnique)) ∧
  (∀ c, c ∈ PendingDeviceConflict.droppedFromSelection (planConflict st) ↔
        c ∈ selectionDropped selectionUnique) ∧
  (∀ c, c ∈ PendingDeviceConflict.toAdd (planConflict st) ↔
        c ∈ selectionToAdd selectionUnique) ∧
  selectionToAdd (setFrom [lit "root/X"; lit "root/X/Y"]) = [lit "root/X/Y"] ∧
  selectionDropped (setFrom [lit "root/X"; lit "root/X/Y"]) = [lit "root/X"].
Proof.
  intros sel. split_and!; try done.
  - intros c. apply elem_of_setFrom.
  - intros c. apply elem_of_selectionDropped.
  - intros c. apply elem_of_selectionToAdd.
  - intros c Hc.
    rewrite elem_of_selectionDropped, elem_of_selectionToAdd.
    destruct (isAncestorOfAnotherSelected sel c) eqn:E.
    + apply isAncestorOfAnotherSelected_true in E. left. tauto.
    + right. assert (¬ ∃ other, other ∈ sel ∧ other ≠ c ∧
                       getPathRelation c other = ancestor) as Hn.
      { rewrite <- isAncestorOfAnotherSelected_true. congruence. }
      tauto.
  - intros c. unfold planConflict. simpl. apply elem_of_sortBy.
  - intros c. unfold planConflict. simpl. apply elem_of_sortBy.
Qed.

(** ** Trimming *)

Section TrimLemmas.

Implicit Types (s : str).

Lemma trimStart_length s : length (trimStart s) ≤ length s.
Proof.
  induction s as [|c s IH]; simpl; [done|].
  destruct (isWhiteSpace c); simpl; lia.
Qed.

Lemma trimStart_fixed s c : trimStart (c :: s) = c :: s → isWhiteSpace c = false.
Proof.
  simpl. destruct (isWhiteSpace c); [|done].
  intros H. pose proof (trimStart_length s) as Hlen.
  rewrite H in Hlen. simpl in Hlen. lia.
Qed.

Lemma trimStart_idemp s : trimStart (trimStart s) = trimStart s.
Proof.
  induction s as [|c s IH]; simpl; [done|].
  destruct (isWhiteSpace c) eqn:E; [done|]. simpl. by rewrite E.
Qed.

(** [trimStart] removes a prefix. *)
Lemma trimStart_suffix s : trimStart s `suffix_of` s.
Proof.
  induction s as [|c s IH]; simpl; [done|].
  destruct (isWhiteSpace c); [|done]. by apply suffix_cons_r.
Qed.

Lemma trimEnd_prefix s : trimEnd s `prefix_of` s.
Proof.
  unfold trimEnd. destruct (trimStart_suffix (rev s)) as [k Hk].
  exists (rev k). apply (f_equal (@rev N)) in Hk.
  by rewrite rev_involutive, rev_app_distr in Hk.
Qed.

Lemma trimStart_trimEnd s : trimStart s = s → trimStart (trimEnd s) = trimEnd s.
Proof.
  intros Hs. destruct (trimEnd_prefix s) as [k Hk].
  destruct (trimEnd s) as [|c t]; [done|].
  rewrite Hk in Hs. simpl in Hs |- *.
  apply (trimStart_fixed (t ++ k) c) in Hs. by rewrite Hs.
Qed.

Lemma trim_idemp s : trim (trim s) = trim s.
Proof.
  unfold trim.
  rewrite (trimStart_trimEnd (trimStart s)) by apply trimStart_idemp.
  unfold trimEnd. by rewrite rev_involutive, trimStart_idemp.
Qed.

End TrimLemmas.

(** ** The concrete collation is consistent *)

Lemma codeUnitCompare_total (a b : str) :
  (codeUnitCompare a b <= 0)%Z ∨ (codeUnitCompare b a <= 0)%Z.
Proof.
  revert b. induction a as [|x a IH]; intros [|y b]; simpl; try (left; lia).
  - right; lia.
  - rewrite (N.compare_antisym x y).
    destruct (x ?= y)%N; simpl; [apply IH|left; lia|right; lia].
Qed.

Lemma codeUnitCompare_trans (a b c : str) :
  (codeUnitCompare a b <= 0)%Z → (codeUnitCompare b c <= 0)%Z →
  (codeUnitCompare a c <= 0)%Z.
Proof.
  revert b c. induction a as [|x a IH]; intros [|y b] [|z c]; simpl; try lia.
  destruct (N.compare_spec x y) as [->|Hxy|Hxy]; [| |lia].
  - destruct (z ?= y)%N eqn:E; destruct (y ?= z)%N eqn:E'; try lia.
    all: try (rewrite N.compare_antisym, E in E'; simpl in E'; congruence).
    apply IH.
  - intros _. destruct (N.compare_spec y z) as [->|Hyz|Hyz]; [| |lia].
    + intros _. apply N.compare_lt_iff in Hxy. rewrite Hxy. lia.
    + intros _. assert (x < z)%N as H by lia.
      apply N.compare_lt_iff in H. rewrite H. lia.
Qed.

#[global] Instance codeUnitCollator_consistent : ConsistentCollator codeUnitCollator.
Proof.
  split.
  - apply codeUnitCompare_total.
  - apply codeUnitCompare_trans.
Qed.

(** ** Hidden-folder normalizer *)

Lemma filter_all {A} (P : A → Prop) {Pdec : ∀ x, Decision (P x)} (l : list A) :
  (∀ x, x ∈ l → P x) → filter P l = l.
Proof.
  induction l as [|x l IH]; intros H; [done|].
  rewrite filter_cons_True by (apply H; left).
  f_equal. apply IH. intros y Hy. apply H. by right.
Qed.

Lemma map_fixed {A} (f : A → A) (l : list A) :
  (∀ x, x ∈ l → f x = x) → map f l = l.
Proof.
  induction l as [|x l IH]; intros H; simpl; [done|].
  rewrite H by left. f_equal. apply IH. intros y Hy. apply H. by right.
Qed.

Lemma truthy_true (s : str) : truthy s = true ↔ s ≠ [].
Proof. by destruct s. Qed.

Lemma coveredByOther_true (candidates : list str) (p : str) :
  coveredByOther candidates p = true ↔
  ∃ other, other ∈ candidates ∧ other ≠ p ∧
           (getPathRelation other p = ancestor ∨ getPathRelation other p = same).
Proof.
  unfold coveredByOther. rewrite existsb_exists. split.
  - intros (other & Hin & H). exists other. rewrite list_elem_of_In.
    destruct (decide (p = other)); [done|].
    split_and!; [done|congruence|].
    destruct (getPathRelation other p); auto; done.
  - intros (other & Hin & Hne & H). exists other. rewrite <- list_elem_of_In.
    split; [done|]. destruct (decide (p = other)); [by subst|].
    by destruct H as [-> | ->].
Qed.

Lemma coveredByOther_false (candidates : list str) (p : str) :
  coveredByOther candidates p = false ↔
  ¬ ∃ other, other ∈ candidates ∧ other ≠ p ∧
             (getPathRelation other p = ancestor ∨ getPathRelation other p = same).
Proof. by rewrite <- coveredByOther_true, not_true_iff_false. Qed.

Lemma elem_of_hiddenCandidates (tree : gset str) (incoming : list str) (p : str) :
  p ∈ hiddenCandidates tree incoming ↔
  (∃ q, q ∈ incoming ∧ p = trim q) ∧ p ≠ [] ∧ p ≠ lit "root" ∧
  (tree = ∅ ∨ p ∈ tree).
Proof.
  unfold hiddenCandidates.
  rewrite !list_elem_of_filter, elem_of_setFrom, list_elem_of_filter, truthy_true.
  rewrite list_elem_of_In, in_map_iff.
  assert ((if (size tree =? 0)%nat then true else bool_decide (p ∈ tree)) = true
          ↔ tree = ∅ ∨ p ∈ tree) as ->.
  { destruct (Nat.eqb_spec (size tree) 0) as [H0|H0].
    - apply size_empty_iff in H0. split; [|done]. intros _. left.
      by apply leibniz_equiv.
    - rewrite bool_decide_eq_true. split; [by right|]. intros [->|?]; [|done].
      by rewrite size_empty in H0. }
  split.
  - intros (? & ? & ? & q & <- & Hq). split_and!; try done.
    exists q. by rewrite list_elem_of_In.
  - intros ((q & Hq & ->) & ? & ? & ?). split_and!; try done.
    exists q. by rewrite <- list_elem_of_In.
Qed.

Lemma NoDup_hiddenCandidates (tree : gset str) (incoming : list str) :
  NoDup (hiddenCandidates tree incoming).
Proof. unfold hiddenCandidates. apply NoDup_filter, NoDup_filter, NoDup_setFrom. Qed.

Section HiddenNormalizer.

Context {C : Collator} {CC : ConsistentCollator C}.

Lemma elem_of_normalizeHiddenFolderPaths (tree : gset str) (incoming : list str) (p : str) :
  p ∈ normalizeHiddenFolderPaths tree incoming ↔
  p ∈ hiddenCandidates tree incoming ∧
  ¬ ∃ other, other ∈ hiddenCandidates tree incoming ∧ other ≠ p ∧
             (getPathRelation other p = ancestor ∨ getPathRelation other p = same).
Proof.
  unfold normalizeHiddenFolderPaths.
  rewrite elem_of_sortBy, list_elem_of_filter, coveredByOther_false, elem_of_sortBy.
  rewrite (comm and). apply and_iff_compat_l, not_iff_compat.
  split; intros (o & Ho & H); exists o; split; try done.
  - by apply elem_of_sortBy in Ho.
  - by apply elem_of_sortBy.
Qed.

Lemma hiddenCandidates_fixed (tree : gset str) (incoming : list str) :
  let out := normalizeHiddenFolderPaths tree incoming in
  hiddenCandidates tree out = out.
Proof.
  intros out.
  assert (∀ p, p ∈ out → p ∈ hiddenCandidates tree incoming) as Hsub.
  { intros p Hp. by apply elem_of_normalizeHiddenFolderPaths in Hp as [? _]. }
  assert (NoDup out) as Hnd.
  { unfold out, normalizeHiddenFolderPaths.
    apply NoDup_sortBy, NoDup_filter, NoDup_sortBy, NoDup_hiddenCandidates. }
  unfold hiddenCandidates.
  rewrite map_fixed.
  2:{ intros p Hp. apply Hsub, elem_of_hiddenCandidates in Hp as ((q & _ & ->) & _).
      apply trim_idemp. }
  rewrite (filter_all (fun p => truthy p = true)).
  2:{ intros p Hp. apply Hsub, elem_of_hiddenCandidates in Hp as (_ & ? & _).
      by apply truthy_true. }
  rewrite setFrom_NoDup_id by done.
  rewrite (filter_all (fun p => p ≠ lit "root")).
  2:{ intros p Hp. by apply Hsub, elem_of_hiddenCandidates in Hp as (_ & _ & ? & _). }
  apply filter_all. intros p Hp.
  apply Hsub in Hp. unfold hiddenCandidates in Hp.
  by apply list_elem_of_filter in Hp as [? _].
Qed.

Lemma normalizeHiddenFolderPaths_idemp (tree : gset str) (incoming : list str) :
  let out := normalizeHiddenFolderPaths tree incoming in
  normalizeHiddenFolderPaths tree out = out.
Proof.
  intros out.
  assert (ascending out) as Hasc by apply sortBy_ascending.
  pose proof (hiddenCandidates_fixed tree incoming) as Hfix.
  cbv zeta in Hfix. fold out in Hfix.
  unfold normalizeHiddenFolderPaths at 1. rewrite Hfix.
  rewrite (ascending_sortBy_id out) by done.
  rewrite filter_all; [by apply ascending_sortBy_id|].
  intros p Hp. apply coveredByOther_false. intros (o & Ho & Hne & Hrel).
  apply elem_of_normalizeHiddenFolderPaths in Hp as [_ Hp].
  apply elem_of_normalizeHiddenFolderPaths in Ho as [Ho _].
  apply Hp. by exists o.
Qed.

(** C8 (as the code has it). The candidates are the trimmed, non-empty,
    deduplicated inputs other than the root path that belong to the folder
    tree, or all of them when the tree set is empty; the result holds
    exactly the candidates that no other candidate covers (is the same
    folder as, or an ancestor of), has no duplicates and is sorted
    ascending. Normalizing the result again gives the result, and two
    different paths of the result are always [disjoint]. *)
Theorem normalizeHiddenFolderPaths_minimal (tree : gset str) (incoming : list str) :
  let candidates := hiddenCandidates tree incoming in
  let out := normalizeHiddenFolderPaths tree incoming in
  (∀ p, p ∈ candidates ↔
        (∃ q, q ∈ incoming ∧ p = trim q) ∧ p ≠ [] ∧ p ≠ lit "root" ∧
        (tree = ∅ ∨ p ∈ tree)) ∧
  NoDup candidates ∧
  (∀ p, p ∈ out ↔
        p ∈ candidates ∧
        ¬ ∃ other, other ∈ candidates ∧ other ≠ p ∧
                   (getPathRelation other p = ancestor ∨
                    getPathRelation other p = same)) ∧
  NoDup out ∧
  ascending out ∧
  normalizeHiddenFolderPaths tree out = out ∧
  (∀ p q, p ∈ out → q ∈ out → p ≠ q → getPathRelation p q = disjoint).
Proof.
  intros candidates out. split_and!.
  - intros p. apply elem_of_hiddenCandidates.
  - apply NoDup_hiddenCandidates.
  - intros p. apply elem_of_normalizeHiddenFolderPaths.
  - apply NoDup_sortBy, NoDup_filter, NoDup_sortBy, NoDup_hiddenCandidates.
  - apply sortBy_ascending.
  - apply normalizeHiddenFolderPaths_idemp.
  - intros p q Hp Hq Hne.
    apply elem_of_normalizeHiddenFolderPaths in Hp as [Hpc Hp].
    apply elem_of_normalizeHiddenFolderPaths in Hq as [Hqc Hq].
    destruct (getPathRelation p q) eqn:Hrel; [| | |done].
    + destruct Hq. exists p. auto.
    + destruct Hq. exists p. auto.
    + apply getPathRelation_flip in Hrel. destruct Hp. exists q. auto.
Qed.

End HiddenNormalizer.

(** C8 fails where there is no folder tree (the tree set is empty): the
    path root/a is kept although the tree does not contain it, whatever
    the collation. *)
Lemma normalizeHiddenFolderPaths_keeps_without_tree :
  ¬ (∃ C : Collator,
       ∀ (tree : gset str) (incoming : list str) (p : str),
         p ∈ normalizeHiddenFolderPaths tree incoming → p ∈ tree).
Proof.
  intros [C H]. specialize (H ∅ [lit "root/a"] (lit "root/a")).
  assert (lit "root/a" ∈ normalizeHiddenFolderPaths ∅ [lit "root/a"]) as Hin
    by (vm_compute; left).
  apply H in Hin. by apply not_elem_of_empty in Hin.
Qed.

Lemma normalizeHiddenFolderPaths_minimal_witness :
  normalizeHiddenFolderPaths {[lit "root"; lit "root/A"; lit "root/A/B"]}
    [lit "root/A"; lit " root/A/B"; lit "root"; lit "root/gone"] = [lit "root/A"] ∧
  ascending (normalizeHiddenFolderPaths {[lit "root"; lit "root/A"; lit "root/A/B"]}
    [lit "root/A"; lit " root/A/B"; lit "root"; lit "root/gone"]).
Proof.
  split; [by vm_compute|].
  pose proof (normalizeHiddenFolderPaths_minimal (CC := codeUnitCollator_consistent)
                {[lit "root"; lit "root/A"; lit "root/A/B"]}
                [lit "root/A"; lit " root/A/B"; lit "root"; lit "root/gone"]) as H.
  simpl in H. apply H.
Defined.

(** ** Export projection *)

Lemma ancestorSegmentsMatch_prefix (pathSegs ancSegs : list str) :
  ancestorSegmentsMatch pathSegs ancSegs = true ↔ ancSegs `prefix_of` pathSegs.
Proof.
  revert pathSegs. induction ancSegs as [|x anc IH]; intros [|y ps]; simpl.
  - done.
  - split; [|done]. intros _. apply prefix_nil.
  - split; [done|]. intros H. by apply prefix_nil_inv in H.
  - destruct (decide (y = x)) as [->|Hne].
    + rewrite IH. split; [apply prefix_cons|apply prefix_cons_inv_2].
    + split; [done|]. intros H. apply prefix_cons_inv_1 in H. congruence.
Qed.

(** A path is at or below a hidden folder exactly when that folder is the
    same as, or an ancestor of, the path. *)
Lemma isAtOrDownstream_relation (path : str) (ancestorPaths : list str) :
  isAtOrDownstreamOfAnyFolderPath path ancestorPaths = true ↔
  ∃ h, h ∈ ancestorPaths ∧
       (getPathRelation h path = ancestor ∨ getPathRelation h path = same).
Proof.
  unfold isAtOrDownstreamOfAnyFolderPath.
  setoid_rewrite <- qualifies_relation. setoid_rewrite qualifies_prefix.
  destruct (toComparableSegments path) as [|s ps] eqn:Hp; cbn [length Nat.eqb].
  - split; [done|]. intros (h & _ & Hne & Hpre).
    by apply prefix_nil_inv in Hpre.
  - rewrite existsb_exists. split.
    + intros (h & Hin & H). exists h. rewrite list_elem_of_In. split; [done|].
      destruct (toComparableSegments h) as [|x anc]; [done|].
      cbn [length Nat.eqb] in H. split; [done|].
      destruct (S (length ps) <? S (length anc)); [done|].
      by apply ancestorSegmentsMatch_prefix.
    + intros (h & Hin & Hne & Hpre). exists h. rewrite <- list_elem_of_In.
      split; [done|].
      destruct (toComparableSegments h) as [|x anc]; [done|].
      cbn [length Nat.eqb].
      apply prefix_length in Hpre as Hlen. cbn [length] in Hlen.
      destruct (Nat.ltb_spec (S (length ps)) (S (length anc))); [lia|].
      by apply ancestorSegmentsMatch_prefix.
Qed.

Lemma lookup_foldl_insert (name p : str) (ps : list str) (m : gmap str str) :
  foldl (fun m q => <[q := name]> m) m ps !! p =
    if decide (p ∈ ps) then Some name else m !! p.
Proof.
  revert m. induction ps as [|q ps IH]; intros m; simpl; [done|].
  rewrite IH. destruct (decide (p ∈ ps)) as [Hin|Hout].
  - rewrite decide_True; [done|by right].
  - destruct (decide (p = q)) as [->|Hne].
    + rewrite decide_True by left. apply lookup_insert_eq.
    + rewrite decide_False.
      * by apply lookup_insert_ne.
      * intros H. apply elem_of_cons in H as [?|?]; done.
Qed.

(** The name recorded for [p] is the trimmed, non-blank name of the last
    merged device that has [p] as a member. *)
Lemma mergedNameByPath_lookup (mds : list MergedDevice.t) (p n : str) :
  mergedNameByPath mds !! p = Some n ↔
  ∃ i md, mds !! i = Some md ∧ p ∈ MergedDevice.memberPaths md ∧
          trim (MergedDevice.name md) ≠ [] ∧ n = trim (MergedDevice.name md) ∧
          ∀ j md', i < j → mds !! j = Some md' →
                   p ∈ MergedDevice.memberPaths md' →
                   trim (MergedDevice.name md') = [].
Proof.
  unfold mergedNameByPath. induction mds as [|x mds IH] using rev_ind.
  - simpl. rewrite lookup_empty. split; [done|]. by intros (i & md & ? & _).
  - rewrite foldl_app. simpl.
    destruct (truthy (trim (MergedDevice.name x))) eqn:Ht.
    + rewrite lookup_foldl_insert.
      destruct (decide (p ∈ MergedDevice.memberPaths x)) as [Hin|Hout].
      * split.
        -- intros [= <-]. exists (length mds), x. split_and!; try done.
           ++ by rewrite lookup_app_r, Nat.sub_diag.
           ++ by apply truthy_true.
           ++ intros j md' Hj Hlk. apply lookup_lt_Some in Hlk.
              rewrite length_app in Hlk. simpl in Hlk. lia.
        -- intros (i & md & Hi & Hp & Hne & -> & Hlast).
           destruct (decide (i < length mds)) as [Hlt|Hge].
           ++ apply truthy_true in Ht. destruct Ht.
              apply (Hlast (length mds) x); [done| |done].
              by rewrite lookup_app_r, Nat.sub_diag.
           ++ rewrite lookup_app_r in Hi by lia.
              destruct (i - length mds); simpl in Hi; [|done]. by injection Hi as <-.
      * rewrite IH. split.
        -- intros (i & md & Hi & Hp & Hne & -> & Hlast).
           exists i, md. split_and!; try done; [by apply lookup_app_l_Some|].
           intros j md' Hj Hlk Hp'.
           destruct (decide (j < length mds)) as [Hlt|Hge].
           ++ rewrite lookup_app_l in Hlk by done. by eapply Hlast.
           ++ rewrite lookup_app_r in Hlk by lia.
              destruct (j - length mds); simpl in Hlk; [|done].
              injection Hlk as <-. done.
        -- intros (i & md & Hi & Hp & Hne & -> & Hlast).
           destruct (decide (i < length mds)) as [Hlt|Hge].
           ++ rewrite lookup_app_l in Hi by done.
              exists i, md. split_and!; try done.
              intros j md' Hj Hlk Hp'. eapply Hlast; [done| |done].
              by apply lookup_app_l_Some.
           ++ rewrite lookup_app_r in Hi by lia.
              destruct (i - length mds); simpl in Hi; [|done].
              injection Hi as <-. done.
    + assert (trim (MergedDevice.name x) = []) as Hblank.
      { destruct (trim (MergedDevice.name x)); [done|discriminate]. }
      rewrite IH. split.
      * intros (i & md & Hi & Hp & Hne & -> & Hlast).
        exists i, md. split_and!; try done; [by apply lookup_app_l_Some|].
        intros j md' Hj Hlk Hp'.
        destruct (decide (j < length mds)) as [Hlt|Hge].
        -- rewrite lookup_app_l in Hlk by done. by eapply Hlast.
        -- rewrite lookup_app_r in Hlk by lia.
           destruct (j - length mds); simpl in Hlk; [|done].
           by injection Hlk as <-.
      * intros (i & md & Hi & Hp & Hne & -> & Hlast).
        destruct (decide (i < length mds)) as [Hlt|Hge].
        -- rewrite lookup_app_l in Hi by done.
           exists i, md. split_and!; try done.
           intros j md' Hj Hlk Hp'. eapply Hlast; [done| |done].
           by apply lookup_app_l_Some.
        -- rewrite lookup_app_r in Hi by lia.
           destruct (i - length mds); simpl in Hi; [|done].
           injection Hi as <-. done.
Qed.

Lemma mergedNameByPath_none (mds : list MergedDevice.t) (p : str) :
  mergedNameByPath mds !! p = None ↔
  ∀ md, md ∈ mds → p ∈ MergedDevice.memberPaths md →
        trim (MergedDevice.name md) = [].
Proof.
  unfold mergedNameByPath. induction mds as [|x mds IH] using rev_ind.
  - simpl. rewrite lookup_empty. split; [|done]. intros _ md Hmd.
    by apply elem_of_nil in Hmd.
  - rewrite foldl_app. simpl.
    assert ((∀ md, md ∈ mds ++ [x] → p ∈ MergedDevice.memberPaths md →
                   trim (MergedDevice.name md) = []) ↔
            (∀ md, md ∈ mds → p ∈ MergedDevice.memberPaths md →
                   trim (MergedDevice.name md) = []) ∧
            (p ∈ MergedDevice.memberPaths x → trim (MergedDevice.name x) = []))
      as ->.
    { split.
      - intros H. split.
        + intros md Hmd. apply H, elem_of_app. by left.
        + apply H, elem_of_app. right. by left.
      - intros [H1 H2] md Hmd. apply elem_of_app in Hmd as [Hmd|Hmd].
        + by apply H1.
        + apply list_elem_of_singleton in Hmd. by subst. }
    rewrite <- IH.
    destruct (truthy (trim (MergedDevice.name x))) eqn:Ht.
    + rewrite lookup_foldl_insert. apply truthy_true in Ht.
      destruct (decide (p ∈ MergedDevice.memberPaths x)) as [Hin|Hout].
      * split; [done|]. intros [_ H]. by apply H in Hin.
      * split; [|by intros [? _]]. intros H. by split.
    + assert (trim (MergedDevice.name x) = []) as Hblank.
      { destruct (trim (MergedDevice.name x)); [done|discriminate]. }
      split; [|by intros [? _]]. intros H. by split.
Qed.

Lemma toComparableSegments_empty : toComparableSegments [] = [].
Proof. reflexivity. Qed.

Lemma qualifies_nonempty (d p : str) : qualifies d p = true → d ≠ [] ∧ p ≠ [].
Proof.
  rewrite qualifies_prefix. intros [Hne Hpre]. split.
  - intros ->. by rewrite toComparableSegments_empty in Hne.
  - intros ->. rewrite toComparableSegments_empty in Hpre.
    by apply prefix_nil_inv in Hpre.
Qed.

Section DisplayName.

Variable st : AppState.

Lemma displayDeviceName_merged (p : str) (i : nat) (md : MergedDevice.t) :
  mergedDevices st !! i = Some md →
  p ∈ MergedDevice.memberPaths md →
  trim (MergedDevice.name md) ≠ [] →
  (∀ j md', i < j → mergedDevices st !! j = Some md' →
            p ∈ MergedDevice.memberPaths md' → trim (MergedDevice.name md') = []) →
  displayDeviceName st p = trim (MergedDevice.name md).
Proof.
  intros Hi Hp Hne Hlast. unfold displayDeviceName.
  assert (mergedNameByPath (mergedDevices st) !! p
          = Some (trim (MergedDevice.name md))) as ->.
  { apply mergedNameByPath_lookup. by exists i, md. }
  rewrite trim_idemp. apply truthy_true in Hne. by rewrite Hne.
Qed.



Lemma exportDeviceName_hidden (rec : gmap str str) :
  let pointPath := trim (default [] (rec !! selectedColumn st)) in
  (∃ h, h ∈ hiddenFolderPaths st ∧
        (getPathRelation h pointPath = ancestor ∨ getPathRelation h pointPath = same)) →
  exportDeviceName st rec = lit "-".
Proof.
  intros pointPath Hhid. unfold exportDeviceName. fold pointPath.
  destruct Hhid as (h & Hin & Hrel).
  apply qualifies_relation in Hrel as Hq. apply qualifies_nonempty in Hq as [_ Hne].
  apply truthy_true in Hne. rewrite Hne.
  destruct (hiddenFolderPaths st) as [|h0 hs] eqn:Hh; [by apply elem_of_nil in Hin|].
  cbn [length Nat.eqb negb andb].
  assert (isAtOrDownstreamOfAnyFolderPath pointPath (h0 :: hs) = true) as ->; [|done].
  apply isAtOrDownstream_relation. by exists h.
Qed.


End DisplayName.


(** Example 5 of the specification: with the hidden folder root/H, a row
    below it exports [-] although the device root/H/dev would own it. *)
Example export_hidden_row :
  let st := mkApp (Some (lit "path")) (lit "path") [] [lit "root/H/dev"] []
              ∅ [] [lit "root/H"] None ∅ None [] ∅ in
  let row : gmap str str := {[ lit "path" := lit "root/H/dev/pt" ]} in
  computeOwnerDevice (lit "root/H/dev/pt") (devicePaths st) = Some (lit "root/H/dev") ∧
  exportDeviceName st row = lit "-".
Proof. by vm_compute. Qed.

(** ** Conflict planner: the selection against the existing devices *)

Lemma conflictStep_remove (e : str) (acc : Conflicts.t) (c x : str) :
  x ∈ Conflicts.remove (conflictStep e acc c) ↔
  x ∈ Conflicts.remove acc ∨ (x = e ∧ conflicting e c).
Proof.
  unfold conflictStep, conflicting.
  destruct (getPathRelation e c); simpl; rewrite ?elem_of_setAdd;
    intuition congruence.
Qed.

Lemma conflictInner_remove (e : str) (toAdd : list str) (acc : Conflicts.t) (x : str) :
  x ∈ Conflicts.remove (foldl (conflictStep e) acc toAdd) ↔
  x ∈ Conflicts.remove acc ∨ (x = e ∧ ∃ c, c ∈ toAdd ∧ conflicting e c).
Proof.
  revert acc. induction toAdd as [|c toAdd IH]; intros acc; simpl.
  - split; [auto|]. intros [?|(_ & c & Hc & _)]; [done|by apply elem_of_nil in Hc].
  - rewrite IH, conflictStep_remove. split.
    + intros [[?|[-> ?]]|[-> (c' & ? & ?)]]; auto.
      * right. split; [done|]. exists c. split; [left|done].
      * right. split; [done|]. exists c'. split; [by right|done].
    + intros [?|[-> (c' & Hc' & ?)]]; auto.
      apply elem_of_cons in Hc' as [->|?]; [by left; right|].
      right. split; [done|]. by exists c'.
Qed.

Lemma scanConflicts_remove_from (devices toAdd : list str) (acc : Conflicts.t) (x : str) :
  x ∈ Conflicts.remove
        (foldl (fun acc existing => foldl (conflictStep existing) acc toAdd) acc devices) ↔
  x ∈ Conflicts.remove acc ∨ (x ∈ devices ∧ ∃ c, c ∈ toAdd ∧ conflicting x c).
Proof.
  revert acc. induction devices as [|e devices IH]; intros acc; simpl.
  - split; [auto|]. intros [?|[H _]]; [done|by apply elem_of_nil in H].
  - rewrite IH, conflictInner_remove. split.
    + intros [[?|[-> ?]]|[? ?]]; auto.
      * right. split; [left|done].
      * right. split; [by right|done].
    + intros [?|[Hx ?]]; auto.
      apply elem_of_cons in Hx as [->|?]; [by left; right|by right].
Qed.

(** An existing device is marked for removal exactly when it is an
    ancestor or a descendant of a path to add. *)
Lemma elem_of_scanConflicts_remove (devices toAdd : list str) (x : str) :
  x ∈ Conflicts.remove (scanConflicts devices toAdd) ↔
  x ∈ devices ∧ ∃ c, c ∈ toAdd ∧ conflicting x c.
Proof.
  unfold scanConflicts. rewrite scanConflicts_remove_from. simpl.
  rewrite elem_of_nil. tauto.
Qed.

Lemma scanConflicts_remove_nil (devices : list str) :
  Conflicts.remove (scanConflicts devices []) = [].
Proof.
  destruct (Conflicts.remove (scanConflicts devices [])) as [|x l] eqn:E; [done|].
  assert (x ∈ Conflicts.remove (scanConflicts devices [])) as Hx by (rewrite E; left).
  apply elem_of_scanConflicts_remove in Hx as (_ & c & Hc & _).
  by apply elem_of_nil in Hc.
Qed.

Lemma length_zero_eqb {A} (l : list A) : (length l =? 0) = true ↔ l = [].
Proof. by destruct l. Qed.

Section MarkSelection.

Context {C : Collator}.
Variable st : AppState.

Let toAdd := selectionToAdd (setFrom (selectedPaths st)).
Let dropped := selectionDropped (setFrom (selectedPaths st)).
Let toRemove := Conflicts.remove (scanConflicts (devicePaths st) toAdd).

(** With nothing selected there is nothing to remove and nothing dropped. *)
Lemma empty_selection_plan :
  selectedPaths st = [] → toRemove = [] ∧ dropped = [].
Proof.
  intros He. unfold toRemove, toAdd, dropped. rewrite He. simpl.
  split; [apply scanConflicts_remove_nil|done].
Qed.

(** The test [toRemove.length || droppedFromSelection.length]. *)
Lemma plan_needs_confirmation :
  (negb (length (PendingDeviceConflict.toRemove (planConflict st)) =? 0)
   || negb (length (PendingDeviceConflict.droppedFromSelection (planConflict st)) =? 0))
  = false ↔ toRemove = [] ∧ dropped = [].
Proof.
  unfold planConflict. simpl. rewrite !length_sortBy.
  by rewrite orb_false_iff, !negb_false_iff, !length_zero_eqb.
Qed.

Lemma markSelectionAsDevices_immediate :
  selectedPaths st ≠ [] → toRemove = [] ∧ dropped = [] →
  markSelectionAsDevices st = setSelectedPaths [] (addDevices toAdd st) ∧
  toAdd = setFrom (selectedPaths st) ∧
  devicePaths (markSelectionAsDevices st)
    = foldl setAdd (setFrom (devicePaths st)) toAdd.
Proof.
  intros Hne Hboth. apply plan_needs_confirmation in Hboth as Hc.
  assert (markSelectionAsDevices st = setSelectedPaths [] (addDevices toAdd st)) as Hst'.
  { assert ((length (selectedPaths st) =? 0) = false) as Hlen
      by (by destruct (selectedPaths st)).
    unfold markSelectionAsDevices. by rewrite Hlen, Hc. }
  assert (toAdd = setFrom (selectedPaths st)) as HtoAdd.
  { unfold toAdd, selectionToAdd. apply filter_all. intros c Hc'.
    destruct (isAncestorOfAnotherSelected (setFrom (selectedPaths st)) c) eqn:Ea; [|done].
    assert (c ∈ dropped) as Hd
      by (unfold dropped, selectionDropped; by apply list_elem_of_filter).
    destruct Hboth as [_ Hd0]. rewrite Hd0 in Hd. by apply elem_of_nil in Hd. }
  assert (toAdd ≠ []) as HtoAddne.
  { rewrite HtoAdd. destruct (selectedPaths st) as [|x l]; [done|].
    intros Hnil. assert (x ∈ setFrom (x :: l)) as Hx by (apply elem_of_setFrom; left).
    rewrite Hnil in Hx. by apply elem_of_nil in Hx. }
  split_and!; [done..|].
  rewrite Hst'. unfold addDevices. by destruct toAdd.
Qed.

Lemma markSelectionAsDevices_staged :
  ¬ (toRemove = [] ∧ dropped = []) →
  markSelectionAsDevices st
    = setOpenReassignGroups ∅ (setPendingConflict (Some (planConflict st)) st).
Proof.
  intros Hnot.
  assert (selectedPaths st ≠ []) as Hne
    by (intros He; by apply Hnot, empty_selection_plan).
  assert ((length (selectedPaths st) =? 0) = false) as Hlen
    by (by destruct (selectedPaths st)).
  unfold markSelectionAsDevices. rewrite Hlen.
  destruct (negb _ || negb _) eqn:Hc; [done|].
  destruct Hnot. by apply plan_needs_confirmation.
Qed.

Lemma markSelectionAsDevices_cases :
  (markSelectionAsDevices st = st ∧ selectedPaths st = []) ∨
  (selectedPaths st ≠ [] ∧ (toRemove = [] ∧ dropped = []) ∧
   devicePaths (markSelectionAsDevices st)
     = foldl setAdd (setFrom (devicePaths st)) toAdd) ∨
  (markSelectionAsDevices st
     = setOpenReassignGroups ∅ (setPendingConflict (Some (planConflict st)) st) ∧
   devicePaths (markSelectionAsDevices st) = devicePaths st).
Proof.
  destruct (decide (selectedPaths st = [])) as [He|Hne].
  { left. split; [|done]. unfold markSelectionAsDevices. by rewrite He. }
  right. destruct (decide (toRemove = [] ∧ dropped = [])) as [Hb|Hnb].
  - left. by destruct (markSelectionAsDevices_immediate Hne Hb) as (_ & _ & ?).
  - right. by rewrite (markSelectionAsDevices_staged Hnb).
Qed.

End MarkSelection.

(** C6. With a non-empty selection: when the computed to-remove set and
    the dropped-from-selection set are both empty, the handler adds the
    paths to the Device Set at once and leaves the pending plan as it was;
    otherwise it stages the plan and changes neither the Device Set nor the
    merged devices nor the hidden folders. (With an empty selection the
    handler does nothing, and both sets are empty.) Cancelling a plan
    clears it and leaves the Device Set, the merged devices and the hidden
    folders unchanged. *)
Theorem markSelectionAsDevices_confirmation `{Collator} (st : AppState) :
  let selectionUnique := setFrom (selectedPaths st) in
  let toAdd := selectionToAdd selectionUnique in
  let dropped := selectionDropped selectionUnique in
  let toRemove := Conflicts.remove (scanConflicts (devicePaths st) toAdd) in
  let st' := markSelectionAsDevices st in
  (selectedPaths st = [] → st' = st ∧ toRemove = [] ∧ dropped = []) ∧
  (selectedPaths st ≠ [] → toRemove = [] ∧ dropped = [] →
   st' = setSelectedPaths [] (addDevices toAdd st) ∧
   pendingConflict st' = pendingConflict st ∧
   devicePaths st' = foldl setAdd (setFrom (devicePaths st)) toAdd ∧
   ∀ p, p ∈ devicePaths st' ↔ p ∈ devicePaths st ∨ p ∈ selectedPaths st) ∧
  (¬ (toRemove = [] ∧ dropped = []) →
   st' = setOpenReassignGroups ∅ (setPendingConflict (Some (planConflict st)) st) ∧
   pendingConflict st' = Some (planConflict st) ∧
   devicePaths st' = devicePaths st ∧
   mergedDevices st' = mergedDevices st ∧
   hiddenFolderPaths st' = hiddenFolderPaths st) ∧
  (pendingConflict (cancelDeviceConflict st) = None ∧
   devicePaths (cancelDeviceConflict st) = devicePaths st ∧
   mergedDevices (cancelDeviceConflict st) = mergedDevices st ∧
   hiddenFolderPaths (cancelDeviceConflict st) = hiddenFolderPaths st).
Proof.
  intros sel toAdd dropped toRemove st'. split_and!.
  - intros He. split; [|by apply empty_selection_plan].
    unfold st', markSelectionAsDevices. by rewrite He.
  - intros Hne Hboth.
    destruct (markSelectionAsDevices_immediate st Hne Hboth) as (Hst' & HtoAdd & Hdev).
    fold toAdd in Hst', HtoAdd, Hdev. fold st' in Hst', Hdev.
    split_and!; [done| |done|].
    + rewrite Hst'. unfold addDevices. by destruct (length _ =? 0).
    + intros p. rewrite Hdev, elem_of_foldl_setAdd, elem_of_setFrom, HtoAdd.
      by rewrite elem_of_setFrom.
  - intros Hnot. unfold st'. by rewrite (markSelectionAsDevices_staged st Hnot).
  - done.
  - done.
  - done.
  - done.
Qed.

(** ** The Device-Set invariant *)

Lemma conflicting_sym (p q : str) : conflicting p q → conflicting q p.
Proof.
  unfold conflicting. intros [H|H].
  - right. by apply getPathRelation_flip.
  - left. by apply getPathRelation_flip.
Qed.

Lemma not_conflicting_self (p : str) : ¬ conflicting p p.
Proof.
  unfold conflicting. destruct (getPathRelation_self p) as [-> | ->]; by intros [?|?].
Qed.

Lemma deviceSetInvariant_alt (devices : list str) :
  deviceSetInvariant devices ↔
  ∀ p q, p ∈ devices → q ∈ devices → ¬ conflicting p q.
Proof.
  unfold deviceSetInvariant, conflicting. split.
  - intros H p q Hp Hq Hc. destruct (decide (p = q)) as [->|Hne].
    + by apply (not_conflicting_self q).
    + destruct (H p q Hp Hq Hne). tauto.
  - intros H p q Hp Hq _. specialize (H p q Hp Hq). tauto.
Qed.

(** The paths kept to add never conflict with one another. *)
Lemma selectionToAdd_compatible (sel : list str) (p q : str) :
  p ∈ selectionToAdd sel → q ∈ selectionToAdd sel → ¬ conflicting p q.
Proof.
  rewrite !elem_of_selectionToAdd. intros [Hp Hpn] [Hq Hqn] [Hc|Hc].
  - apply Hpn. exists q. split_and!; [done| |done].
    intros ->. apply (not_conflicting_self p). by left.
  - apply getPathRelation_flip in Hc. apply Hqn. exists p. split_and!; [done| |done].
    intros ->. apply (not_conflicting_self q). by left.
Qed.

(** The next Device Set of a plan, for any way of listing its two parts. *)
Lemma plan_next_invariant (devices sel next : list str) :
  deviceSetInvariant devices →
  (∀ x, x ∈ next →
        (x ∈ devices ∧
         x ∉ Conflicts.remove (scanConflicts devices (selectionToAdd sel))) ∨
        x ∈ selectionToAdd sel) →
  deviceSetInvariant next.
Proof.
  rewrite !deviceSetInvariant_alt. intros Hinv Hnext p q Hp Hq Hc.
  apply Hnext in Hp as [[Hp Hpr]|Hp]; apply Hnext in Hq as [[Hq Hqr]|Hq].
  - by apply (Hinv p q).
  - apply Hpr, elem_of_scanConflicts_remove. split; [done|]. by exists q.
  - apply Hqr, elem_of_scanConflicts_remove. split; [done|]. exists p.
    split; [done|]. by apply conflicting_sym.
  - by apply (selectionToAdd_compatible sel p q).
Qed.

Lemma devicePaths_effects (st : AppState) :
  devicePaths (devicePathsEffects st) = devicePaths st.
Proof. done. Qed.

Lemma elem_of_applyDeviceChange (nextAdd nextRemove : list str) (st : AppState) (x : str) :
  x ∈ devicePaths (applyDeviceChange nextAdd nextRemove st) ↔
  (x ∈ devicePaths st ∧ x ∉ nextRemove) ∨ x ∈ nextAdd.
Proof.
  unfold applyDeviceChange. rewrite devicePaths_effects. simpl.
  rewrite elem_of_foldl_setAdd, elem_of_setFrom, list_elem_of_filter.
  by rewrite setHas_false, elem_of_setFrom, (comm and).
Qed.

Section InvariantPreserved.

Context {C : Collator}.

(** Marking a selection keeps the invariant, whether the change is applied
    at once or staged. *)
Lemma markSelectionAsDevices_invariant (st : AppState) :
  deviceSetInvariant (devicePaths st) →
  deviceSetInvariant (devicePaths (markSelectionAsDevices st)).
Proof.
  intros Hinv.
  destruct (markSelectionAsDevices_cases st) as [(-> & _)|[(Hne & Hboth & Hdev)|(_ & Hdev)]].
  - done.
  - apply (plan_next_invariant (devicePaths st) (setFrom (selectedPaths st))); [done|].
    intros x. rewrite Hdev, elem_of_foldl_setAdd, elem_of_setFrom.
    destruct Hboth as [-> _]. intros [?|?]; [left|by right].
    split; [done|apply not_elem_of_nil].
  - by rewrite Hdev.
Qed.

(** Confirming the plan that was staged for the current Device Set keeps
    the invariant. *)
Lemma confirmDeviceConflict_invariant (st : AppState) :
  deviceSetInvariant (devicePaths st) →
  pendingConflict st = None →
  deviceSetInvariant (devicePaths (confirmDeviceConflict (markSelectionAsDevices st))).
Proof.
  intros Hinv Hnone.
  destruct (markSelectionAsDevices_cases st) as [(Hst & _)|[(Hne & Hboth & Hdev)|(Hst & Hdev)]].
  - rewrite Hst. unfold confirmDeviceConflict. by rewrite Hnone.
  - pose proof (markSelectionAsDevices_invariant st Hinv) as Hinv'.
    unfold confirmDeviceConflict.
    assert (pendingConflict (markSelectionAsDevices st) = None) as ->; [|done].
    rewrite <- Hnone. unfold markSelectionAsDevices.
    destruct (length (selectedPaths st) =? 0); [done|].
    destruct (negb _ || negb _) eqn:E; [|by destruct (selectionToAdd _)].
    exfalso. unfold planConflict in E. simpl in E. rewrite !length_sortBy in E.
    destruct Hboth as [H1 H2]. by rewrite H1, H2 in E.
  - unfold confirmDeviceConflict. rewrite Hst. simpl.
    apply (plan_next_invariant (devicePaths st) (setFrom (selectedPaths st))); [done|].
    intros x Hx. apply elem_of_applyDeviceChange in Hx. simpl in Hx.
    rewrite !elem_of_sortBy in Hx. tauto.
Qed.

End InvariantPreserved.

(** Removing devices keeps the invariant. *)
Lemma removeDevices_invariant (pathsToRemove : list str) (st : AppState) :
  deviceSetInvariant (devicePaths st) →
  deviceSetInvariant (devicePaths (removeDevices pathsToRemove st)).
Proof.
  intros Hinv. unfold removeDevices.
  destruct (length pathsToRemove =? 0); [done|].
  rewrite devicePaths_effects. simpl.
  intros p q Hp Hq. apply list_elem_of_filter in Hp as [_ Hp].
  apply list_elem_of_filter in Hq as [_ Hq]. by apply Hinv.
Qed.

(** C1. Confirming a merge adds the staged member paths to the Device Set
    without any overlap check: from the Device Set {root/A}, which
    satisfies the invariant, merging the folders root/A/B and root/C
    yields the Device Set {root/A, root/A/B, root/C}, in which root/A is
    an ancestor of root/A/B. (Marking a selection, confirming the plan
    staged for the current set, and removing devices do keep the
    invariant: [markSelectionAsDevices_invariant],
    [confirmDeviceConflict_invariant], [removeDevices_invariant].) *)
Theorem confirmMergeDevices_breaks_invariant `{Collator} :
  let st0 := mkApp None [] [] [lit "root/A"] [] ∅
               [lit "root/A/B"; lit "root/C"] [] None ∅ None [] ∅ in
  let st1 := beginMergeDevices [lit "root/A/B"; lit "root/C"] (lit "B") st0 in
  let st2 := confirmMergeDevices (lit "merged_1") st1 in
  deviceSetInvariant (devicePaths st0) ∧
  devicePaths st2 = [lit "root/A"; lit "root/A/B"; lit "root/C"] ∧
  getPathRelation (lit "root/A") (lit "root/A/B") = ancestor ∧
  ¬ deviceSetInvariant (devicePaths st2).
Proof.
  intros st0 st1 st2.
  assert (devicePaths st2 = [lit "root/A"; lit "root/A/B"; lit "root/C"]) as Hdev
    by (by vm_compute).
  split_and!; [|done|done|].
  - intros p q Hp Hq Hne. simpl in Hp, Hq.
    apply list_elem_of_singleton in Hp, Hq. congruence.
  - rewrite Hdev. intros Hinv.
    destruct (Hinv (lit "root/A") (lit "root/A/B")) as [Hanc _].
    + left.
    + right; left.
    + by vm_compute.
    + by apply Hanc.
Qed.

(** ** Merged devices *)

Lemma MergedDevice_eta (md : MergedDevice.t) :
  MergedDevice.mk (MergedDevice.id md) (MergedDevice.name md)
    (MergedDevice.memberPaths md) = md.
Proof. by destruct md. Qed.

Lemma filter_length_fixed {A} (P : A → Prop) {Pdec : ∀ x, Decision (P x)} (l : list A) :
  length (filter P l) = length l → filter P l = l.
Proof.
  induction l as [|x l IH]; [done|].
  destruct (decide (P x)) as [HP|HP].
  - rewrite filter_cons_True by done. simpl. intros [= Hlen]. f_equal. by apply IH.
  - rewrite filter_cons_False by done. simpl. intros Hlen.
    pose proof (length_filter P l). lia.
Qed.

Lemma pruneStep_sticky (deviceSet : list str) (l : list MergedDevice.t)
    (next : list MergedDevice.t) :
  (foldl (pruneStep deviceSet) (true, next) l).1 = true.
Proof.
  revert next. induction l as [|md l IH]; intros next; [done|].
  simpl. unfold pruneStep at 2. simpl.
  destruct (length _ =? 0); apply IH.
Qed.

(** The loop of the pruning effect, from any intermediate state. *)
Lemma pruneLoop_spec (devices : list str) (l : list MergedDevice.t)
    (changed : bool) (next : list MergedDevice.t) :
  let result := foldl (pruneStep (setFrom devices)) (changed, next) l in
  result.2 = next ++ omap (pruneGroup devices) l ∧
  (result.1 = false → omap (pruneGroup devices) l = l).
Proof.
  revert changed next. induction l as [|md l IH]; intros changed next.
  - simpl. by rewrite app_nil_r.
  - simpl. unfold pruneStep at 2 4. simpl.
    destruct (pruneGroup devices md) as [md'|] eqn:Hpg; unfold pruneGroup in Hpg;
      destruct (Nat.eqb_spec (length (filter (fun p => setHas (setFrom devices) p = true)
                                        (MergedDevice.memberPaths md))) 0) as [H0|H0];
      try done.
    + injection Hpg as <-.
      match goal with
      | |- context [foldl _ (?c, ?n) l] => destruct (IH c n) as [Hnext Hsame]
      end.
      split; [by rewrite Hnext, <- app_assoc|].
      intros Hres.
      destruct (Nat.eqb_spec (length (filter (fun p => setHas (setFrom devices) p = true)
                                        (MergedDevice.memberPaths md)))
                  (length (MergedDevice.memberPaths md))) as [Heq|Hne].
      * apply filter_length_fixed in Heq. rewrite Heq, MergedDevice_eta.
        f_equal. by apply Hsame.
      * simpl in Hres. rewrite orb_true_r, pruneStep_sticky in Hres. done.
    + destruct (IH true next) as [Hnext _]. split; [done|].
      by rewrite pruneStep_sticky.
Qed.

(** The pruning effect maps [pruneGroup] over the merged devices and drops
    the emptied ones. *)
Lemma pruneMergedDevices_omap (devices : list str) (prev : list MergedDevice.t) :
  pruneMergedDevices devices prev = omap (pruneGroup devices) prev.
Proof.
  unfold pruneMergedDevices.
  destruct (pruneLoop_spec devices prev false []) as [Hnext Hsame].
  cbv zeta in Hnext, Hsame.
  destruct (foldl (pruneStep (setFrom devices)) (false, []) prev).1 eqn:E.
  - by rewrite Hnext.
  - symmetry. by apply Hsame.
Qed.

Lemma mergeUnique_pairs (mds : list MergedDevice.t) :
  mergeUnique mds ↔ ForallOrdPairs disjointMembers mds.
Proof.
  split.
  - induction mds as [|a l IH]; intros Hu; constructor.
    + apply Forall_forall. intros b Hb p Hpa Hpb.
      apply list_elem_of_lookup_1 in Hb as [j Hj].
      by specialize (Hu 0 (S j) a b p eq_refl Hj Hpa Hpb).
    + apply IH. intros i j x y p Hi Hj Hx Hy.
      by specialize (Hu (S i) (S j) x y p Hi Hj Hx Hy) as [= ->].
  - induction 1 as [|a l Hhd Htl IH]; intros i j x y p Hi Hj Hx Hy.
    + done.
    + rewrite Forall_forall in Hhd.
      destruct i as [|i], j as [|j]; simpl in Hi, Hj.
      * done.
      * injection Hi as <-. apply list_elem_of_lookup_2 in Hj.
        by destruct (Hhd y Hj p Hx).
      * injection Hj as <-. apply list_elem_of_lookup_2 in Hi.
        by destruct (Hhd x Hi p Hy).
      * f_equal. by apply (IH i j x y p).
Qed.

Lemma pairs_omap (g : MergedDevice.t → option MergedDevice.t) (l : list MergedDevice.t) :
  (∀ md md', g md = Some md' →
             ∀ p, p ∈ MergedDevice.memberPaths md' → p ∈ MergedDevice.memberPaths md) →
  ForallOrdPairs disjointMembers l → ForallOrdPairs disjointMembers (omap g l).
Proof.
  intros Hsub. induction 1 as [|a l Hhd Htl IH]; [constructor|].
  simpl. destruct (g a) as [a'|] eqn:Ha; [|done].
  constructor; [|done].
  rewrite Forall_forall in Hhd |- *. intros y Hy p Hp Hpy.
  apply list_elem_of_omap in Hy as (x & Hx & Hgx).
  apply (Hhd x Hx p); [by eapply Hsub|by eapply Hsub].
Qed.

Lemma pairs_filter (P : MergedDevice.t → Prop) {Pdec : ∀ x, Decision (P x)}
    (l : list MergedDevice.t) :
  ForallOrdPairs disjointMembers l → ForallOrdPairs disjointMembers (filter P l).
Proof.
  induction 1 as [|a l Hhd Htl IH]; [constructor|].
  destruct (decide (P a)).
  - rewrite filter_cons_True by done. constructor; [|done].
    rewrite Forall_forall in Hhd |- *. intros y Hy.
    apply list_elem_of_filter in Hy as [_ Hy]. by apply Hhd.
  - by rewrite filter_cons_False.
Qed.

Lemma pairs_snoc (l : list MergedDevice.t) (x : MergedDevice.t) :
  ForallOrdPairs disjointMembers l →
  Forall (fun a => disjointMembers a x) l →
  ForallOrdPairs disjointMembers (l ++ [x]).
Proof.
  induction 1 as [|a l Hhd Htl IH]; intros Hx; simpl.
  - repeat constructor.
  - apply Forall_cons in Hx as [Hax Hx]. constructor; [|by apply IH].
    apply Forall_app. split; [done|]. by constructor.
Qed.

Lemma pruneGroup_members (devices : list str) (md md' : MergedDevice.t) :
  pruneGroup devices md = Some md' →
  MergedDevice.memberPaths md' ≠ [] ∧
  ∀ p, p ∈ MergedDevice.memberPaths md' ↔
       p ∈ MergedDevice.memberPaths md ∧ p ∈ devices.
Proof.
  unfold pruneGroup.
  destruct (Nat.eqb_spec (length (filter (fun p => setHas (setFrom devices) p = true)
                                    (MergedDevice.memberPaths md))) 0) as [H0|H0];
    [done|].
  intros [= <-]. simpl. split.
  - intros Hnil. by rewrite Hnil in H0.
  - intros p. by rewrite list_elem_of_filter, setHas_true, elem_of_setFrom, (comm and).
Qed.

Lemma mergeUnique_prune (devices : list str) (mds : list MergedDevice.t) :
  mergeUnique mds → mergeUnique (pruneMergedDevices devices mds).
Proof.
  rewrite pruneMergedDevices_omap, !mergeUnique_pairs. apply pairs_omap.
  intros md md' Hg p Hp. apply pruneGroup_members in Hg as [_ Hg].
  by apply Hg in Hp as [? _].
Qed.

Lemma sharesMember_false (memberSet : list str) (md : MergedDevice.t) :
  sharesMember memberSet md = false ↔
  ∀ p, p ∈ MergedDevice.memberPaths md → p ∉ memberSet.
Proof.
  unfold sharesMember. rewrite <- not_true_iff_false, existsb_exists. split.
  - intros Hno p Hp Hin. apply Hno. exists p.
    by rewrite <- list_elem_of_In, setHas_true.
  - intros Hall (p & Hp & Hhas). apply list_elem_of_In in Hp.
    apply setHas_true in Hhas. by apply (Hall p).
Qed.

Section MergeUniqueness.

Context {C : Collator}.

Lemma mergeUnique_confirm (freshId name : str) (memberSet : list str)
    (prev : list MergedDevice.t) :
  mergeUnique prev →
  mergeUnique (filter (fun md => sharesMember memberSet md = false) prev
               ++ [MergedDevice.mk freshId name (sortBy localeCompare memberSet)]).
Proof.
  rewrite !mergeUnique_pairs. intros Hprev.
  apply pairs_snoc; [by apply pairs_filter|].
  apply Forall_forall. intros a Ha p Hp. simpl. rewrite elem_of_sortBy.
  apply list_elem_of_filter in Ha as [Ha _].
  by apply (sharesMember_false memberSet a).
Qed.

Lemma mergedDevices_confirmMerge (freshId : str) (st : AppState) (pm : PendingMerge.t) :
  pendingMerge st = Some pm → trim (mergeName st) ≠ [] →
  let memberSet := setFrom (PendingMerge.memberPaths pm) in
  devicePaths (confirmMergeDevices freshId st)
    = foldl setAdd (setFrom (devicePaths st)) memberSet ∧
  mergedDevices (confirmMergeDevices freshId st)
    = pruneMergedDevices (devicePaths (confirmMergeDevices freshId st))
        (filter (fun md => sharesMember memberSet md = false) (mergedDevices st)
         ++ [MergedDevice.mk freshId (trim (mergeName st))
               (sortBy localeCompare memberSet)]).
Proof.
  intros Hpm Hname memberSet. unfold confirmMergeDevices. rewrite Hpm.
  apply truthy_true in Hname. by rewrite Hname.
Qed.

Lemma engineStep_mergeUnique (st st' : AppState) :
  engineStep st st' →
  mergeUnique (mergedDevices st) → mergeUnique (mergedDevices st').
Proof.
  intros Hstep Hu. destruct Hstep; try done.
  - unfold markSelectionAsDevices.
    destruct (length (selectedPaths st) =? 0); [done|].
    destruct (negb _ || negb _); [done|].
    simpl. unfold addDevices. destruct (length _ =? 0); [done|].
    by apply mergeUnique_prune.
  - unfold confirmDeviceConflict. destruct (pendingConflict st); [|done].
    by apply mergeUnique_prune.
  - unfold removeDevices. destruct (length ps =? 0); [done|].
    by apply mergeUnique_prune.
  - unfold beginMergeDevices. by destruct (length _ <? 2).
  - destruct (pendingMerge st) as [pm|] eqn:Hpm.
    2:{ unfold confirmMergeDevices. by rewrite Hpm. }
    destruct (decide (trim (mergeName st) = [])) as [Hblank|Hname].
    { unfold confirmMergeDevices. by rewrite Hpm, Hblank. }
    destruct (mergedDevices_confirmMerge freshId st pm Hpm Hname) as [_ ->].
    by apply mergeUnique_prune, mergeUnique_confirm.
Qed.

Lemma engineSteps_mergeUnique (st st' : AppState) :
  rtc engineStep st st' →
  mergeUnique (mergedDevices st) → mergeUnique (mergedDevices st').
Proof.
  induction 1 as [|st st1 st' Hstep _ IH]; [done|].
  intros Hu. by apply IH, (engineStep_mergeUnique st).
Qed.

Lemma removeDevices_effect (ps : list str) (st : AppState) :
  ps ≠ [] →
  (∀ p, p ∈ devicePaths (removeDevices ps st) ↔ p ∈ devicePaths st ∧ p ∉ ps) ∧
  mergedDevices (removeDevices ps st)
    = omap (pruneGroup (devicePaths (removeDevices ps st))) (mergedDevices st).
Proof.
  intros Hne. unfold removeDevices.
  assert ((length ps =? 0) = false) as -> by (by destruct ps).
  split.
  - intros p. rewrite devicePaths_effects. simpl.
    by rewrite list_elem_of_filter, setHas_false, elem_of_setFrom, (comm and).
  - simpl. apply pruneMergedDevices_omap.
Qed.

End MergeUniqueness.

(** C9. Along any sequence of engine actions (merge confirmations, device
    removals, and every other handler), starting from a state in which no
    folder path belongs to two merged devices, every folder path belongs
    to at most one merged device. Confirming a merge keeps exactly the
    earlier groups that contain none of the new members (a group with a
    new member is dropped whole, never split), appends the new group, and
    makes every new member a device; removing devices takes the removed
    paths out of every group and deletes the groups left without
    members. *)
Theorem merge_uniqueness `{Collator} (st st' : AppState) :
  rtc engineStep st st' →
  mergeUnique (mergedDevices st) →
  mergeUnique (mergedDevices st') ∧
  (∀ freshId s pm,
     pendingMerge s = Some pm → trim (mergeName s) ≠ [] →
     let memberSet := setFrom (PendingMerge.memberPaths pm) in
     let s' := confirmMergeDevices freshId s in
     mergedDevices s'
       = omap (pruneGroup (devicePaths s'))
           (filter (fun md => sharesMember memberSet md = false) (mergedDevices s)
            ++ [MergedDevice.mk freshId (trim (mergeName s))
                  (sortBy localeCompare memberSet)]) ∧
     (∀ md, sharesMember memberSet md = false ↔
            ∀ p, p ∈ MergedDevice.memberPaths md → p ∉ PendingMerge.memberPaths pm) ∧
     (∀ p, p ∈ PendingMerge.memberPaths pm → p ∈ devicePaths s')) ∧
  (∀ ps s,
     ps ≠ [] →
     let s' := removeDevices ps s in
     (∀ p, p ∈ devicePaths s' ↔ p ∈ devicePaths s ∧ p ∉ ps) ∧
     mergedDevices s' = omap (pruneGroup (devicePaths s')) (mergedDevices s) ∧
     ∀ md, md ∈ mergedDevices s' →
           MergedDevice.memberPaths md ≠ [] ∧
           ∀ p, p ∈ MergedDevice.memberPaths md → p ∈ devicePaths s' ∧ p ∉ ps).
Proof.
  intros Hsteps Hu. split_and!.
  - by apply (engineSteps_mergeUnique st).
  - intros freshId s pm Hpm Hname memberSet s'.
    destruct (mergedDevices_confirmMerge freshId s pm Hpm Hname) as [Hdev Hmd].
    split_and!.
    + unfold s'. rewrite Hmd. apply pruneMergedDevices_omap.
    + intros md. rewrite sharesMember_false. unfold memberSet.
      by setoid_rewrite elem_of_setFrom.
    + intros p Hp. unfold s'. rewrite Hdev, elem_of_foldl_setAdd.
      right. by apply elem_of_setFrom.
  - intros ps s Hne s'.
    destruct (removeDevices_effect ps s Hne) as [Hdev Hmd].
    split_and!; [done..|].
    intros md Hin. unfold s' in Hin. rewrite Hmd in Hin.
    apply list_elem_of_omap in Hin as (md0 & _ & Hg).
    apply pruneGroup_members in Hg as [Hnonempty Hmem].
    split; [done|]. intros p Hp. apply Hmem in Hp as [_ Hp].
    split; [done|]. by apply Hdev in Hp as [_ ?].
Qed.

Lemma merge_uniqueness_witness :
  let st0 := mkApp None [] []
               [lit "root/A"; lit "root/B"; lit "root/C"; lit "root/D"]
               [MergedDevice.mk (lit "m0") (lit "AB") [lit "root/A"; lit "root/B"]]
               ∅ [] [] None ∅ None [] ∅ in
  let st3 := removeDevices [lit "root/C"]
               (confirmMergeDevices (lit "m1")
                  (beginMergeDevices [lit "root/B"; lit "root/C"] (lit "BC") st0)) in
  mergedDevices st3 = [MergedDevice.mk (lit "m1") (lit "BC") [lit "root/B"]] ∧
  mergeUnique (mergedDevices st3).
Proof.
  intros st0 st3. split; [by vm_compute|].
  apply (merge_uniqueness st0 st3).
  - eapply rtc_l; [apply (stepBeginMerge [lit "root/B"; lit "root/C"] (lit "BC"))|].
    eapply rtc_l; [apply (stepConfirmMerge (lit "m1"))|].
    apply rtc_once, stepRemove.
  - intros i j a b p Hi Hj _ _.
    destruct i as [|i]; [|done]. by destruct j as [|j].
Defined.

(** ** Reassignment groups *)

Section GroupMap.

Implicit Types (m : list (str * GroupEntry.t)) (k p : str) (g : GroupEntry.t).

Lemma groupMapGet_snoc k k' g m :
  groupMapGet k (m ++ [(k', g)]) =
    match groupMapGet k m with
    | Some x => Some x
    | None => if decide (k' = k) then Some g else None
    end.
Proof.
  induction m as [|[k0 g0] m IH]; simpl; [done|].
  by destruct (decide (k0 = k)).
Qed.

Lemma groupMapGet_addPoint k k' p m :
  groupMapGet k' (groupMapAddPoint k p m) =
    if decide (k' = k) then addPoint p <$> groupMapGet k m else groupMapGet k' m.
Proof.
  induction m as [|[k0 g0] m IH]; simpl.
  - by destruct (decide (k' = k)).
  - destruct (decide (k0 = k)) as [->|Hne]; simpl.
    + destruct (decide (k = k')) as [->|Hne'].
      * by rewrite decide_True.
      * by rewrite decide_False by congruence.
    + destruct (decide (k0 = k')) as [->|Hne'].
      * by rewrite decide_False by congruence.
      * by rewrite IH.
Qed.

Lemma groupMapAddPoint_keys k p m : (groupMapAddPoint k p m).*1 = m.*1.
Proof.
  induction m as [|[k0 g0] m IH]; [done|]. cbn [groupMapAddPoint].
  destruct (decide (k0 = k)); rewrite !fmap_cons; [done|]. by rewrite IH.
Qed.

Lemma groupMapGet_none k m : groupMapGet k m = None ↔ k ∉ m.*1.
Proof.
  induction m as [|[k0 g0] m IH]; simpl.
  - split; [|done]. intros _. apply not_elem_of_nil.
  - rewrite not_elem_of_cons. destruct (decide (k0 = k)) as [->|Hne].
    + split; [done|]. by intros [? _].
    + rewrite IH. split; [|by intros [_ ?]]. intros ?. split; [congruence|done].
Qed.

Lemma groupMapGet_elem k g m :
  NoDup m.*1 → (k, g) ∈ m ↔ groupMapGet k m = Some g.
Proof.
  induction m as [|[k0 g0] m IH]; simpl; intros Hnd.
  - split; [|done]. intros H. by apply elem_of_nil in H.
  - apply NoDup_cons in Hnd as [Hk0 Hnd]. rewrite elem_of_cons.
    destruct (decide (k0 = k)) as [->|Hne].
    + split.
      * intros [[= ->]|Hin]; [done|]. destruct Hk0.
        apply list_elem_of_fmap. by exists (k, g).
      * intros [= ->]. by left.
    + rewrite <- IH by done. split; [|by right].
      intros [[= -> ->]|?]; done.
Qed.

End GroupMap.

Section Reassignment.

Variables (cur nxt : list str).

Lemma reassignStep_skip m pt :
  (∀ f t, ¬ reassigned cur nxt pt f t) → reassignStep cur nxt m pt = m.
Proof.
  intros Hno. unfold reassignStep.
  destruct (decide (_ = _)) as [|Hne]; [done|].
  destruct (computeOwnerDevice (PointRecord.path pt) cur) as [f|] eqn:Hf;
    destruct (computeOwnerDevice (PointRecord.path pt) nxt) as [t|] eqn:Ht;
    try done.
  destruct (Hno f t). split_and!; [done..|congruence].
Qed.

Lemma reassignStep_report m pt f t :
  reassigned cur nxt pt f t →
  reassignStep cur nxt m pt =
    match groupMapGet (f ++ [ARROW] ++ t) m with
    | None =>
        m ++ [(f ++ [ARROW] ++ t,
               GroupEntry.mk (Some f) (Some t) [PointRecord.path pt])]
    | Some _ => groupMapAddPoint (f ++ [ARROW] ++ t) (PointRecord.path pt) m
    end.
Proof.
  intros (Hf & Ht & Hne). unfold reassignStep. rewrite Hf, Ht.
  rewrite decide_False by congruence. done.
Qed.

Lemma reassigned_dec pt :
  (∃ f t, reassigned cur nxt pt f t) ∨ (∀ f t, ¬ reassigned cur nxt pt f t).
Proof.
  unfold reassigned.
  destruct (computeOwnerDevice (PointRecord.path pt) cur) as [f|];
    [|right; by intros ? ? (? & _)].
  destruct (computeOwnerDevice (PointRecord.path pt) nxt) as [t|];
    [|right; by intros ? ? (_ & ? & _)].
  destruct (decide (f = t)) as [->|Hne].
  - right. intros ? ? ([= ->] & [= ->] & ?). done.
  - left. by exists f, t.
Qed.

Lemma groupMapInvariant_loop (pts : list PointRecord.t) :
  groupMapInvariant cur nxt pts (reassignGroupMap pts cur nxt).
Proof.
  unfold reassignGroupMap. induction pts as [|pt pts IH] using rev_ind.
  - split; [constructor|]. intros k. simpl. intros pt f t Hpt.
    by apply elem_of_nil in Hpt.
  - rewrite foldl_app. simpl.
    set (m := foldl (reassignStep cur nxt) [] pts) in *.
    destruct IH as [Hnd IH].
    destruct (reassigned_dec pt) as [(f & t & Hre)|Hno].
    2:{ rewrite reassignStep_skip by done. split; [done|]. intros k.
        specialize (IH k). destruct (groupMapGet k m) as [g|].
        - destruct IH as ((f & t & pt0 & ? & ? & ? & ? & ?) & Hndg & Hset).
          split_and!; [|done|].
          + exists f, t, pt0. split_and!; try done. apply elem_of_app. by left.
          + intros p. rewrite Hset. split.
            * intros (pt' & f' & t' & Hin & ?). exists pt', f', t'.
              split; [apply elem_of_app; by left|done].
            * intros (pt' & f' & t' & Hin & Hp & Hre & Hk).
              apply elem_of_app in Hin as [Hin|Hin].
              -- by exists pt', f', t'.
              -- apply list_elem_of_singleton in Hin as ->. by destruct (Hno f' t').
        - intros pt' f' t' Hin Hre. apply elem_of_app in Hin as [Hin|Hin].
          + by eapply IH.
          + apply list_elem_of_singleton in Hin as ->. by destruct (Hno f' t'). }
    rewrite (reassignStep_report m pt f t Hre).
    pose proof (IH (f ++ [ARROW] ++ t)) as IHk.
    destruct (groupMapGet (f ++ [ARROW] ++ t) m) as [g0|] eqn:Hget.
    + (* the key is present: the point joins its group *)
      split; [by rewrite groupMapAddPoint_keys|].
      intros k. rewrite groupMapGet_addPoint.
      destruct (decide (k = f ++ [ARROW] ++ t)) as [->|Hk].
      * rewrite Hget. simpl.
        destruct IHk as ((f0 & t0 & pt0 & ? & ? & ? & ? & ?) & Hndg & Hset).
        split_and!.
        -- exists f0, t0, pt0. split_and!; try done. apply elem_of_app. by left.
        -- by apply NoDup_setAdd.
        -- intros p. rewrite elem_of_setAdd, Hset. split.
           ++ intros [(pt' & f' & t' & Hin & ?)| ->].
              ** exists pt', f', t'. split; [apply elem_of_app; by left|done].
              ** exists pt, f, t. split_and!; try done.
                 apply elem_of_app. right. by left.
           ++ intros (pt' & f' & t' & Hin & Hp & Hre' & Hk').
              apply elem_of_app in Hin as [Hin|Hin].
              ** left. by exists pt', f', t'.
              ** apply list_elem_of_singleton in Hin as ->. by right.
      * specialize (IH k). destruct (groupMapGet k m) as [g|].
        -- destruct IH as ((f0 & t0 & pt0 & ? & ? & ? & ? & ?) & Hndg & Hset).
           split_and!; [|done|].
           ++ exists f0, t0, pt0. split_and!; try done. apply elem_of_app. by left.
           ++ intros p. rewrite Hset. split.
              ** intros (pt' & f' & t' & Hin & ?). exists pt', f', t'.
                 split; [apply elem_of_app; by left|done].
              ** intros (pt' & f' & t' & Hin & Hp & Hre' & Hk').
                 apply elem_of_app in Hin as [Hin|Hin].
                 --- by exists pt', f', t'.
                 --- apply list_elem_of_singleton in Hin as ->.
                     destruct Hre as (Hf & Ht & _), Hre' as (Hf' & Ht' & _).
                     congruence.
        -- intros pt' f' t' Hin Hre'. apply elem_of_app in Hin as [Hin|Hin].
           ++ by eapply IH.
           ++ apply list_elem_of_singleton in Hin as ->.
              destruct Hre as (Hf & Ht & _), Hre' as (Hf' & Ht' & _). congruence.
    + (* a new key: a new group with this one point *)
      split.
      { rewrite fmap_app. simpl. apply NoDup_app. split_and!; [done| |apply NoDup_singleton].
        intros k Hk Hk'. apply list_elem_of_singleton in Hk' as ->.
        by apply groupMapGet_none in Hget. }
      intros k. rewrite groupMapGet_snoc.
      specialize (IH k). destruct (groupMapGet k m) as [g|] eqn:Hgk.
      * destruct IH as ((f0 & t0 & pt0 & ? & ? & ? & ? & ?) & Hndg & Hset).
        split_and!; [|done|].
        -- exists f0, t0, pt0. split_and!; try done. apply elem_of_app. by left.
        -- intros p. rewrite Hset. split.
           ++ intros (pt' & f' & t' & Hin & ?). exists pt', f', t'.
              split; [apply elem_of_app; by left|done].
           ++ intros (pt' & f' & t' & Hin & Hp & Hre' & Hk').
              apply elem_of_app in Hin as [Hin|Hin].
              ** by exists pt', f', t'.
              ** apply list_elem_of_singleton in Hin as ->.
                 destruct Hre as (Hf & Ht & _), Hre' as (Hf' & Ht' & _).
                 assert (k = f ++ [ARROW] ++ t) as -> by congruence. congruence.
      * destruct (decide (f ++ [ARROW] ++ t = k)) as [<-|Hk].
        -- simpl. split_and!.
           ++ exists f, t, pt. split_and!; try done. apply elem_of_app. right. by left.
           ++ apply NoDup_singleton.
           ++ intros p. rewrite list_elem_of_singleton. split.
              ** intros ->. exists pt, f, t. split_and!; try done.
                 apply elem_of_app. right. by left.
              ** intros (pt' & f' & t' & Hin & Hp & Hre' & Hk').
                 apply elem_of_app in Hin as [Hin|Hin].
                 --- by destruct (IH pt' f' t' Hin Hre').
                 --- by apply list_elem_of_singleton in Hin as ->.
        -- intros pt' f' t' Hin Hre'. apply elem_of_app in Hin as [Hin|Hin].
           ++ by eapply IH.
           ++ apply list_elem_of_singleton in Hin as ->.
              destruct Hre as (Hf & Ht & _), Hre' as (Hf' & Ht' & _). congruence.
Qed.

End Reassignment.

Lemma arrowKey_inj (f f' t t' : str) :
  ARROW ∉ f → ARROW ∉ f' →
  f ++ [ARROW] ++ t = f' ++ [ARROW] ++ t' → f = f' ∧ t = t'.
Proof.
  revert f'. induction f as [|c f IH]; intros [|c' f'] Hf Hf'; simpl.
  - by intros [= ->].
  - intros [= <- _]. destruct Hf'. left.
  - intros [= -> _]. destruct Hf. left.
  - intros [= -> Heq]. apply not_elem_of_cons in Hf as [_ Hf].
    apply not_elem_of_cons in Hf' as [_ Hf'].
    destruct (IH f' Hf Hf' Heq) as [-> ->]. done.
Qed.

Section ReassignmentGroups.

Context {C : Collator}.
Variables (pts : list PointRecord.t) (cur nxt : list str).

Lemma elem_of_computeReassignmentGroups (g : ReassignmentGroup.t) :
  g ∈ computeReassignmentGroups pts cur nxt ↔
  ∃ k e, groupMapGet k (reassignGroupMap pts cur nxt) = Some e ∧
         g = ReassignmentGroup.mk (GroupEntry.from e) (GroupEntry.to e)
               (sortBy localeCompare (GroupEntry.set e)).
Proof.
  destruct (groupMapInvariant_loop cur nxt pts) as [Hnd _].
  unfold computeReassignmentGroups.
  rewrite elem_of_sortBy, list_elem_of_In, in_map_iff. split.
  - intros ([k e] & <- & Hin). exists k, e. split; [|done].
    apply groupMapGet_elem; [done|]. by apply list_elem_of_In.
  - intros (k & e & Hget & ->). exists (k, e). split; [done|].
    apply list_elem_of_In. by apply groupMapGet_elem.
Qed.

(** A point path is listed in some group exactly when one of the points
    with that path has an owner under both lists and the two differ. *)
Lemma computeReassignmentGroups_reported (p : str) :
  (∃ g, g ∈ computeReassignmentGroups pts cur nxt ∧
        p ∈ ReassignmentGroup.pointPaths g) ↔
  ∃ pt f t, pt ∈ pts ∧ PointRecord.path pt = p ∧ reassigned cur nxt pt f t.
Proof.
  destruct (groupMapInvariant_loop cur nxt pts) as [Hnd Hinv]. split.
  - intros (g & Hg & Hp).
    apply elem_of_computeReassignmentGroups in Hg as (k & e & Hget & ->).
    simpl in Hp. apply elem_of_sortBy in Hp.
    specialize (Hinv k). rewrite Hget in Hinv. destruct Hinv as (_ & _ & Hset).
    apply Hset in Hp as (pt & f & t & ? & ? & ? & _). by exists pt, f, t.
  - intros (pt & f & t & Hin & Hp & Hre).
    pose proof (Hinv (f ++ [ARROW] ++ t)) as Hk.
    destruct (groupMapGet (f ++ [ARROW] ++ t) (reassignGroupMap pts cur nxt))
      as [e|] eqn:Hget.
    + destruct Hk as (_ & _ & Hset).
      exists (ReassignmentGroup.mk (GroupEntry.from e) (GroupEntry.to e)
                (sortBy localeCompare (GroupEntry.set e))).
      split.
      * apply elem_of_computeReassignmentGroups. by exists (f ++ [ARROW] ++ t), e.
      * simpl. apply elem_of_sortBy, Hset. by exists pt, f, t.
    + by destruct (Hk pt f t Hin Hre).
Qed.

(** Every group is labelled with two different owners that some point
    really moves between, and lists its point paths without duplicates. *)
Lemma computeReassignmentGroups_labels (g : ReassignmentGroup.t) :
  g ∈ computeReassignmentGroups pts cur nxt →
  NoDup (ReassignmentGroup.pointPaths g) ∧
  ∃ f t pt, ReassignmentGroup.fromDevicePath g = Some f ∧
            ReassignmentGroup.toDevicePath g = Some t ∧
            pt ∈ pts ∧ reassigned cur nxt pt f t.
Proof.
  destruct (groupMapInvariant_loop cur nxt pts) as [Hnd Hinv].
  intros Hg. apply elem_of_computeReassignmentGroups in Hg as (k & e & Hget & ->).
  specialize (Hinv k). rewrite Hget in Hinv.
  destruct Hinv as ((f & t & pt & ? & ? & ? & ? & ?) & Hndg & _). simpl.
  split; [by apply NoDup_sortBy|]. by exists f, t, pt.
Qed.

(** Where no current device path contains the arrow character, a group
    holds exactly the points that move between its two owners, and there
    is one group for each pair of owners. *)
Lemma computeReassignmentGroups_by_pair (g : ReassignmentGroup.t) (f t : str) :
  (∀ d, d ∈ cur → ARROW ∉ d) →
  g ∈ computeReassignmentGroups pts cur nxt →
  ReassignmentGroup.fromDevicePath g = Some f →
  ReassignmentGroup.toDevicePath g = Some t →
  (∀ p, p ∈ ReassignmentGroup.pointPaths g ↔
        ∃ pt, pt ∈ pts ∧ PointRecord.path pt = p ∧ reassigned cur nxt pt f t) ∧
  (∀ g', g' ∈ computeReassignmentGroups pts cur nxt →
         ReassignmentGroup.fromDevicePath g' = Some f →
         ReassignmentGroup.toDevicePath g' = Some t → g' = g).
Proof.
  intros Harrow Hg Hf Ht.
  destruct (groupMapInvariant_loop cur nxt pts) as [Hnd Hinv].
  assert (∀ pt a b, reassigned cur nxt pt a b → ARROW ∉ a) as Hown.
  { intros pt a b (Ha & _). apply computeOwnerDevice_some in Ha as (i & Hi & _).
    apply list_elem_of_lookup_2 in Hi. by apply Harrow. }
  apply elem_of_computeReassignmentGroups in Hg as (k & e & Hget & ->).
  simpl in Hf, Ht.
  pose proof (Hinv k) as Hk. rewrite Hget in Hk.
  destruct Hk as ((f0 & t0 & pt0 & Hf0 & Ht0 & -> & Hpt0 & Hre0) & _ & Hset).
  assert (f0 = f) as -> by congruence. assert (t0 = t) as -> by congruence.
  split.
  - intros p. simpl. rewrite elem_of_sortBy, Hset. split.
    + intros (pt & f' & t' & Hin & Hp & Hre & Hkey).
      apply arrowKey_inj in Hkey as [-> ->]; [by exists pt|by eapply Hown..].
    + intros (pt & Hin & Hp & Hre). by exists pt, f, t.
  - intros g' Hg' Hf' Ht'.
    apply elem_of_computeReassignmentGroups in Hg' as (k' & e' & Hget' & ->).
    simpl in Hf', Ht'.
    pose proof (Hinv k') as Hk'. rewrite Hget' in Hk'.
    destruct Hk' as ((f1 & t1 & pt1 & Hf1 & Ht1 & -> & _) & _).
    assert (f1 = f) as -> by congruence. assert (t1 = t) as -> by congruence.
    assert (e' = e) as -> by congruence. done.
Qed.

End ReassignmentGroups.

(** The point paths of every group are sorted ascending. *)
Lemma computeReassignmentGroups_sorted {C : Collator} {CC : ConsistentCollator C}
    (pts : list PointRecord.t) (cur nxt : list str) (g : ReassignmentGroup.t) :
  g ∈ computeReassignmentGroups pts cur nxt →
  ascending (ReassignmentGroup.pointPaths g).
Proof.
  intros Hg. apply elem_of_computeReassignmentGroups in Hg as (k & e & _ & ->).
  simpl. apply sortBy_ascending.
Qed.

(** C5. The group key is the text [from→to], and two different pairs of
    owners can spell the same key. With folders named a, b→root and
    a→root, the devices root/a and root/a→root/a/b (current) and
    root/a/b→root/a→root/a and root/a→root/a (next), the point
    a/b→root/a→root/a/pt1 moves from root/a to root/a/b→root/a→root/a
    and the point a→root/a/b/pt2 moves from root/a→root/a/b to
    root/a→root/a; both keys read
    root/a→root/a/b→root/a→root/a, so the code builds one group, labelled
    with the first pair, that lists both points (the group map does not
    depend on the collation; the sorted result is shown for the code-unit
    order). *)
Theorem computeReassignmentGroups_key_collision :
  let d1 := lit "root/a" in
  let d2 := lit "root/a" ++ [ARROW] ++ lit "root/a/b" in
  let d3 := lit "root/a/b" ++ [ARROW] ++ lit "root/a" ++ [ARROW] ++ lit "root/a" in
  let d4 := lit "root/a" ++ [ARROW] ++ lit "root/a" in
  let p1 := PointRecord.mk
              (lit "a/b" ++ [ARROW] ++ lit "root/a" ++ [ARROW] ++ lit "root/a/pt1")
              (lit "Points") in
  let p2 := PointRecord.mk (lit "a" ++ [ARROW] ++ lit "root/a/b/pt2") (lit "Points") in
  let currentDevices := [d1; d2] in
  let nextDevices := [d3; d4] in
  deviceSetInvariant currentDevices ∧ deviceSetInvariant nextDevices ∧
  reassigned currentDevices nextDevices p1 d1 d3 ∧
  reassigned currentDevices nextDevices p2 d2 d4 ∧
  (d1, d3) ≠ (d2, d4) ∧
  arrowKey [EMPTYSET] (Some d1) (Some d3) = arrowKey [EMPTYSET] (Some d2) (Some d4) ∧
  reassignGroupMap [p1; p2] currentDevices nextDevices
    = [(arrowKey [EMPTYSET] (Some d1) (Some d3),
        GroupEntry.mk (Some d1) (Some d3) [PointRecord.path p1; PointRecord.path p2])] ∧
  computeReassignmentGroups [p1; p2] currentDevices nextDevices
    = [ReassignmentGroup.mk (Some d1) (Some d3)
         [PointRecord.path p1; PointRecord.path p2]].
Proof.
  intros d1 d2 d3 d4 p1 p2 currentDevices nextDevices.
  assert (∀ a b : str, getPathRelation a b = disjoint →
            getPathRelation b a = disjoint →
            deviceSetInvariant [a; b]) as Hpair.
  { intros a b Hab Hba p q Hp Hq Hne.
    apply elem_of_cons in Hp as [->|Hp]; apply elem_of_cons in Hq as [->|Hq];
      try apply list_elem_of_singleton in Hp as ->;
      try apply list_elem_of_singleton in Hq as ->;
      try done; by rewrite ?Hab, ?Hba. }
  split; [apply Hpair; by vm_compute|].
  split; [apply Hpair; by vm_compute|].
  split; [split_and!; by vm_compute|].
  split; [split_and!; by vm_compute|].
  split; [by vm_compute|].
  split; [by vm_compute|].
  split; by vm_compute.
Qed.

(** ** The examples of the specification, run on the model *)

(** Example 1: marking root/A as a device assigns root/A/1 and root/A/2 to
    it and leaves root/B/1 unassigned. *)
Example example_mark_single_device :
  let pts := [PointRecord.mk (lit "root/A/1") (lit "Points");
              PointRecord.mk (lit "root/A/2") (lit "Points");
              PointRecord.mk (lit "root/B/1") (lit "Points")] in
  let st := mkApp (Some (lit "csv")) (lit "path") pts [] [] ∅ [lit "root/A"] []
              None ∅ None [] ∅ in
  let st' := markSelectionAsDevices st in
  devicePaths st' = [lit "root/A"] ∧ pendingConflict st' = None ∧
  map (fun pt => computeOwnerDevice (PointRecord.path pt) (devicePaths st')) pts
    = [Some (lit "root/A"); Some (lit "root/A"); None].
Proof. by vm_compute. Qed.

(** Example 2: with the device root/A, marking root/A/sub stages a plan
    that removes root/A, adds root/A/sub and reports the one point below
    root/A/sub as moving from root/A to root/A/sub; the point outside it
    becomes unassigned and is not reported. Confirming applies the plan. *)
Example example_downstream_device :
  let pts := [PointRecord.mk (lit "root/A/sub/1") (lit "Points");
              PointRecord.mk (lit "root/A/2") (lit "Points")] in
  let st := mkApp (Some (lit "csv")) (lit "path") pts [lit "root/A"] [] ∅
              [lit "root/A/sub"] [] None ∅ None [] ∅ in
  let st' := markSelectionAsDevices st in
  devicePaths st' = [lit "root/A"] ∧
  pendingConflict st' =
    Some (PendingDeviceConflict.mk [lit "root/A/sub"] [lit "root/A"] []
            [lit "root/A"] []
            [ReassignmentGroup.mk (Some (lit "root/A")) (Some (lit "root/A/sub"))
               [lit "root/A/sub/1"]]) ∧
  devicePaths (confirmDeviceConflict st') = [lit "root/A/sub"] ∧
  computeOwnerDevice (lit "root/A/2") (devicePaths (confirmDeviceConflict st')) = None.
Proof. by vm_compute. Qed.

(** Example 4: hiding root/A and then root/A/B leaves only root/A. *)
Example example_hidden_minimal :
  let tree : gset str := {[lit "root"; lit "root/A"; lit "root/A/B"]} in
  normalizeHiddenFolderPaths tree
    (normalizeHiddenFolderPaths tree [lit "root/A"] ++ [lit "root/A/B"])
  = [lit "root/A"].
Proof. by vm_compute. Qed.

(* ===================================================================== *)
(** * Further properties of the code *)
(* ===================================================================== *)

(** ** Splitting and joining *)

Section SplitJoin.

Variable sep : N.
Implicit Types (s seg : str) (segs : list str).

Lemma split_nonempty s : split sep s ≠ [].
Proof.
  destruct s as [|c s]; simpl; [done|].
  destruct (c =? sep)%N; [done|]. by destruct (split sep s).
Qed.

Lemma join_cons seg segs :
  segs ≠ [] → join sep (seg :: segs) = seg ++ sep :: join sep segs.
Proof. by destruct segs. Qed.

Lemma join_split s : join sep (split sep s) = s.
Proof.
  induction s as [|c s IH]; [done|]. simpl.
  pose proof (split_nonempty s) as Hne.
  destruct (N.eqb_spec c sep) as [->|Hc].
  - rewrite join_cons by done. by rewrite IH.
  - destruct (split sep s) as [|seg segs]; [done|].
    destruct segs as [|seg' segs].
    + simpl in *. by rewrite IH.
    + rewrite join_cons by done. rewrite join_cons in IH by done.
      by rewrite <- IH.
Qed.

Lemma split_app_sep seg s :
  sep ∉ seg → split sep (seg ++ sep :: s) = seg :: split sep s.
Proof.
  induction seg as [|c seg IH]; intros Hseg; simpl.
  - by rewrite N.eqb_refl.
  - apply not_elem_of_cons in Hseg as [Hc Hseg].
    destruct (N.eqb_spec c sep) as [->|_]; [done|].
    by rewrite IH.
Qed.

Lemma split_no_sep seg : sep ∉ seg → split sep seg = [seg].
Proof.
  induction seg as [|c seg IH]; intros Hseg; simpl; [done|].
  apply not_elem_of_cons in Hseg as [Hc Hseg].
  destruct (N.eqb_spec c sep) as [->|_]; [done|].
  by rewrite IH.
Qed.

Lemma split_join segs :
  segs ≠ [] → (∀ seg, seg ∈ segs → sep ∉ seg) → split sep (join sep segs) = segs.
Proof.
  induction segs as [|seg segs IH]; intros Hne Hall; [done|].
  destruct segs as [|seg' segs].
  - simpl. apply split_no_sep, Hall. left.
  - rewrite join_cons by done. rewrite split_app_sep by (apply Hall; left).
    f_equal. apply IH; [done|]. intros x Hx. apply Hall. by right.
Qed.

Lemma split_pieces_no_sep s seg : seg ∈ split sep s → sep ∉ seg.
Proof.
  revert seg. induction s as [|c s IH]; intros seg; simpl.
  - intros Hin. apply list_elem_of_singleton in Hin as ->. apply not_elem_of_nil.
  - destruct (N.eqb_spec c sep) as [->|Hc].
    + intros Hin. apply elem_of_cons in Hin as [->|Hin]; [apply not_elem_of_nil|].
      by apply IH.
    + pose proof (split_nonempty s) as Hne.
      destruct (split sep s) as [|seg0 segs]; [done|].
      intros Hin. apply elem_of_cons in Hin as [->|Hin].
      * apply not_elem_of_cons. split; [congruence|]. apply IH. left.
      * apply IH. by right.
Qed.

Lemma split_pieces_chars s seg c : seg ∈ split sep s → c ∈ seg → c ∈ s.
Proof.
  revert seg. induction s as [|x s IH]; intros seg; simpl.
  - intros Hin. apply list_elem_of_singleton in Hin as ->. done.
  - destruct (N.eqb_spec x sep) as [->|Hx].
    + intros Hin Hc. apply elem_of_cons in Hin as [->|Hin].
      * by apply elem_of_nil in Hc.
      * right. by apply (IH seg).
    + pose proof (split_nonempty s) as Hne.
      destruct (split sep s) as [|seg0 segs]; [done|].
      intros Hin Hc. apply elem_of_cons in Hin as [->|Hin].
      * apply elem_of_cons in Hc as [->|Hc]; [left|right].
        apply (IH seg0); [left|done].
      * right. apply (IH seg); [by right|done].
Qed.

End SplitJoin.

(** X1. Splitting and joining on a separator are inverse: joining the
    pieces of a string gives the string back, no piece of a split
    contains the separator, and splitting the join of a non-empty list of
    pieces that do not contain the separator gives the pieces back. *)
Theorem split_join_roundtrip (sep : N) :
  (∀ s, join sep (split sep s) = s) ∧
  (∀ s seg, seg ∈ split sep s → sep ∉ seg) ∧
  (∀ s, split sep s ≠ []) ∧
  (∀ segs, segs ≠ [] → (∀ seg, seg ∈ segs → sep ∉ seg) →
           split sep (join sep segs) = segs).
Proof.
  split_and!.
  - apply join_split.
  - apply split_pieces_no_sep.
  - apply split_nonempty.
  - apply split_join.
Qed.

(** ** The segments of a path *)

Lemma trimStart_chars (s : str) (c : N) : c ∈ trimStart s → c ∈ s.
Proof.
  destruct (trimStart_suffix s) as [k Hk]. intros Hc.
  rewrite Hk. apply elem_of_app. by right.
Qed.

Lemma trim_chars (s : str) (c : N) : c ∈ trim s → c ∈ s.
Proof.
  unfold trim. destruct (trimEnd_prefix (trimStart s)) as [k Hk]. intros Hc.
  apply trimStart_chars. rewrite Hk. apply elem_of_app. by left.
Qed.

Lemma backslashesToSlashes_none (s : str) : BACKSLASH ∉ backslashesToSlashes s.
Proof.
  unfold backslashesToSlashes. rewrite list_elem_of_In, in_map_iff.
  intros (c & Hc & _). by destruct (N.eqb_spec c BACKSLASH).
Qed.

Lemma collapseSlashes_chars (s : str) (c : N) : c ∈ collapseSlashes s → c ∈ s.
Proof.
  induction s as [|x s IH]; [done|]. simpl.
  destruct (x =? SLASH)%N.
  - destruct s as [|y s]; [done|].
    destruct (y =? SLASH)%N.
    + intros Hc. right. by apply IH.
    + intros Hc. apply elem_of_cons in Hc as [->|Hc]; [left|right; by apply IH].
  - intros Hc. apply elem_of_cons in Hc as [->|Hc]; [left|right; by apply IH].
Qed.

Lemma normalizePath_no_backslash (v : str) : BACKSLASH ∉ normalizePath v.
Proof.
  unfold normalizePath. intros Hc. apply collapseSlashes_chars in Hc.
  by apply backslashesToSlashes_none in Hc.
Qed.

Lemma elem_of_rawSegments (v seg : str) :
  seg ∈ rawSegments v →
  seg ≠ [] ∧ trim seg = seg ∧ (SLASH ∉ seg) ∧ (BACKSLASH ∉ seg).
Proof.
  unfold rawSegments. rewrite list_elem_of_filter, truthy_true.
  rewrite list_elem_of_In, in_map_iff.
  intros [Hne (piece & <- & Hpiece)]. apply list_elem_of_In in Hpiece.
  split_and!; [done|apply trim_idemp| |].
  - intros Hc. apply trim_chars in Hc.
    by apply (split_pieces_no_sep SLASH) in Hpiece.
  - intros Hc. apply trim_chars in Hc.
    apply (split_pieces_chars SLASH _ _ _ Hpiece) in Hc.
    by apply normalizePath_no_backslash in Hc.
Qed.

Lemma toComparableSegments_raw (v : str) :
  toComparableSegments v = stripRootPrefix (rawSegments v).
Proof. done. Qed.

Lemma stripRootPrefix_subset (segs : list str) (seg : str) :
  seg ∈ stripRootPrefix segs → seg ∈ segs.
Proof.
  destruct segs as [|x segs]; simpl; [done|].
  destruct (decide (x = lit "root")); [by right|done].
Qed.

(** X2. Every segment by which paths are compared is in normal form: it
    is not empty, it is trimmed, and it contains neither a slash nor a
    backslash. *)
Theorem comparable_segments_normal (value seg : str) :
  seg ∈ toComparableSegments value →
  seg ≠ [] ∧ trim seg = seg ∧ (SLASH ∉ seg) ∧ (BACKSLASH ∉ seg).
Proof.
  intros Hin. apply (elem_of_rawSegments value).
  rewrite toComparableSegments_raw in Hin. by apply stripRootPrefix_subset.
Qed.

Lemma comparable_segments_normal_witness :
  lit "b c" ∈ toComparableSegments (lit " root\a// b c /d ") ∧
  trim (lit "b c") = lit "b c".
Proof.
  assert (lit "b c" ∈ toComparableSegments (lit " root\a// b c /d ")) as Hin.
  { vm_compute. right. left. }
  split; [done|].
  by destruct (comparable_segments_normal _ _ Hin) as (_ & ? & _).
Defined.

(** ** The algebra of path relations *)

Lemma relateSegments_swap (a b : list str) :
  relateSegments b a =
    match relateSegments a b with
    | same => same
    | ancestor => descendant
    | descendant => ancestor
    | disjoint => disjoint
    end.
Proof.
  destruct (relateSegments a b) eqn:Hrel.
  - apply relateSegments_same in Hrel as [Hne <-]. by apply relateSegments_same.
  - by apply relateSegments_flip.
  - by apply relateSegments_flip.
  - apply relateSegments_disjoint. apply relateSegments_disjoint in Hrel.
    destruct Hrel as [?|[?|(i & x & y & ? & ? & ?)]]; [tauto..|].
    right; right. by exists i, y, x.
Qed.

(** X3. Swapping the two arguments of [getPathRelation] swaps ancestor
    and descendant and keeps same and disjoint, for every pair of strings
    (root-only and empty paths included). *)
Theorem getPathRelation_inverse (a b : str) :
  getPathRelation b a =
    match getPathRelation a b with
    | same => same
    | ancestor => descendant
    | descendant => ancestor
    | disjoint => disjoint
    end.
Proof.
  unfold getPathRelation.
  pose proof (relateSegments_swap (toComparableSegments a) (toComparableSegments b)) as H.
  destruct (relateSegments (toComparableSegments a) (toComparableSegments b)); exact H.
Qed.

Lemma qualifies_trans (a b c : str) :
  qualifies a b = true → qualifies b c = true → qualifies a c = true.
Proof.
  rewrite !qualifies_prefix. intros [Ha Hab] [Hb Hbc]. split; [done|].
  by etrans.
Qed.

Lemma getPathRelation_ancestor_prefix (a b : str) :
  getPathRelation a b = ancestor ↔
  toComparableSegments a ≠ [] ∧
  toComparableSegments a `prefix_of` toComparableSegments b ∧
  toComparableSegments a ≠ toComparableSegments b.
Proof. apply relateSegments_ancestor. Qed.

Lemma getPathRelation_same_segments (a b : str) :
  getPathRelation a b = same ↔
  toComparableSegments a ≠ [] ∧ toComparableSegments a = toComparableSegments b.
Proof. apply relateSegments_same. Qed.

Lemma prefix_antisym (a b : list str) : a `prefix_of` b → b `prefix_of` a → a = b.
Proof.
  intros Hab Hba. apply prefix_length_eq_inv; [done|].
  apply prefix_length in Hab, Hba. lia.
Qed.

(** X4. Containment composes: if [a] is the same folder as or an ancestor
    of [b], and [b] of [c], then so is [a] of [c]; and [a] is a strict
    ancestor of [c] as soon as one of the two steps is strict. *)
Theorem getPathRelation_transitive (a b c : str) :
  qualifies a b = true → qualifies b c = true →
  qualifies a c = true ∧
  (getPathRelation a b = ancestor ∨ getPathRelation b c = ancestor →
   getPathRelation a c = ancestor) ∧
  (getPathRelation a b = same → getPathRelation b c = same →
   getPathRelation a c = same).
Proof.
  intros Hab Hbc. split; [by apply (qualifies_trans a b c)|].
  apply qualifies_prefix in Hab as [Ha Hpab]. apply qualifies_prefix in Hbc as [Hb Hpbc].
  split.
  - intros Hstrict. apply getPathRelation_ancestor_prefix.
    split_and!; [done|by etrans|]. intros Heq.
    destruct Hstrict as [H|H]; apply getPathRelation_ancestor_prefix in H as (_ & _ & Hne);
      apply Hne, prefix_antisym; try done.
    + by rewrite Heq.
    + by rewrite <- Heq.
  - intros H1 H2. apply getPathRelation_same_segments in H1 as [_ H1].
    apply getPathRelation_same_segments in H2 as [_ H2].
    apply getPathRelation_same_segments. split; [done|congruence].
Qed.

Lemma getPathRelation_transitive_witness :
  getPathRelation (lit "root/a") (lit "a\b/c/pt") = ancestor.
Proof.
  apply (getPathRelation_transitive (lit "root/a") (lit "root/a/b") (lit "a\b/c/pt"));
    [reflexivity|reflexivity|]. left. reflexivity.
Defined.

(** ** Ownership under the Device-Set invariant *)

(** X5. With a Device Set that satisfies the Device-Set invariant, all the
    devices that contain a point name one and the same folder as the
    owner that [computeOwnerDevice] returns; and when the devices are
    pairwise disjoint, the owner is the only device that contains the
    point. *)
Theorem owner_folder_unique (pointPath d : str) (devices : list str) :
  deviceSetInvariant devices →
  computeOwnerDevice pointPath devices = Some d →
  (∀ d', d' ∈ devices → qualifies d' pointPath = true →
         toComparableSegments d' = toComparableSegments d) ∧
  (pairwiseDisjoint devices →
   ∀ d', d' ∈ devices → qualifies d' pointPath = true → d' = d).
Proof.
  intros Hinv Hd. apply computeOwnerDevice_some in Hd as (i & Hi & Hq & _).
  apply list_elem_of_lookup_2 in Hi. split.
  - intros d' Hd' Hq'. destruct (decide (d' = d)) as [->|Hne]; [done|].
    destruct (Hinv d' d Hd' Hi Hne) as [Hna Hnd].
    pose proof (qualifying_overlap pointPath d' d Hq' Hq) as Hov.
    destruct (getPathRelation d' d) eqn:Hrel; try done.
    by apply getPathRelation_same_segments in Hrel as [_ ?].
  - intros Hdisj d' Hd' Hq'. destruct (decide (d' = d)) as [->|Hne]; [done|].
    destruct (qualifying_overlap pointPath d' d Hq' Hq). by apply Hdisj.
Qed.

Lemma owner_folder_unique_witness :
  computeOwnerDevice (lit "root/A/sub/pt") [lit "root/A/sub"; lit "A//sub"; lit "root/B"]
  = Some (lit "root/A/sub") ∧
  toComparableSegments (lit "A//sub") = toComparableSegments (lit "root/A/sub").
Proof.
  split; [reflexivity|].
  apply (owner_folder_unique (lit "root/A/sub/pt") (lit "root/A/sub")
           [lit "root/A/sub"; lit "A//sub"; lit "root/B"]).
  - apply deviceSetInvariant_alt. intros p q Hp Hq.
    repeat (apply elem_of_cons in Hp as [->|Hp]);
      try (by apply elem_of_nil in Hp);
      repeat (apply elem_of_cons in Hq as [->|Hq]);
      try (by apply elem_of_nil in Hq);
      unfold conflicting; vm_compute; by intros [?|?].
  - reflexivity.
  - apply elem_of_cons. right. apply elem_of_cons. by left.
  - reflexivity.
Defined.

(** ** Strict descent *)

Lemma isDownstream_relation (path : str) (ancestorPaths : list str) :
  isDownstreamOfAnyFolderPath path ancestorPaths = true ↔
  ∃ h, h ∈ ancestorPaths ∧ getPathRelation h path = ancestor.
Proof.
  unfold isDownstreamOfAnyFolderPath.
  setoid_rewrite getPathRelation_ancestor_prefix.
  destruct (toComparableSegments path) as [|s ps] eqn:Hp; cbn [length Nat.eqb].
  - split; [done|]. intros (h & _ & Hne & Hpre & _).
    by apply prefix_nil_inv in Hpre.
  - rewrite existsb_exists. split.
    + intros (h & Hin & H). exists h. rewrite list_elem_of_In. split; [done|].
      destruct (toComparableSegments h) as [|x anc]; [done|].
      cbn [length Nat.eqb] in H. split; [done|].
      destruct (Nat.leb_spec (S (length ps)) (S (length anc))) as [|Hlt]; [done|].
      split; [by apply ancestorSegmentsMatch_prefix|].
      intros Heq. apply (f_equal length) in Heq. simpl in Heq. lia.
    + intros (h & Hin & Hne & Hpre & Hneq). exists h. rewrite <- list_elem_of_In.
      split; [done|].
      destruct (toComparableSegments h) as [|x anc]; [done|].
      cbn [length Nat.eqb].
      destruct (Nat.leb_spec (S (length ps)) (S (length anc))) as [Hle|Hlt].
      * destruct Hneq. apply prefix_length_eq_inv; [done|].
        apply prefix_length in Hpre. simpl in *. lia.
      * by apply ancestorSegmentsMatch_prefix.
Qed.

(** X6. A path is downstream of a list of folders exactly when one of them
    is a strict ancestor of it; it is at or downstream exactly when it is
    downstream or one of the folders is the same folder. *)
Theorem downstream_is_strict_ancestor (path : str) (ancestorPaths : list str) :
  (isDownstreamOfAnyFolderPath path ancestorPaths = true ↔
   ∃ h, h ∈ ancestorPaths ∧ getPathRelation h path = ancestor) ∧
  (isAtOrDownstreamOfAnyFolderPath path ancestorPaths = true ↔
   isDownstreamOfAnyFolderPath path ancestorPaths = true ∨
   ∃ h, h ∈ ancestorPaths ∧ getPathRelation h path = same).
Proof.
  split; [apply isDownstream_relation|].
  rewrite isAtOrDownstream_relation, isDownstream_relation. split.
  - intros (h & Hin & [H|H]); [left|right]; by exists h.
  - intros [(h & Hin & H)|(h & Hin & H)]; exists h; auto.
Qed.

(** ** Decoding segment names *)





(** ** Listing the points under a folder *)

Lemma prefix_removelast (a b : list str) :
  a `prefix_of` removelast b ↔ a `prefix_of` b ∧ (a ≠ b ∨ b = []).
Proof.
  destruct (decide (b = [])) as [->|Hb].
  { simpl. split; [intros H; split; [done|by right]|by intros [? _]]. }
  destruct (exists_last Hb) as (b' & x & ->).
  rewrite removelast_last. split.
  - intros Hp. split; [by apply prefix_app_r|]. left. intros ->.
    apply prefix_length in Hp. rewrite length_app in Hp. simpl in Hp. lia.
  - intros [[k Hk] [Hne|Hnil]]; [|by destruct b'].
    destruct (decide (k = [])) as [->|Hkne].
    { rewrite app_nil_r in Hk. by destruct Hne. }
    destruct (exists_last Hkne) as (k' & y & ->).
    rewrite app_assoc in Hk. apply app_inj_tail in Hk as [-> _].
    by apply prefix_app_r.
Qed.

Lemma leafUnderFolder_some (folderSegs : list str) (p leaf : str) :
  leafUnderFolder folderSegs p = Some leaf ↔
  2 ≤ length (toComparableSegments p) ∧
  folderSegs `prefix_of` removelast (toComparableSegments p) ∧
  last (toComparableSegments p) = Some leaf.
Proof.
  unfold leafUnderFolder.
  destruct (Nat.leb_spec (length (toComparableSegments p)) 1) as [Hle|Hgt].
  - split; [done|]. intros [? _]. lia.
  - destruct (ancestorSegmentsMatch _ _) eqn:Hm.
    + apply ancestorSegmentsMatch_prefix in Hm. split; [|by intros (_ & _ & ?)].
      intros Hl. split_and!; [lia|done|done].
    + split; [done|]. intros (_ & Hp & _).
      apply ancestorSegmentsMatch_prefix in Hp. congruence.
Qed.

Section Listing.

Context {C : Collator}.

Lemma elem_of_listLeafPointsUnderFolder (folderPath : str) (fullPaths : list str)
    (leaf : str) :
  leaf ∈ listLeafPointsUnderFolder folderPath fullPaths ↔
  ∃ p, p ∈ fullPaths ∧
       leafUnderFolder (listingFolderSegments folderPath) p = Some leaf.
Proof.
  unfold listLeafPointsUnderFolder. rewrite elem_of_sortBy.
  generalize (listingFolderSegments folderPath). intros fs.
  assert (∀ out, leaf ∈ foldl (fun out p =>
                                 match leafUnderFolder fs p with
                                 | Some leaf => setAdd out leaf
                                 | None => out
                                 end) out fullPaths ↔
                 leaf ∈ out ∨ ∃ p, p ∈ fullPaths ∧ leafUnderFolder fs p = Some leaf) as H.
  { induction fullPaths as [|q l IH]; intros out; simpl.
    - split; [auto|]. intros [?|(p & Hp & _)]; [done|by apply elem_of_nil in Hp].
    - rewrite IH. split.
      + intros [Hin|(p & Hp & Hl)].
        * destruct (leafUnderFolder fs q) as [lf|] eqn:E; [|by left].
          apply elem_of_setAdd in Hin as [?| ->]; [by left|].
          right. exists q. split; [left|done].
        * right. exists p. split; [by right|done].
      + intros [Hin|(p & Hp & Hl)].
        * left. destruct (leafUnderFolder fs q); [|done].
          apply elem_of_setAdd. by left.
        * apply elem_of_cons in Hp as [->|Hp]; [|right; by exists p].
          left. rewrite Hl. apply elem_of_setAdd. by right. }
  rewrite H, elem_of_nil. tauto.
Qed.

Lemma NoDup_listLeafPointsUnderFolder (folderPath : str) (fullPaths : list str) :
  NoDup (listLeafPointsUnderFolder folderPath fullPaths).
Proof.
  unfold listLeafPointsUnderFolder. apply NoDup_sortBy.
  generalize (listingFolderSegments folderPath). intros fs.
  assert (∀ out, NoDup out →
                 NoDup (foldl (fun out p =>
                                 match leafUnderFolder fs p with
                                 | Some leaf => setAdd out leaf
                                 | None => out
                                 end) out fullPaths)) as H.
  { induction fullPaths as [|q l IH]; intros out Hout; simpl; [done|].
    apply IH. destruct (leafUnderFolder fs q); [by apply NoDup_setAdd|done]. }
  apply H, NoDup_nil_2.
Qed.

(** X8. For a folder whose segments are already trimmed (as the paths of
    tree nodes are) and not root-only, the listing holds exactly the leaf
    names of the given paths that the folder is a strict ancestor of; it
    has no duplicates and is sorted ascending. *)
Theorem listLeafPointsUnderFolder_under {CC : ConsistentCollator C}
    (folderPath : str) (fullPaths : list str) :
  listingFolderSegments folderPath = toComparableSegments folderPath →
  toComparableSegments folderPath ≠ [] →
  (∀ leaf, leaf ∈ listLeafPointsUnderFolder folderPath fullPaths ↔
           ∃ p, p ∈ fullPaths ∧ getPathRelation folderPath p = ancestor ∧
                last (toComparableSegments p) = Some leaf) ∧
  NoDup (listLeafPointsUnderFolder folderPath fullPaths) ∧
  ascending (listLeafPointsUnderFolder folderPath fullPaths).
Proof.
  intros Hsegs Hne. split_and!.
  - intros leaf. rewrite elem_of_listLeafPointsUnderFolder, Hsegs.
    apply exist_proper. intros p. apply and_iff_compat_l.
    rewrite leafUnderFolder_some, getPathRelation_ancestor_prefix, prefix_removelast.
    split.
    + intros (Hlen & [Hpre [Hneq|Hnil]] & Hlast); [done|].
      rewrite Hnil in Hlen. simpl in Hlen. lia.
    + intros ((_ & Hpre & Hneq) & Hlast).
      split; [|split; [split; [done|by left]|done]].
      destruct Hpre as [k Hk]. rewrite Hk, length_app.
      destruct (toComparableSegments folderPath) as [|x f]; [done|].
      destruct k; [by rewrite app_nil_r in Hk|simpl; lia].
  - apply NoDup_listLeafPointsUnderFolder.
  - apply sortBy_ascending.
Qed.

End Listing.

Lemma listLeafPointsUnderFolder_under_witness :
  listLeafPointsUnderFolder (lit "root/A")
    [lit "A/z"; lit "root/A/b/y"; lit "B/x"; lit "A"; lit " A / z "]
  = [lit "y"; lit "z"] ∧
  NoDup (listLeafPointsUnderFolder (lit "root/A")
           [lit "A/z"; lit "root/A/b/y"; lit "B/x"; lit "A"; lit " A / z "]).
Proof.
  split; [by vm_compute|].
  apply (listLeafPointsUnderFolder_under (CC := codeUnitCollator_consistent));
    by vm_compute.
Defined.

(** ** Listing the points under a folder by type *)

Section TypeMap.

Implicit Types (m : list (str * list str)) (k leaf : str).

Lemma typeMapGet_snoc k k' (s : list str) m :
  typeMapGet k (m ++ [(k', s)]) =
    match typeMapGet k m with
    | Some x => Some x
    | None => if decide (k' = k) then Some s else None
    end.
Proof.
  induction m as [|[k0 s0] m IH]; simpl; [done|].
  by destruct (decide (k0 = k)).
Qed.

Lemma typeMapGet_add k k' leaf m :
  typeMapGet k' (typeMapAdd k leaf m) =
    if decide (k' = k) then (fun s => setAdd s leaf) <$> typeMapGet k m
    else typeMapGet k' m.
Proof.
  induction m as [|[k0 s0] m IH]; simpl.
  - by destruct (decide (k' = k)).
  - destruct (decide (k0 = k)) as [->|Hne]; simpl.
    + destruct (decide (k = k')) as [->|Hne'].
      * by rewrite decide_True.
      * by rewrite decide_False by congruence.
    + destruct (decide (k0 = k')) as [->|Hne'].
      * by rewrite decide_False by congruence.
      * by rewrite IH.
Qed.

Lemma typeMapAdd_keys k leaf m : (typeMapAdd k leaf m).*1 = m.*1.
Proof.
  induction m as [|[k0 s0] m IH]; [done|]. cbn [typeMapAdd].
  destruct (decide (k0 = k)); rewrite !fmap_cons; [done|]. by rewrite IH.
Qed.

Lemma typeMapGet_none k m : typeMapGet k m = None ↔ k ∉ m.*1.
Proof.
  induction m as [|[k0 s0] m IH]; simpl.
  - split; [|done]. intros _. apply not_elem_of_nil.
  - rewrite not_elem_of_cons. destruct (decide (k0 = k)) as [->|Hne].
    + split; [done|]. by intros [? _].
    + rewrite IH. split; [|by intros [_ ?]]. intros ?. split; [congruence|done].
Qed.

Lemma typeMapGet_elem k (s : list str) m :
  NoDup m.*1 → (k, s) ∈ m ↔ typeMapGet k m = Some s.
Proof.
  induction m as [|[k0 s0] m IH]; simpl; intros Hnd.
  - split; [|done]. intros H. by apply elem_of_nil in H.
  - apply NoDup_cons in Hnd as [Hk0 Hnd]. rewrite elem_of_cons.
    destruct (decide (k0 = k)) as [->|Hne].
    + split.
      * intros [[= ->]|Hin]; [done|]. destruct Hk0.
        apply list_elem_of_fmap. by exists (k, s).
      * intros [= ->]. by left.
    + rewrite <- IH by done. split; [|by right].
      intros [[= -> ->]|?]; done.
Qed.

End TypeMap.

Lemma typeLabelOf_nonempty (row : PointRecord.t) : typeLabelOf row ≠ [].
Proof.
  unfold typeLabelOf. destruct (truthy (trim (PointRecord.type row))) eqn:E.
  - by apply truthy_true.
  - done.
Qed.

Section ByType.

Variables (folderPath : str) (pts : list PointRecord.t).

Let fs := listingFolderSegments folderPath.

Lemma pointsByTypeMap_invariant (rows : list PointRecord.t) :
  let m := foldl (typeMapStep fs) [] rows in
  NoDup m.*1 ∧
  ∀ k, match typeMapGet k m with
       | None => ∀ row leaf, row ∈ rows →
                             leafUnderFolder fs (PointRecord.path row) = Some leaf →
                             typeLabelOf row ≠ k
       | Some s =>
           s ≠ [] ∧ NoDup s ∧
           ∀ leaf, leaf ∈ s ↔
                   ∃ row, row ∈ rows ∧ typeLabelOf row = k ∧
                          leafUnderFolder fs (PointRecord.path row) = Some leaf
       end.
Proof.
  induction rows as [|row rows IH] using rev_ind.
  - split; [constructor|]. intros k. simpl. intros row leaf Hrow.
    by apply elem_of_nil in Hrow.
  - cbv zeta in IH |- *. rewrite foldl_app. simpl.
    set (m := foldl (typeMapStep fs) [] rows) in *.
    destruct IH as [Hnd IH]. unfold typeMapStep.
    destruct (leafUnderFolder fs (PointRecord.path row)) as [lf|] eqn:Hlf.
    2:{ split; [done|]. intros k. specialize (IH k).
        destruct (typeMapGet k m) as [s|].
        - destruct IH as (Hne & Hnds & Hset). split_and!; [done..|].
          intros leaf. rewrite Hset. split.
          + intros (r & Hr & ?). exists r. split; [apply elem_of_app; by left|done].
          + intros (r & Hr & Hk & Hl). apply elem_of_app in Hr as [Hr|Hr].
            * by exists r.
            * apply list_elem_of_singleton in Hr as ->. congruence.
        - intros r leaf Hr Hl. apply elem_of_app in Hr as [Hr|Hr].
          + by eapply IH.
          + apply list_elem_of_singleton in Hr as ->. congruence. }
    pose proof (IH (typeLabelOf row)) as IHk.
    destruct (typeMapGet (typeLabelOf row) m) as [s0|] eqn:Hget.
    + split; [by rewrite typeMapAdd_keys|].
      intros k. rewrite typeMapGet_add.
      destruct (decide (k = typeLabelOf row)) as [->|Hk].
      * rewrite Hget. simpl. destruct IHk as (Hne & Hnds & Hset). split_and!.
        -- intros Hnil. assert (lf ∈ setAdd s0 lf) as Hin by (apply elem_of_setAdd; by right).
           rewrite Hnil in Hin. by apply elem_of_nil in Hin.
        -- by apply NoDup_setAdd.
        -- intros leaf. rewrite elem_of_setAdd, Hset. split.
           ++ intros [(r & Hr & ?)| ->].
              ** exists r. split; [apply elem_of_app; by left|done].
              ** exists row. split_and!; [|done..]. apply elem_of_app. right. by left.
           ++ intros (r & Hr & Hk & Hl). apply elem_of_app in Hr as [Hr|Hr].
              ** left. by exists r.
              ** apply list_elem_of_singleton in Hr as ->. right. congruence.
      * specialize (IH k). destruct (typeMapGet k m) as [s|].
        -- destruct IH as (Hne & Hnds & Hset). split_and!; [done..|].
           intros leaf. rewrite Hset. split.
           ++ intros (r & Hr & ?). exists r. split; [apply elem_of_app; by left|done].
           ++ intros (r & Hr & Hk' & Hl). apply elem_of_app in Hr as [Hr|Hr].
              ** by exists r.
              ** apply list_elem_of_singleton in Hr as ->. congruence.
        -- intros r leaf Hr Hl. apply elem_of_app in Hr as [Hr|Hr].
           ++ by eapply IH.
           ++ apply list_elem_of_singleton in Hr as ->. congruence.
    + split.
      { rewrite fmap_app. simpl. apply NoDup_app.
        split_and!; [done| |apply NoDup_singleton].
        intros k Hk Hk'. apply list_elem_of_singleton in Hk' as ->.
        by apply typeMapGet_none in Hget. }
      intros k. rewrite typeMapGet_snoc.
      specialize (IH k). destruct (typeMapGet k m) as [s|] eqn:Hgk.
      * destruct IH as (Hne & Hnds & Hset). split_and!; [done..|].
        intros leaf. rewrite Hset. split.
        -- intros (r & Hr & ?). exists r. split; [apply elem_of_app; by left|done].
        -- intros (r & Hr & Hk' & Hl). apply elem_of_app in Hr as [Hr|Hr].
           ++ by exists r.
           ++ apply list_elem_of_singleton in Hr as ->. congruence.
      * destruct (decide (typeLabelOf row = k)) as [<-|Hk].
        -- split_and!; [done|apply NoDup_singleton|].
           intros leaf. unfold setAdd. simpl. rewrite list_elem_of_singleton. split.
           ++ intros ->. exists row. split_and!; [|done..].
              apply elem_of_app. right. by left.
           ++ intros (r & Hr & Hk' & Hl). apply elem_of_app in Hr as [Hr|Hr].
              ** by destruct (IH r leaf Hr Hl).
              ** apply list_elem_of_singleton in Hr as ->. congruence.
        -- intros r leaf Hr Hl. apply elem_of_app in Hr as [Hr|Hr].
           ++ by eapply IH.
           ++ apply list_elem_of_singleton in Hr as ->. congruence.
Qed.

Context {C : Collator}.

Lemma elem_of_listByType (g : LeafPointsByType.t) :
  g ∈ listLeafPointsUnderFolderByType folderPath pts ↔
  ∃ s, typeMapGet (LeafPointsByType.type g) (pointsByTypeMap folderPath pts) = Some s ∧
       LeafPointsByType.points g = sortBy localeCompare s.
Proof.
  destruct (pointsByTypeMap_invariant pts) as [Hnd _]. cbv zeta in Hnd.
  unfold listLeafPointsUnderFolderByType.
  rewrite elem_of_sortBy, list_elem_of_In, in_map_iff. split.
  - intros ([k s] & <- & Hin). exists s. simpl. split; [|done].
    apply typeMapGet_elem; [done|]. by apply list_elem_of_In.
  - intros (s & Hget & Hpts). exists (LeafPointsByType.type g, s). split.
    + destruct g. simpl in *. by rewrite Hpts.
    + apply list_elem_of_In. by apply typeMapGet_elem.
Qed.

Lemma listByType_types_NoDup :
  NoDup (map LeafPointsByType.type (listLeafPointsUnderFolderByType folderPath pts)).
Proof.
  destruct (pointsByTypeMap_invariant pts) as [Hnd _]. cbv zeta in Hnd.
  unfold listLeafPointsUnderFolderByType.
  change map with (@fmap list _). rewrite sortBy_perm, <- list_fmap_compose.
  exact Hnd.
Qed.

End ByType.

(** X9. The listing by type has one entry for each type label that occurs
    among the points under the folder (labels are never empty; an empty
    type cell reads Unknown): the entries are sorted by label, no label
    occurs twice, no entry is empty, and an entry holds, sorted and
    without duplicates, exactly the leaf names of the points of its type
    under the folder. Together the entries hold the same leaf names as
    the listing without types. *)
Theorem listLeafPointsUnderFolderByType_groups {C : Collator} {CC : ConsistentCollator C}
    (folderPath : str) (pts : list PointRecord.t) :
  let groups := listLeafPointsUnderFolderByType folderPath pts in
  let fs := listingFolderSegments folderPath in
  (∀ g, g ∈ groups →
        LeafPointsByType.type g ≠ [] ∧
        LeafPointsByType.points g ≠ [] ∧
        NoDup (LeafPointsByType.points g) ∧
        ascending (LeafPointsByType.points g) ∧
        ∀ leaf, leaf ∈ LeafPointsByType.points g ↔
                ∃ row, row ∈ pts ∧ typeLabelOf row = LeafPointsByType.type g ∧
                       leafUnderFolder fs (PointRecord.path row) = Some leaf) ∧
  NoDup (map LeafPointsByType.type groups) ∧
  StronglySorted
    (fun a b => notAfter localeCompare (LeafPointsByType.type a) (LeafPointsByType.type b))
    groups ∧
  (∀ leaf, (∃ g, g ∈ groups ∧ leaf ∈ LeafPointsByType.points g) ↔
           leaf ∈ listLeafPointsUnderFolder folderPath (map PointRecord.path pts)).
Proof.
  intros groups fs.
  destruct (pointsByTypeMap_invariant folderPath pts) as [Hnd Hinv].
  cbv zeta in Hnd, Hinv. fold (pointsByTypeMap folderPath pts) in Hnd, Hinv.
  split_and!.
  - intros g Hg. apply elem_of_listByType in Hg as (s & Hget & Hpts).
    specialize (Hinv (LeafPointsByType.type g)). rewrite Hget in Hinv.
    destruct Hinv as (Hne & Hnds & Hset). rewrite Hpts. split_and!.
    + destruct s as [|x s]; [done|].
      assert (x ∈ x :: s) as Hx by left. apply Hset in Hx as (row & _ & Hlabel & _).
      rewrite <- Hlabel. apply typeLabelOf_nonempty.
    + intros Hnil. by apply sortBy_nil_inv in Hnil.
    + by apply NoDup_sortBy.
    + apply sortBy_ascending.
    + intros leaf. by rewrite elem_of_sortBy, Hset.
  - apply listByType_types_NoDup.
  - apply (sortBy_strongly_sorted
             (fun a b => localeCompare (LeafPointsByType.type a) (LeafPointsByType.type b))).
    + intros a b. unfold notAfter. apply collate_total.
    + intros a b c. unfold notAfter. apply collate_trans.
  - intros leaf. rewrite elem_of_listLeafPointsUnderFolder. split.
    + intros (g & Hg & Hleaf). apply elem_of_listByType in Hg as (s & Hget & Hpts).
      specialize (Hinv (LeafPointsByType.type g)). rewrite Hget in Hinv.
      destruct Hinv as (_ & _ & Hset). rewrite Hpts, elem_of_sortBy in Hleaf.
      apply Hset in Hleaf as (row & Hrow & _ & Hl).
      exists (PointRecord.path row). split; [|done].
      apply list_elem_of_In, in_map, list_elem_of_In, Hrow.
    + intros (p & Hp & Hl). apply list_elem_of_In, in_map_iff in Hp as (row & <- & Hrow).
      apply list_elem_of_In in Hrow.
      pose proof (Hinv (typeLabelOf row)) as Hk.
      destruct (typeMapGet (typeLabelOf row) (pointsByTypeMap folderPath pts))
        as [s|] eqn:Hget.
      * destruct Hk as (_ & _ & Hset).
        exists (LeafPointsByType.mk (typeLabelOf row) (sortBy localeCompare s)). split.
        -- apply elem_of_listByType. by exists s.
        -- simpl. apply elem_of_sortBy, Hset. by exists row.
      * by destruct (Hk row leaf Hrow Hl).
Qed.

Lemma listLeafPointsUnderFolderByType_groups_witness :
  let pts := [PointRecord.mk (lit "root/A/t2") (lit " Temp ");
              PointRecord.mk (lit "root/A/t1") (lit "Temp");
              PointRecord.mk (lit "root/A/x") [];
              PointRecord.mk (lit "root/B/t3") (lit "Temp")] in
  listLeafPointsUnderFolderByType (lit "root/A") pts
  = [LeafPointsByType.mk (lit "Temp") [lit "t1"; lit "t2"];
     LeafPointsByType.mk (lit "Unknown") [lit "x"]] ∧
  NoDup (map LeafPointsByType.type (listLeafPointsUnderFolderByType (lit "root/A") pts)).
Proof.
  intros pts. split; [by vm_compute|].
  apply (listLeafPointsUnderFolderByType_groups (CC := codeUnitCollator_consistent)).
Defined.

(** ** What every user action keeps *)

Lemma pruneMergedDevices_settles (devices : list str) (mds : list MergedDevice.t)
    (md : MergedDevice.t) :
  md ∈ pruneMergedDevices devices mds →
  MergedDevice.memberPaths md ≠ [] ∧
  ∀ p, p ∈ MergedDevice.memberPaths md → p ∈ devices.
Proof.
  rewrite pruneMergedDevices_omap. intros Hin.
  apply list_elem_of_omap in Hin as (md0 & _ & Hg).
  apply pruneGroup_members in Hg as [Hne Hmem]. split; [done|].
  intros p Hp. by apply Hmem in Hp as [_ ?].
Qed.

Lemma pruneGroup_settled (devices : list str) (md : MergedDevice.t) :
  MergedDevice.memberPaths md ≠ [] →
  (∀ p, p ∈ MergedDevice.memberPaths md → p ∈ devices) →
  pruneGroup devices md = Some md.
Proof.
  intros Hne Hsub. unfold pruneGroup.
  rewrite (filter_all (fun p => setHas (setFrom devices) p = true)).
  - destruct (MergedDevice.memberPaths md) eqn:E; [done|]. simpl.
    by rewrite <- E, MergedDevice_eta.
  - intros p Hp. apply setHas_true, elem_of_setFrom. by apply Hsub.
Qed.

Lemma omap_fixed {A} (f : A → option A) (l : list A) :
  (∀ x, x ∈ l → f x = Some x) → omap f l = l.
Proof.
  induction l as [|x l IH]; intros H; [done|]. simpl.
  rewrite H by left. f_equal. apply IH. intros y Hy. apply H. by right.
Qed.

Section EveryAction.

Context {C : Collator}.

(** An action either leaves the devices and the merged devices alone, or
    sets the devices and lets the pruning effect run. *)
Lemma appStep_cases (st st' : AppState) :
  appStep st st' →
  (devicePaths st' = devicePaths st ∧ mergedDevices st' = mergedDevices st) ∨
  (∃ mds, mergedDevices st' = pruneMergedDevices (devicePaths st') mds ∧
          (NoDup (devicePaths st) → NoDup (devicePaths st'))).
Proof.
  assert (∀ ps s, (devicePaths (addDevices ps s) = devicePaths s ∧
                   mergedDevices (addDevices ps s) = mergedDevices s) ∨
                  (∃ mds, mergedDevices (addDevices ps s)
                            = pruneMergedDevices (devicePaths (addDevices ps s)) mds ∧
                          (NoDup (devicePaths s) → NoDup (devicePaths (addDevices ps s)))))
    as Hadd.
  { intros ps s. unfold addDevices. destruct (length ps =? 0); [by left|].
    right. exists (mergedDevices s). split; [done|]. intros _.
    apply NoDup_foldl_setAdd, NoDup_setFrom. }
  intros Hstep. destruct Hstep as [st st' Hengine| | | | | | |]; try (by left).
  - destruct Hengine; try (by left).
    + unfold markSelectionAsDevices.
      destruct (length (selectedPaths st) =? 0); [by left|].
      destruct (negb _ || negb _); [by left|]. apply Hadd.
    + unfold confirmDeviceConflict. destruct (pendingConflict st) as [plan|]; [|by left].
      right. exists (mergedDevices st). split; [done|]. intros _.
      apply NoDup_foldl_setAdd, NoDup_setFrom.
    + unfold removeDevices. destruct (length ps =? 0); [by left|].
      right. exists (mergedDevices st). split; [done|]. simpl. apply NoDup_filter.
    + unfold beginMergeDevices. destruct (length _ <? 2); by left.
    + unfold confirmMergeDevices. destruct (pendingMerge st) as [pm|]; [|by left].
      destruct (negb _); [by left|]. right. eexists. split; [done|]. intros _.
      apply NoDup_foldl_setAdd, NoDup_setFrom.
  - apply Hadd.
  - unfold pruneSelectedFolders. destruct (length _ =? 0); by left.
  - unfold unhideHiddenFolders. destruct (length _ =? 0); by left.
Qed.

(** X10. The Device Set never holds the same path string twice: starting
    without duplicates, no sequence of user actions creates one. *)
Theorem devicePaths_never_duplicated (st st' : AppState) :
  rtc appStep st st' → NoDup (devicePaths st) → NoDup (devicePaths st').
Proof.
  induction 1 as [|st st1 st' Hstep _ IH]; [done|]. intros Hnd. apply IH.
  destruct (appStep_cases st st1 Hstep) as [[-> _]|(mds & _ & H)]; [done|by apply H].
Qed.

(** X11. Merged devices only ever hold current devices and are never
    empty: from a state where this is so, every sequence of user actions
    leads to such a state; and in such a state the pruning effect changes
    nothing. *)
Theorem mergedDevices_stay_settled (st st' : AppState) :
  rtc appStep st st' → mergedSettled st →
  mergedSettled st' ∧
  pruneMergedDevices (devicePaths st') (mergedDevices st') = mergedDevices st'.
Proof.
  intros Hsteps Hset.
  assert (mergedSettled st') as Hset'.
  { induction Hsteps as [|st st1 st' Hstep _ IH]; [done|]. apply IH.
    destruct (appStep_cases st st1 Hstep) as [[Hd Hm]|(mds & Hm & _)].
    - intros md Hmd. rewrite Hm in Hmd. rewrite Hd. by apply Hset.
    - intros md Hmd. rewrite Hm in Hmd. by apply pruneMergedDevices_settles in Hmd. }
  split; [done|]. rewrite pruneMergedDevices_omap. apply omap_fixed.
  intros md Hmd. destruct (Hset' md Hmd). by apply pruneGroup_settled.
Qed.

End EveryAction.

Lemma devicePaths_never_duplicated_witness :
  let st0 := mkApp None [] [] [lit "root/A"] [] ∅ [lit "root/B"; lit "root/A"]
               [] None ∅ None [] ∅ in
  NoDup (devicePaths (removeDevices [lit "root/A"] (markSelectionAsDevices st0))).
Proof.
  intros st0.
  apply (devicePaths_never_duplicated st0).
  - eapply rtc_l; [apply appEngine, stepMark|]. apply rtc_once, appEngine, stepRemove.
  - apply NoDup_singleton.
Defined.

Lemma mergedDevices_stay_settled_witness :
  let st0 := mkApp None [] []
               [lit "root/A"; lit "root/B"]
               [MergedDevice.mk (lit "m0") (lit "AB") [lit "root/A"; lit "root/B"]]
               ∅ [] [] None ∅ None [] ∅ in
  mergedSettled (removeDevices [lit "root/A"] st0).
Proof.
  intros st0.
  apply (mergedDevices_stay_settled st0).
  - apply rtc_once, appEngine, stepRemove.
  - intros md Hmd. apply list_elem_of_singleton in Hmd as ->. simpl.
    split; [done|]. intros p Hp. exact Hp.
Defined.

(** ** Display names across device changes *)


Lemma removeDevices_devicePaths (ps : list str) (st : AppState) (x : str) :
  x ∈ devicePaths (removeDevices ps st) ↔ x ∈ devicePaths st ∧ x ∉ ps.
Proof.
  unfold removeDevices. destruct ps as [|q ps]; simpl.
  - split; [|by intros [? _]]. intros Hx. split; [done|]. apply not_elem_of_nil.
  - rewrite list_elem_of_filter, setHas_false, elem_of_setFrom. tauto.
Qed.




(** X14. Confirming a merge with a non-blank name makes every staged
    member a device that is displayed under the trimmed merged name, and
    closes the merge dialog. *)
Theorem confirmMergeDevices_names `{Collator} (freshId : str) (st : AppState)
    (pm : PendingMerge.t) (p : str) :
  pendingMerge st = Some pm → trim (mergeName st) ≠ [] →
  p ∈ PendingMerge.memberPaths pm →
  let st' := confirmMergeDevices freshId st in
  p ∈ devicePaths st' ∧
  displayDeviceName st' p = trim (mergeName st) ∧
  pendingMerge st' = None ∧ mergeName st' = [].
Proof.
  intros Hpm Hname Hp st'.
  destruct (mergedDevices_confirmMerge freshId st pm Hpm Hname) as [Hdevs Hmds].
  fold st' in Hdevs, Hmds. cbv zeta in Hdevs, Hmds.
  assert (∀ q, q ∈ PendingMerge.memberPaths pm → q ∈ devicePaths st') as Hsub.
  { intros q Hq. rewrite Hdevs. apply elem_of_foldl_setAdd. right.
    by apply elem_of_setFrom. }
  split; [by apply Hsub|]. split.
  - rewrite pruneMergedDevices_omap, omap_app in Hmds. simpl in Hmds.
    rewrite pruneGroup_settled in Hmds.
    + rewrite <- (trim_idemp (mergeName st)).
      set (new := MergedDevice.mk freshId (trim (mergeName st))
                    (sortBy localeCompare (setFrom (PendingMerge.memberPaths pm)))) in *.
      apply (displayDeviceName_merged st' p
               (length (omap (pruneGroup (devicePaths st'))
                          (filter (fun md => sharesMember
                                     (setFrom (PendingMerge.memberPaths pm)) md = false)
                             (mergedDevices st)))) new).
      * rewrite Hmds. by apply list_lookup_middle.
      * simpl. by apply elem_of_sortBy, elem_of_setFrom.
      * simpl. rewrite trim_idemp. done.
      * intros j md' Hj Hlook. rewrite Hmds in Hlook.
        apply lookup_lt_Some in Hlook. rewrite length_app in Hlook. simpl in Hlook. lia.
    + simpl. intros Hnil.
      assert (p ∈ sortBy localeCompare (setFrom (PendingMerge.memberPaths pm))) as Hin
        by by apply elem_of_sortBy, elem_of_setFrom.
      rewrite Hnil in Hin. by apply elem_of_nil in Hin.
    + simpl. intros q Hq. rewrite elem_of_sortBy, elem_of_setFrom in Hq. by apply Hsub.
  - unfold st', confirmMergeDevices. rewrite Hpm.
    apply truthy_true in Hname. by rewrite Hname.
Qed.

Lemma confirmMergeDevices_names_witness :
  let st0 := mkApp None [] [] [lit "root/A"; lit "root/B"] [] ∅ [] [] None ∅
               (Some (PendingMerge.mk [lit "root/A"; lit "root/B"] (lit "AB")))
               (lit " Plant ") ∅ in
  displayDeviceName (confirmMergeDevices (lit "m1") st0) (lit "root/B") = lit "Plant".
Proof.
  intros st0.
  apply (confirmMergeDevices_names (lit "m1") st0
           (PendingMerge.mk [lit "root/A"; lit "root/B"] (lit "AB")) (lit "root/B")).
  - reflexivity.
  - by vm_compute.
  - simpl. apply elem_of_cons. right. apply list_elem_of_singleton. reflexivity.
Defined.

Lemma foldl_setAdd_absorbed (s l : list str) :
  (∀ x, x ∈ l → x ∈ s) → foldl setAdd s l = s.
Proof.
  induction l as [|x l IH]; intros Hsub; [done|]. simpl.
  assert (setAdd s x = s) as ->.
  { unfold setAdd. rewrite decide_True; [done|]. apply Hsub. by left. }
  apply IH. intros y Hy. apply Hsub. by right.
Qed.

(** X15. A merge whose staged members are all devices already, as every
    merge started from the Devices panel is, leaves the Device Set as it
    was: it has the same members, the same list when it held no duplicate,
    and it keeps the Device-Set invariant. *)
Theorem confirmMergeDevices_of_devices `{Collator} (freshId : str) (st : AppState)
    (pm : PendingMerge.t) :
  pendingMerge st = Some pm →
  (∀ p, p ∈ PendingMerge.memberPaths pm → p ∈ devicePaths st) →
  let st' := confirmMergeDevices freshId st in
  (∀ x, x ∈ devicePaths st' ↔ x ∈ devicePaths st) ∧
  (NoDup (devicePaths st) → devicePaths st' = devicePaths st) ∧
  (deviceSetInvariant (devicePaths st) → deviceSetInvariant (devicePaths st')).
Proof.
  intros Hpm Hsub st'.
  assert (devicePaths st' = devicePaths st ∨ devicePaths st' = setFrom (devicePaths st))
    as Hdevs.
  { unfold st', confirmMergeDevices. rewrite Hpm.
    destruct (negb (truthy (trim (mergeName st)))); [by left|].
    right. simpl. apply foldl_setAdd_absorbed. intros x Hx.
    rewrite elem_of_setFrom in Hx. rewrite elem_of_setFrom. by apply Hsub. }
  assert (∀ x, x ∈ devicePaths st' ↔ x ∈ devicePaths st) as Hmem.
  { intros x. destruct Hdevs as [->| ->]; [done|apply elem_of_setFrom]. }
  split; [done|]. split.
  - intros Hnd. destruct Hdevs as [->| ->]; [done|by apply setFrom_NoDup_id].
  - rewrite !deviceSetInvariant_alt. intros Hinv a b Ha Hb.
    apply Hinv; by apply Hmem.
Qed.

Lemma confirmMergeDevices_of_devices_witness :
  let st0 := mkApp None [] [] [lit "root/A"; lit "root/B"] [] ∅ [] [] None ∅
               (Some (PendingMerge.mk [lit "root/B"; lit "root/A"] (lit "AB")))
               (lit "Plant") ∅ in
  devicePaths (confirmMergeDevices (lit "m1") st0) = devicePaths st0.
Proof.
  intros st0.
  apply (confirmMergeDevices_of_devices (lit "m1") st0
           (PendingMerge.mk [lit "root/B"; lit "root/A"] (lit "AB"))).
  - reflexivity.
  - intros p Hp. simpl in *. apply elem_of_cons in Hp as [->|Hp].
    + apply elem_of_cons. right. apply list_elem_of_singleton. reflexivity.
    + apply list_elem_of_singleton in Hp as ->. apply elem_of_cons. by left.
  - simpl. apply NoDup_cons. split.
    + intros Hin. apply list_elem_of_singleton in Hin. by vm_compute in Hin.
    + apply NoDup_singleton.
Defined.

(** ** Hidden folders *)

Lemma getPathRelation_ancestor_trans (a b c : str) :
  getPathRelation a b = ancestor → qualifies b c = true →
  getPathRelation a c = ancestor.
Proof.
  rewrite !getPathRelation_ancestor_prefix, qualifies_prefix.
  intros (Hne & Hab & Hneq) [_ Hbc]. split; [done|]. split; [by etrans|].
  intros Heq. apply Hneq. apply prefix_antisym; [done|]. by rewrite Heq.
Qed.

Section HiddenCoverage.

Context {C : Collator}.
Variable tree : gset str.
Variable incoming : list str.

Let candidates := hiddenCandidates tree incoming.
Let out := normalizeHiddenFolderPaths tree incoming.

Hypothesis distinct_folders :
  ∀ a b, a ∈ candidates → b ∈ candidates →
         toComparableSegments a = toComparableSegments b → a = b.

Lemma normalizeHiddenFolderPaths_keeps_cover (n : nat) (h : str) :
  h ∈ candidates → length (toComparableSegments h) ≤ n →
  ∃ k, k ∈ out ∧ (k = h ∨ getPathRelation k h = ancestor).
Proof.
  revert h. induction n as [|n IH]; intros h Hh Hlen.
  - exists h. split; [|by left]. apply elem_of_normalizeHiddenFolderPaths.
    split; [done|]. intros (other & _ & _ & [Hrel|Hrel]).
    + apply getPathRelation_ancestor_prefix in Hrel as (_ & Hpre & Hneq).
      destruct (toComparableSegments h); [|simpl in Hlen; lia].
      apply prefix_nil_inv in Hpre. by apply Hneq.
    + apply getPathRelation_same_segments in Hrel as [Hne Heq].
      destruct (toComparableSegments h); [|simpl in Hlen; lia]. by apply Hne.
  - destruct (coveredByOther candidates h) eqn:Hcov.
    + apply coveredByOther_true in Hcov as (other & Hother & Hneq & [Hrel|Hrel]).
      * assert (length (toComparableSegments other) ≤ n) as Hshort.
        { apply getPathRelation_ancestor_prefix in Hrel as (_ & Hpre & Hne).
          pose proof (prefix_length _ _ Hpre) as Hle.
          destruct (decide (length (toComparableSegments other)
                            = length (toComparableSegments h))) as [Heq|]; [|lia].
          exfalso. apply Hne. by apply prefix_length_eq; [|lia]. }
        destruct (IH other Hother Hshort) as (k & Hk & [->|Hkrel]).
        -- exists other. auto.
        -- exists k. split; [done|]. right.
           apply (getPathRelation_ancestor_trans k other h); [done|].
           apply qualifies_relation. by left.
      * apply getPathRelation_same_segments in Hrel as [_ Heq].
        exfalso. apply Hneq. by apply distinct_folders.
    + exists h. split; [|by left]. apply elem_of_normalizeHiddenFolderPaths.
      split; [done|]. by apply coveredByOther_false.
Qed.

Lemma normalizeHiddenFolderPaths_covers (h path : str) :
  h ∈ candidates → qualifies h path = true →
  ∃ k, k ∈ out ∧ qualifies k path = true.
Proof.
  intros Hh Hrel.
  destruct (normalizeHiddenFolderPaths_keeps_cover _ h Hh (le_n _))
    as (k & Hk & [->|Hkrel]); [by exists h|].
  exists k. split; [done|]. apply qualifies_relation. left.
  by apply (getPathRelation_ancestor_trans k h path).
Qed.

(** X16. Normalizing hides no less: as long as no two different
    candidates name the same folder, a path is at or beneath one of the
    candidates exactly when it is at or beneath one of the paths that are
    kept. *)
Theorem normalizeHiddenFolderPaths_same_coverage (path : str) :
  isAtOrDownstreamOfAnyFolderPath path candidates
  = isAtOrDownstreamOfAnyFolderPath path out.
Proof.
  apply eq_true_iff_eq. rewrite !isAtOrDownstream_relation.
  setoid_rewrite <- qualifies_relation. split.
  - intros (h & Hh & Hrel). by apply (normalizeHiddenFolderPaths_covers h).
  - intros (k & Hk & Hrel). exists k. split; [|done].
    by apply elem_of_normalizeHiddenFolderPaths in Hk as [? _].
Qed.

End HiddenCoverage.

Lemma normalizeHiddenFolderPaths_same_coverage_witness :
  isAtOrDownstreamOfAnyFolderPath (lit "root/A/B/p")
    (hiddenCandidates ∅ [lit "root/A/B"; lit "root/A"])
  = isAtOrDownstreamOfAnyFolderPath (lit "root/A/B/p")
      (normalizeHiddenFolderPaths ∅ [lit "root/A/B"; lit "root/A"]).
Proof.
  apply (normalizeHiddenFolderPaths_same_coverage ∅ [lit "root/A/B"; lit "root/A"]).
  intros a b Ha Hb.
  assert (hiddenCandidates ∅ [lit "root/A/B"; lit "root/A"]
          = [lit "root/A/B"; lit "root/A"]) as E by by vm_compute.
  rewrite E in Ha, Hb.
  apply elem_of_cons in Ha as [->|Ha]; apply elem_of_cons in Hb as [->|Hb];
    try (apply list_elem_of_singleton in Ha as ->);
    try (apply list_elem_of_singleton in Hb as ->);
    try reflexivity; vm_compute; intros [=].
Defined.

(** Without that hypothesis the normalizer can drop every candidate: of
    two spellings of one folder each is covered by the other. *)
Lemma normalizeHiddenFolderPaths_two_spellings `{Collator} :
  normalizeHiddenFolderPaths ∅ [lit "root/A"; lit "root//A"] = [].
Proof.
  destruct (normalizeHiddenFolderPaths ∅ [lit "root/A"; lit "root//A"]) as [|p l] eqn:E;
    [done|].
  assert (p ∈ normalizeHiddenFolderPaths ∅ [lit "root/A"; lit "root//A"]) as Hp
    by (rewrite E; left).
  apply elem_of_normalizeHiddenFolderPaths in Hp as [Hc Hp]. exfalso. apply Hp.
  assert (hiddenCandidates ∅ [lit "root/A"; lit "root//A"]
          = [lit "root/A"; lit "root//A"]) as Ec by by vm_compute.
  rewrite Ec in Hc |- *.
  apply elem_of_cons in Hc as [->|Hc]; [|apply list_elem_of_singleton in Hc as ->].
  - exists (lit "root//A"). split; [right; left|]. split; [by vm_compute|].
    right. by vm_compute.
  - exists (lit "root/A"). split; [left|]. split; [by vm_compute|].
    right. by vm_compute.
Qed.

Section HiddenState.

Context {C : Collator}.

Lemma normalizeHiddenFolderPaths_pairwiseDisjoint (tree : gset str) (incoming : list str) :
  pairwiseDisjoint (normalizeHiddenFolderPaths tree incoming).
Proof.
  intros p q Hp Hq Hne.
  apply elem_of_normalizeHiddenFolderPaths in Hp as [Hpc Hp].
  apply elem_of_normalizeHiddenFolderPaths in Hq as [Hqc Hq].
  destruct (getPathRelation p q) eqn:Hrel; [| | |done].
  - destruct Hq. exists p. auto.
  - destruct Hq. exists p. auto.
  - apply getPathRelation_flip in Hrel. destruct Hp. exists q. auto.
Qed.

Lemma appStep_hidden (st st' : AppState) :
  appStep st st' →
  pairwiseDisjoint (hiddenFolderPaths st') ∨
  (∀ x, x ∈ hiddenFolderPaths st' → x ∈ hiddenFolderPaths st).
Proof.
  intros Hstep. destruct Hstep as [st st' Hengine| | | | | | |]; try (by right).
  - right. destruct Hengine; try done.
    + unfold markSelectionAsDevices.
      destruct (length (selectedPaths st) =? 0); [done|].
      destruct (negb _ || negb _); [done|].
      unfold addDevices. by destruct (length _ =? 0).
    + unfold confirmDeviceConflict. by destruct (pendingConflict st).
    + unfold removeDevices. by destruct (length _ =? 0).
    + unfold beginMergeDevices. by destruct (length _ <? 2).
    + unfold confirmMergeDevices. destruct (pendingMerge st); [|done].
      by destruct (negb _).
  - right. unfold addDevices. by destruct (length _ =? 0).
  - unfold pruneSelectedFolders. destruct (length _ =? 0); [by right|].
    left. simpl. apply normalizeHiddenFolderPaths_pairwiseDisjoint.
  - right. unfold unhideHiddenFolders. destruct (length _ =? 0); [done|].
    simpl. intros x Hx. by apply list_elem_of_filter in Hx as [_ ?].
Qed.

(** X17. The hidden folders never overlap: starting from hidden folders
    of which no two different ones overlap, every sequence of user actions
    leads to such hidden folders. *)
Theorem hiddenFolderPaths_never_overlap (st st' : AppState) :
  rtc appStep st st' →
  pairwiseDisjoint (hiddenFolderPaths st) → pairwiseDisjoint (hiddenFolderPaths st').
Proof.
  induction 1 as [|st st1 st' Hstep _ IH]; [done|]. intros Hinv. apply IH.
  destruct (appStep_hidden st st1 Hstep) as [H|Hsub]; [done|].
  intros p q Hp Hq. apply Hinv; by apply Hsub.
Qed.

(** X18. Hiding folders touches neither the devices nor their names; it
    takes out of the selection exactly the paths at or beneath a folder
    being hidden; and, as long as no two different candidates name the same
    folder, every row whose point lies at or beneath a candidate is
    exported with the device name [-]. *)
Theorem pruneSelectedFolders_effect (pathsToHide : list str) (st : AppState) :
  let nextToHide := filter (fun p => truthy p = true) (map trim pathsToHide) in
  let candidates :=
    hiddenCandidates (treeFolderPathSet st) (hiddenFolderPaths st ++ nextToHide) in
  let st' := pruneSelectedFolders pathsToHide st in
  nextToHide ≠ [] →
  devicePaths st' = devicePaths st ∧
  mergedDevices st' = mergedDevices st ∧
  deviceNameByPath st' = deviceNameByPath st ∧
  (∀ s, s ∈ selectedPaths st' ↔
        s ∈ selectedPaths st ∧
        ¬ ∃ h, h ∈ nextToHide ∧
               (getPathRelation h s = ancestor ∨ getPathRelation h s = same)) ∧
  ((∀ a b, a ∈ candidates → b ∈ candidates →
           toComparableSegments a = toComparableSegments b → a = b) →
   ∀ (rec : gmap str str) (h : str),
     h ∈ candidates →
     qualifies h (trim (default [] (rec !! selectedColumn st))) = true →
     exportDeviceName st' rec = lit "-").
Proof.
  intros nextToHide candidates st' Hne.
  assert (st' = setSelectedPaths
                  (filter (fun p => isAtOrDownstreamOfAnyFolderPath p nextToHide = false)
                     (selectedPaths st))
                  (setHiddenFolderPaths
                     (fun prev => normalizeHiddenFolderPaths (treeFolderPathSet st)
                                    (prev ++ nextToHide)) st)) as Hst'.
  { unfold st', pruneSelectedFolders. fold nextToHide.
    destruct nextToHide; [done|]. done. }
  rewrite Hst'. split; [done|]. split; [done|]. split; [done|]. split.
  - intros s. simpl. rewrite list_elem_of_filter, <- not_true_iff_false,
      isAtOrDownstream_relation. tauto.
  - intros Hdistinct rec h Hh Hrel. apply exportDeviceName_hidden. simpl.
    destruct (normalizeHiddenFolderPaths_covers _ _ Hdistinct h _ Hh Hrel)
      as (k & Hk & Hkrel).
    exists k. split; [done|]. by apply qualifies_relation.
Qed.

End HiddenState.

Lemma hiddenFolderPaths_never_overlap_witness :
  let st0 := mkApp None [] [] [] [] ∅ [lit "root/A/B"] [] None ∅ None [] ∅ in
  pairwiseDisjoint
    (hiddenFolderPaths
       (unhideHiddenFolders [lit "root/C"]
          (pruneSelectedFolders [lit "root/A"; lit "root/A/B"] st0))).
Proof.
  intros st0. apply (hiddenFolderPaths_never_overlap st0).
  - eapply rtc_l; [apply appHide|]. apply rtc_once, appUnhide.
  - intros p q Hp. by apply elem_of_nil in Hp.
Defined.

Lemma pruneSelectedFolders_effect_witness :
  let st0 := mkApp None [] [] [lit "root/A"] [] ∅ [lit "root/A/B"; lit "root/C"] []
               None ∅ None [] ∅ in
  devicePaths (pruneSelectedFolders [lit "root/A"] st0) = [lit "root/A"].
Proof.
  intros st0. apply (pruneSelectedFolders_effect [lit "root/A"] st0). by vm_compute.
Defined.

(** ** Paths in canonical form *)

Section CanonicalPaths.

Implicit Types (s seg : str) (segs : list str).

Lemma trim_fixed_parts s : trim s = s → trimStart s = s ∧ trimStart (rev s) = rev s.
Proof.
  intros H. split.
  - rewrite <- H. unfold trim. apply trimStart_trimEnd, trimStart_idemp.
  - assert (rev s = trimStart (rev (trimStart s))) as Hrev.
    { rewrite <- H at 1. unfold trim, trimEnd. by rewrite rev_involutive. }
    rewrite Hrev. apply trimStart_idemp.
Qed.

Lemma trim_from_parts s : trimStart s = s → trimStart (rev s) = rev s → trim s = s.
Proof.
  intros H1 H2. unfold trim, trimEnd. by rewrite H1, H2, rev_involutive.
Qed.

Lemma trimStart_app s t : s ≠ [] → trimStart s = s → trimStart (s ++ t) = s ++ t.
Proof.
  destruct s as [|c s]; [done|]. intros _ H. apply trimStart_fixed in H.
  simpl. by rewrite H.
Qed.

Lemma join_snoc (sep : N) segs seg :
  segs ≠ [] → join sep (segs ++ [seg]) = join sep segs ++ sep :: seg.
Proof.
  induction segs as [|x segs IH]; [done|]. intros _.
  destruct segs as [|y segs]; [done|].
  change ((x :: y :: segs) ++ [seg]) with (x :: ((y :: segs) ++ [seg])).
  rewrite join_cons by done. rewrite IH by done.
  rewrite (join_cons sep x (y :: segs)) by done. by rewrite <- app_assoc.
Qed.

Lemma join_head (sep c : N) seg segs :
  join sep ((c :: seg) :: segs) = c :: join sep (seg :: segs).
Proof. by destruct segs. Qed.

Lemma elem_of_join (sep c : N) segs :
  c ∈ join sep segs → c = sep ∨ ∃ seg, seg ∈ segs ∧ c ∈ seg.
Proof.
  induction segs as [|x segs IH]; [by intros ?%elem_of_nil|].
  destruct segs as [|y segs].
  - simpl. intros Hc. right. exists x. split; [left|done].
  - rewrite join_cons by done. intros Hc.
    apply elem_of_app in Hc as [Hc|Hc].
    + right. exists x. split; [left|done].
    + apply elem_of_cons in Hc as [->|Hc]; [by left|].
      destruct (IH Hc) as [->|(seg & Hseg & Hin)]; [by left|].
      right. exists seg. split; [by right|done].
Qed.

Lemma trim_join segs :
  segs ≠ [] → (∀ seg, seg ∈ segs → seg ≠ [] ∧ trim seg = seg) →
  trim (join SLASH segs) = join SLASH segs.
Proof.
  intros Hne Hall. apply trim_from_parts.
  - destruct segs as [|x segs]; [done|].
    destruct (Hall x) as [Hx Htrim]; [left|].
    apply trim_fixed_parts in Htrim as [Hstart _].
    destruct segs as [|y segs]; [done|].
    rewrite join_cons by done. by apply trimStart_app.
  - destruct segs as [|x segs _] using rev_ind; [done|].
    destruct (Hall x) as [Hx Htrim]; [apply elem_of_app; right; left|].
    apply trim_fixed_parts in Htrim as [_ Hend].
    destruct segs as [|y segs]; [done|].
    rewrite join_snoc by done. rewrite rev_app_distr. simpl.
    rewrite <- app_assoc. apply trimStart_app; [|done].
    intros Hnil. apply Hx. apply (f_equal (@rev N)) in Hnil.
    by rewrite rev_involutive in Hnil.
Qed.

Lemma backslashesToSlashes_id s : BACKSLASH ∉ s → backslashesToSlashes s = s.
Proof.
  intros Hs. apply map_fixed. intros c Hc.
  destruct (N.eqb_spec c BACKSLASH) as [->|]; done.
Qed.

Lemma collapseSlashes_app seg t :
  SLASH ∉ seg → collapseSlashes (seg ++ t) = seg ++ collapseSlashes t.
Proof.
  induction seg as [|c seg IH]; [done|]. intros Hseg.
  apply not_elem_of_cons in Hseg as [Hc Hseg].
  change ((c :: seg) ++ t) with (c :: (seg ++ t)).
  cbn [collapseSlashes].
  assert ((c =? SLASH)%N = false) as -> by (apply N.eqb_neq; congruence).
  by rewrite IH.
Qed.

Lemma collapseSlashes_slash (c : N) t :
  c ≠ SLASH → collapseSlashes (SLASH :: c :: t) = SLASH :: collapseSlashes (c :: t).
Proof.
  intros Hc. apply N.eqb_neq in Hc.
  change (collapseSlashes (SLASH :: c :: t))
    with (if (c =? SLASH)%N then collapseSlashes (c :: t)
          else SLASH :: collapseSlashes (c :: t)).
  by rewrite Hc.
Qed.

Lemma collapseSlashes_join segs :
  (∀ seg, seg ∈ segs → seg ≠ [] ∧ (SLASH ∉ seg)) →
  collapseSlashes (join SLASH segs) = join SLASH segs.
Proof.
  induction segs as [|x segs IH]; [done|]. intros Hall.
  destruct (Hall x) as [Hx Hslash]; [left|].
  destruct segs as [|y segs].
  - simpl. rewrite <- (app_nil_r x) at 1. rewrite collapseSlashes_app by done.
    simpl. apply app_nil_r.
  - rewrite join_cons by done. rewrite collapseSlashes_app by done. f_equal.
    destruct (Hall y) as [Hy Hyslash]; [right; left|].
    destruct y as [|c y]; [done|]. apply not_elem_of_cons in Hyslash as [Hc _].
    rewrite join_head, collapseSlashes_slash by done. f_equal.
    rewrite <- join_head. apply IH. intros seg Hseg. apply Hall. by right.
Qed.

(** Joining segments in normal form with slashes gives a path that is
    split into the same segments again. *)
Lemma rawSegments_join segs :
  segs ≠ [] →
  (∀ seg, seg ∈ segs →
          seg ≠ [] ∧ trim seg = seg ∧ (SLASH ∉ seg) ∧ (BACKSLASH ∉ seg)) →
  rawSegments (join SLASH segs) = segs.
Proof.
  intros Hne Hall. unfold rawSegments, normalizePath.
  rewrite trim_join; [|done|intros seg Hseg; destruct (Hall seg Hseg); tauto].
  rewrite backslashesToSlashes_id.
  - rewrite collapseSlashes_join by (intros seg Hseg; destruct (Hall seg Hseg); tauto).
    rewrite split_join; [|done|intros seg Hseg; destruct (Hall seg Hseg); tauto].
    rewrite map_fixed by (intros seg Hseg; destruct (Hall seg Hseg); tauto).
    apply filter_all. intros seg Hseg. apply truthy_true.
    destruct (Hall seg Hseg); tauto.
  - intros Hc. apply elem_of_join in Hc as [Hc|(seg & Hseg & Hc)]; [done|].
    destruct (Hall seg Hseg) as (_ & _ & _ & Hb). by apply Hb.
Qed.

Lemma root_join_segments segs :
  (∀ seg, seg ∈ segs →
          seg ≠ [] ∧ trim seg = seg ∧ (SLASH ∉ seg) ∧ (BACKSLASH ∉ seg)) →
  toComparableSegments (lit "root/" ++ join SLASH segs) = segs.
Proof.
  intros Hall. destruct segs as [|x segs]; [by vm_compute|].
  change (lit "root/" ++ join SLASH (x :: segs))
    with (lit "root" ++ SLASH :: join SLASH (x :: segs)).
  rewrite <- (join_cons SLASH (lit "root") (x :: segs)) by done.
  rewrite toComparableSegments_raw, rawSegments_join; [done|done|].
  intros seg Hseg. apply elem_of_cons in Hseg as [->|Hseg]; [|by apply Hall].
  split; [done|]. split; [by vm_compute|].
  split; intros Hin; vm_compute in Hin;
    repeat (apply elem_of_cons in Hin as [Hin|Hin]; [done|]);
    by apply elem_of_nil in Hin.
Qed.

Lemma comparable_segments_are_normal (v seg : str) :
  seg ∈ toComparableSegments v →
  seg ≠ [] ∧ trim seg = seg ∧ (SLASH ∉ seg) ∧ (BACKSLASH ∉ seg).
Proof.
  rewrite toComparableSegments_raw. intros Hseg.
  by apply (elem_of_rawSegments v), stripRootPrefix_subset.
Qed.

(** X19. Every path has a canonical form, the root segment followed by
    its comparable segments joined with single slashes: the canonical form
    has the same comparable segments as the path, stands in the same
    relation to every other path, canonicalizing twice changes nothing, and
    two paths have the same comparable segments exactly when they have the
    same canonical form. *)
Theorem canonical_path_form (v : str) :
  let canonical := fun w => lit "root/" ++ join SLASH (toComparableSegments w) in
  toComparableSegments (canonical v) = toComparableSegments v ∧
  canonical (canonical v) = canonical v ∧
  (∀ w, getPathRelation (canonical v) w = getPathRelation v w) ∧
  (∀ w, getPathRelation w (canonical v) = getPathRelation w v) ∧
  (∀ w, toComparableSegments w = toComparableSegments v ↔ canonical w = canonical v).
Proof.
  intros canonical.
  assert (toComparableSegments (canonical v) = toComparableSegments v) as Heq.
  { apply root_join_segments. intros seg. apply comparable_segments_are_normal. }
  split; [done|]. split; [|split; [|split]].
  - unfold canonical at 1. by rewrite Heq.
  - intros w. unfold getPathRelation. by rewrite Heq.
  - intros w. unfold getPathRelation. by rewrite Heq.
  - intros w. split.
    + intros Hw. unfold canonical. by rewrite Hw.
    + intros Hw. rewrite <- Heq, <- Hw. symmetry.
      apply root_join_segments. intros seg. apply comparable_segments_are_normal.
Qed.

End CanonicalPaths.

(** ** Unassigned points *)

Lemma rawSegments_removelast (p : str) :
  rawSegments p ≠ [] →
  rawSegments p = removelast (rawSegments p) ++ [List.last (rawSegments p) []].
Proof. intros Hne. by apply app_removelast_last. Qed.

Lemma key_of_rooted_folders (rest : list str) (l : str) (p : str) :
  rest ≠ [] →
  rawSegments p = (lit "root" :: rest) ++ [l] →
  getPathRelation (join SLASH (lit "root" :: rest)) p = ancestor.
Proof.
  intros Hne Hsegs. apply getPathRelation_ancestor_prefix.
  assert (∀ seg, seg ∈ lit "root" :: rest →
                 seg ≠ [] ∧ trim seg = seg ∧ (SLASH ∉ seg) ∧ (BACKSLASH ∉ seg)) as Hall.
  { intros seg Hseg. apply (elem_of_rawSegments p). rewrite Hsegs.
    apply elem_of_app. by left. }
  rewrite !toComparableSegments_raw, rawSegments_join, Hsegs by done. simpl.
  split; [done|]. split; [by apply prefix_app_r|].
  intros Heq. apply (f_equal length) in Heq. rewrite length_app in Heq. simpl in Heq. lia.
Qed.

Lemma key_of_unrooted_folders (first : str) (rest : list str) (l : str) (p : str) :
  first ≠ lit "root" →
  rawSegments p = (first :: rest) ++ [l] →
  getPathRelation (lit "root/" ++ join SLASH (first :: rest)) p = ancestor.
Proof.
  intros Hfirst Hsegs. apply getPathRelation_ancestor_prefix.
  rewrite root_join_segments.
  - rewrite toComparableSegments_raw, Hsegs. simpl.
    rewrite decide_False by done.
    split; [done|]. split; [by exists [l]|].
    intros Heq. apply (f_equal length) in Heq. simpl in Heq.
    rewrite length_app in Heq. simpl in Heq. lia.
  - intros seg Hseg. apply (elem_of_rawSegments p). rewrite Hsegs.
    apply elem_of_app. by left.
Qed.

Lemma folderKeyFromPointPath_cases (p key : str) :
  folderKeyFromPointPath p = Some key →
  key = lit "root" ∨ getPathRelation key p = ancestor.
Proof.
  unfold folderKeyFromPointPath.
  change (filter (fun s => truthy s = true) (map trim (split SLASH (normalizePath p))))
    with (rawSegments p).
  destruct (Nat.leb_spec (length (rawSegments p)) 1) as [|Hlen]; [done|].
  assert (rawSegments p ≠ []) as Hne by (intros E; rewrite E in Hlen; simpl in Hlen; lia).
  pose proof (rawSegments_removelast p Hne) as Hsegs.
  destruct (removelast (rawSegments p)) as [|first rest] eqn:Hfolders; [done|].
  cbn [length Nat.eqb].
  destruct (decide (first = lit "root")) as [->|Hfirst]; intros [= <-].
  - destruct rest as [|r rest]; [by left|]. right.
    by apply (key_of_rooted_folders (r :: rest) (List.last (rawSegments p) [])).
  - right. by apply (key_of_unrooted_folders first rest (List.last (rawSegments p) [])).
Qed.

(** X20. The folder suggested for an unassigned point is a strict ancestor
    of the point, so that marking it as the only device makes it the owner
    of the point; the one exception is a point directly beneath the root,
    whose suggested folder, the root itself, owns nothing. *)
Theorem folderKeyFromPointPath_owns (p key : str) :
  folderKeyFromPointPath p = Some key →
  (key ≠ lit "root" →
   getPathRelation key p = ancestor ∧ computeOwnerDevice p [key] = Some key) ∧
  (key = lit "root" → computeOwnerDevice p [key] = None).
Proof.
  intros Hkey. split.
  - intros Hroot. destruct (folderKeyFromPointPath_cases p key Hkey) as [|Hrel]; [done|].
    split; [done|]. unfold computeOwnerDevice. simpl. unfold ownerStep, qualifies.
    by rewrite Hrel.
  - intros ->. apply computeOwnerDevice_none. intros d Hd.
    apply list_elem_of_singleton in Hd as ->.
    destruct (qualifies (lit "root") p) eqn:E; [|done].
    apply qualifies_prefix in E as [Hne _]. by vm_compute in Hne.
Qed.

Lemma folderKeyFromPointPath_owns_witness :
  computeOwnerDevice (lit "plant\\A//B/p1") [lit "root/plant/A/B"]
  = Some (lit "root/plant/A/B").
Proof.
  apply (folderKeyFromPointPath_owns (lit "plant\\A//B/p1") (lit "root/plant/A/B")).
  - by vm_compute.
  - by vm_compute.
Defined.


Lemma folderKeyFromPointPath_nonempty (p key : str) :
  folderKeyFromPointPath p = Some key → key ≠ [].
Proof.
  intros Hkey ->. destruct (folderKeyFromPointPath_cases p [] Hkey) as [E|Hrel].
  - by vm_compute in E.
  - apply getPathRelation_ancestor_prefix in Hrel as [Hne _]. by vm_compute in Hne.
Qed.

Lemma length_filter_zero {A} (P : A → Prop) {Pdec : ∀ x, Decision (P x)} (l : list A) :
  length (filter P l) = 0 ↔ ∀ x, x ∈ l → ¬ P x.
Proof.
  induction l as [|x l IH].
  - split; [|done]. intros _ y Hy. by apply elem_of_nil in Hy.
  - rewrite filter_cons. destruct (decide (P x)) as [Hx|Hx].
    + split; [done|]. intros H. exfalso. apply (H x); [left|done].
    + rewrite IH. split.
      * intros H y Hy. apply elem_of_cons in Hy as [->|Hy]; [done|by apply H].
      * intros H y Hy. apply H. by right.
Qed.

Lemma unassigned_loop (devices : list str) (pts : list PointRecord.t)
    (n : nat) (s : list str) :
  let r := foldl (unassignedStep devices) (n, s) pts in
  r.1 = n + length (filter (fun pt => computeOwnerDevice (PointRecord.path pt) devices = None)
                      pts) ∧
  (NoDup s → NoDup r.2) ∧
  ∀ f, f ∈ r.2 ↔
       f ∈ s ∨ ∃ pt, pt ∈ pts ∧
                     computeOwnerDevice (PointRecord.path pt) devices = None ∧
                     folderKeyFromPointPath (PointRecord.path pt) = Some f.
Proof.
  revert n s. induction pts as [|pt pts IH]; intros n s.
  - simpl. split; [lia|]. split; [done|]. intros f. split; [by left|].
    intros [?|(pt & Hpt & _)]; [done|]. by apply elem_of_nil in Hpt.
  - cbn [foldl]. rewrite filter_cons.
    destruct (computeOwnerDevice (PointRecord.path pt) devices) as [o|] eqn:Hown.
    + assert (unassignedStep devices (n, s) pt = (n, s)) as ->
        by (unfold unassignedStep; by rewrite Hown).
      rewrite decide_False by done.
      destruct (IH n s) as (Hn & Hnd & Hmem). split; [done|]. split; [done|].
      intros f. rewrite Hmem. split.
      * intros [?|(pt' & Hpt' & H1 & H2)]; [by left|]. right. exists pt'.
        split; [by right|done].
      * intros [?|(pt' & Hpt' & H1 & H2)]; [by left|]. right. exists pt'.
        apply elem_of_cons in Hpt' as [->|Hpt']; [congruence|done].
    + assert (unassignedStep devices (n, s) pt
              = (S n, match folderKeyFromPointPath (PointRecord.path pt) with
                      | Some fk => if truthy fk then setAdd s fk else s
                      | None => s
                      end)) as ->
        by (unfold unassignedStep; by rewrite Hown).
      rewrite decide_True by done.
      destruct (folderKeyFromPointPath (PointRecord.path pt)) as [fk|] eqn:Hfk.
      * pose proof (folderKeyFromPointPath_nonempty _ _ Hfk) as Hne.
        apply truthy_true in Hne. rewrite Hne.
        destruct (IH (S n) (setAdd s fk)) as (Hn & Hnd & Hmem).
        split; [simpl; lia|]. split.
        -- intros Hs. apply Hnd. by apply (NoDup_foldl_setAdd [fk]).
        -- intros f. rewrite Hmem, elem_of_setAdd. split.
           ++ intros [[?| ->]|(pt' & Hpt' & H1 & H2)].
              ** by left.
              ** right. exists pt. split; [left|done].
              ** right. exists pt'. split; [by right|done].
           ++ intros [?|(pt' & Hpt' & H1 & H2)]; [by left; left|].
              apply elem_of_cons in Hpt' as [->|Hpt'].
              ** left. right. congruence.
              ** right. by exists pt'.
      * destruct (IH (S n) s) as (Hn & Hnd & Hmem).
        split; [simpl; lia|]. split; [done|].
        intros f. rewrite Hmem. split.
        -- intros [?|(pt' & Hpt' & H1 & H2)]; [by left|]. right. exists pt'.
           split; [by right|done].
        -- intros [?|(pt' & Hpt' & H1 & H2)]; [by left|]. right. exists pt'.
           apply elem_of_cons in Hpt' as [->|Hpt']; [congruence|done].
Qed.

(** X21. The unassigned statistics count every point and, as unassigned,
    exactly the points without an owning device: never more than the total,
    none exactly when every point has an owner, all of them when there is
    no device. The suggested folders are the folder keys of the unassigned
    points, each once, in ascending order. *)
Theorem unassignedStats_counts {C : Collator} {CC : ConsistentCollator C}
    (st : AppState) :
  let stats := unassignedStats st in
  let unowned := fun pt => computeOwnerDevice (PointRecord.path pt) (devicePaths st) = None in
  UnassignedStats.totalPointsCount stats = length (points st) ∧
  UnassignedStats.unassignedPointsCount stats = length (filter unowned (points st)) ∧
  UnassignedStats.unassignedPointsCount stats ≤ UnassignedStats.totalPointsCount stats ∧
  (UnassignedStats.unassignedPointsCount stats = 0 ↔
   ∀ pt, pt ∈ points st →
         is_Some (computeOwnerDevice (PointRecord.path pt) (devicePaths st))) ∧
  (devicePaths st = [] →
   UnassignedStats.unassignedPointsCount stats = UnassignedStats.totalPointsCount stats) ∧
  (∀ f, f ∈ UnassignedStats.unassignedFolderPaths stats ↔
        ∃ pt, pt ∈ points st ∧ unowned pt ∧
              folderKeyFromPointPath (PointRecord.path pt) = Some f) ∧
  NoDup (UnassignedStats.unassignedFolderPaths stats) ∧
  ascending (UnassignedStats.unassignedFolderPaths stats).
Proof.
  intros stats unowned.
  destruct (unassigned_loop (devicePaths st) (points st) 0 []) as (Hn & Hnd & Hmem).
  cbv zeta in Hn, Hnd, Hmem. simpl in Hn.
  assert (UnassignedStats.unassignedPointsCount stats
          = length (filter unowned (points st))) as Hcount by exact Hn.
  split; [done|]. split; [done|]. split; [|split; [|split; [|split; [|split]]]].
  - rewrite Hcount. apply length_filter.
  - rewrite Hcount, length_filter_zero. unfold unowned. split.
    + intros H pt Hpt. specialize (H pt Hpt).
      by destruct (computeOwnerDevice _ _).
    + intros H pt Hpt E. specialize (H pt Hpt). rewrite E in H. by destruct H.
  - intros Hdevs. rewrite Hcount. simpl. f_equal. apply filter_all.
    intros pt _. unfold unowned. by rewrite Hdevs.
  - intros f. unfold stats, unassignedStats. simpl. rewrite elem_of_sortBy, Hmem.
    split; [|by right]. intros [Hf|?]; [by apply elem_of_nil in Hf|done].
  - apply NoDup_sortBy, Hnd, NoDup_nil_2.
  - apply sortBy_ascending.
Qed.

Lemma unassignedStats_counts_witness :
  let st0 := mkApp None [] [PointRecord.mk (lit "A/p1") (lit "Points");
                            PointRecord.mk (lit "B/p2") (lit "Points")]
               [lit "root/A"] [] ∅ [] [] None ∅ None [] ∅ in
  UnassignedStats.unassignedPointsCount (unassignedStats st0) ≤ 2.
Proof.
  intros st0.
  apply (unassignedStats_counts (CC := codeUnitCollator_consistent) st0).
Defined.

(** ** Parsing the points *)

Lemma length_omap_le {A B} (f : A → option B) (l : list A) :
  length (omap f l) ≤ length l.
Proof.
  induction l as [|x l IH]; [done|]. cbn [omap list_omap].
  fold (omap f l). destruct (f x); simpl; lia.
Qed.

(** X22. Every parsed point has a non-blank, trimmed path and a non-blank
    type; the points are the rows with a non-blank path, in the order of
    the rows; without a type column every type is [Points]. *)
Theorem parsePointsFromCsv_points (rows : list (gmap str str)) (pathCol typeCol : str) :
  let pts := parsePointsFromCsv rows pathCol typeCol in
  let pathOf := fun rec : gmap str str => trim (default [] (rec !! pathCol)) in
  map PointRecord.path pts = filter (fun p => p ≠ []) (map pathOf rows) ∧
  length pts ≤ length rows ∧
  (∀ pt, pt ∈ pts →
         PointRecord.path pt ≠ [] ∧ trim (PointRecord.path pt) = PointRecord.path pt ∧
         PointRecord.type pt ≠ []) ∧
  (typeCol = [] → ∀ pt, pt ∈ pts → PointRecord.type pt = lit "Points").
Proof.
  intros pts pathOf. unfold pts, parsePointsFromCsv.
  split; [|split; [|split]].
  - subst pathOf. induction rows as [|rec rows IH]; [done|].
    cbn [omap list_omap map]. cbn beta. rewrite filter_cons.
    destruct (trim (default [] (rec !! pathCol))) as [|c t] eqn:E.
    + cbn [truthy negb]. rewrite decide_False by (intros H; by apply H). exact IH.
    + cbn [truthy negb map PointRecord.path]. rewrite decide_True by done.
      f_equal. exact IH.
  - apply length_omap_le.
  - intros pt Hpt. apply list_elem_of_omap in Hpt as (rec & _ & Hrec).
    fold (pathOf rec) in Hrec.
    destruct (truthy (pathOf rec)) eqn:Hp; [|done]. simpl in Hrec.
    injection Hrec as <-. simpl. split; [by apply truthy_true|].
    split; [apply trim_idemp|].
    destruct (truthy typeCol); [|done].
    destruct (truthy (trim (default [] (rec !! typeCol)))) eqn:Ht; [|done].
    by apply truthy_true.
  - intros -> pt Hpt. apply list_elem_of_omap in Hpt as (rec & _ & Hrec).
    destruct (negb _); [done|]. by injection Hrec as <-.
Qed.

(** ** Selection *)

Lemma toggle_members (path : str) (st : AppState) (x : str) :
  x ∈ selectedPaths (toggleSelection path st) ↔
  (x ≠ path ∧ x ∈ selectedPaths st) ∨ (x = path ∧ path ∉ selectedPaths st).
Proof.
  unfold toggleSelection. simpl.
  destruct (setHas (setFrom (selectedPaths st)) path) eqn:Hhas.
  - apply setHas_true in Hhas. rewrite elem_of_setFrom in Hhas.
    unfold setDelete. rewrite list_elem_of_filter, elem_of_setFrom. tauto.
  - apply setHas_false in Hhas. rewrite elem_of_setFrom in Hhas.
    rewrite elem_of_setAdd, elem_of_setFrom.
    destruct (decide (x = path)) as [->|]; tauto.
Qed.

(** X23. Toggling a path flips whether that path is selected and nothing
    else; the selection it gives holds no path twice; toggling the same
    path again gives back the same selected paths, and the same list when
    a path is toggled on and off again in a selection without
    duplicates. *)
Theorem toggleSelection_flips (path : str) (st : AppState) :
  let st' := toggleSelection path st in
  NoDup (selectedPaths st') ∧
  (path ∈ selectedPaths st' ↔ path ∉ selectedPaths st) ∧
  (∀ x, x ≠ path → (x ∈ selectedPaths st' ↔ x ∈ selectedPaths st)) ∧
  (∀ x, x ∈ selectedPaths (toggleSelection path st') ↔ x ∈ selectedPaths st) ∧
  (NoDup (selectedPaths st) → path ∉ selectedPaths st →
   selectedPaths (toggleSelection path st') = selectedPaths st) ∧
  devicePaths st' = devicePaths st.
Proof.
  intros st'. split; [|split; [|split; [|split; [|split; [|done]]]]].
  - unfold st', toggleSelection. simpl. destruct (setHas _ _).
    + apply NoDup_filter, NoDup_setFrom.
    + apply (NoDup_foldl_setAdd [path]), NoDup_setFrom.
  - unfold st'. rewrite toggle_members. tauto.
  - intros x Hx. unfold st'. rewrite toggle_members. tauto.
  - intros x. unfold st'. rewrite !toggle_members.
    destruct (decide (x = path)) as [->|]; [|tauto].
    destruct (decide (path ∈ selectedPaths st)); tauto.
  - intros Hnd Hout. unfold st', toggleSelection. simpl.
    rewrite (setFrom_NoDup_id (selectedPaths st)) by done.
    assert (setHas (selectedPaths st) path = false) as -> by by apply setHas_false.
    assert (setAdd (selectedPaths st) path = selectedPaths st ++ [path]) as ->.
    { unfold setAdd. by rewrite decide_False. }
    assert (NoDup (selectedPaths st ++ [path])) as Hnd'.
    { apply NoDup_app. split; [done|]. split; [|apply NoDup_singleton].
      intros x Hx Hin. apply list_elem_of_singleton in Hin as ->. done. }
    rewrite (setFrom_NoDup_id _ Hnd').
    assert (setHas (selectedPaths st ++ [path]) path = true) as ->.
    { apply setHas_true, elem_of_app. right. left. }
    unfold setDelete. rewrite filter_app.
    rewrite (filter_all (fun y => y ≠ path) (selectedPaths st))
      by (intros y Hy ->; done).
    rewrite filter_cons. rewrite decide_False by (intros H; by apply H).
    simpl. apply app_nil_r.
Qed.

(** ** Export *)

(** X24. The export is refused without a CSV text or a selected column.
    Otherwise it keeps every row in its place, sets the column
    [device_name] of each row to the name computed for the row and leaves
    every other column as it was; the output columns are the input columns,
    with [device_name] appended when it is not among them. *)
Theorem exportCsvWithDeviceNames_rows (st : AppState) (rows : list (gmap str str))
    (inputColumns : list str) :
  (exportCsvWithDeviceNames st rows = None ↔
   csvText st = None ∨ csvText st = Some [] ∨ selectedColumn st = []) ∧
  (∀ out, exportCsvWithDeviceNames st rows = Some out →
          length out = length rows ∧
          ∀ i rec, rows !! i = Some rec →
                   ∃ rec', out !! i = Some rec' ∧
                           rec' !! DEVICE_NAME = Some (exportDeviceName st rec) ∧
                           ∀ col, col ≠ DEVICE_NAME → rec' !! col = rec !! col) ∧
  (∀ col, col ∈ exportColumns inputColumns ↔ col ∈ inputColumns ∨ col = DEVICE_NAME) ∧
  inputColumns `prefix_of` exportColumns inputColumns ∧
  (NoDup inputColumns → NoDup (exportColumns inputColumns)) ∧
  exportColumns (exportColumns inputColumns) = exportColumns inputColumns.
Proof.
  assert (∀ cols col, col ∈ exportColumns cols ↔ col ∈ cols ∨ col = DEVICE_NAME) as Hmem.
  { intros cols col. unfold exportColumns. destruct (bool_decide_reflect (DEVICE_NAME ∈ cols)).
    - split; [by left|]. by intros [?| ->].
    - rewrite elem_of_app, list_elem_of_singleton. done. }
  split; [|split; [|split; [|split; [|split]]]].
  - unfold exportCsvWithDeviceNames. destruct (csvText st) as [text|]; [|by split; [left|]].
    destruct text as [|c text]; simpl.
    { split; [by right; left|done]. }
    destruct (selectedColumn st) as [|c' col]; simpl.
    + split; [by right; right|done].
    + split; [done|]. by intros [?|[?|?]].
  - intros out Hout. unfold exportCsvWithDeviceNames in Hout.
    destruct (csvText st) as [text|]; [|done].
    destruct (negb (truthy text) || negb (truthy (selectedColumn st))); [done|].
    injection Hout as <-. split; [apply length_map|].
    intros i rec Hi. exists (<[DEVICE_NAME := exportDeviceName st rec]> rec).
    split.
    + change map with (@fmap list _). by rewrite list_lookup_fmap, Hi.
    + split; [apply lookup_insert_eq|]. intros col Hcol. by apply lookup_insert_ne.
  - apply Hmem.
  - unfold exportColumns. destruct (bool_decide _); [done|]. by apply prefix_app_r.
  - intros Hnd. unfold exportColumns.
    destruct (bool_decide_reflect (DEVICE_NAME ∈ inputColumns)) as [|Hout]; [done|].
    apply NoDup_app. split; [done|]. split; [|apply NoDup_singleton].
    intros x Hx Hin. apply list_elem_of_singleton in Hin as ->. done.
  - unfold exportColumns at 1. rewrite bool_decide_eq_true_2; [done|].
    apply Hmem. by right.
Qed.

(** ** The conflict planner *)

Lemma conflictStep_sets (e c : str) (acc : Conflicts.t) (x : str) :
  (x ∈ Conflicts.upstream (conflictStep e acc c) ↔
   x ∈ Conflicts.upstream acc ∨ (x = e ∧ getPathRelation e c = ancestor)) ∧
  (x ∈ Conflicts.downstream (conflictStep e acc c) ↔
   x ∈ Conflicts.downstream acc ∨ (x = e ∧ getPathRelation e c = descendant)).
Proof.
  unfold conflictStep. destruct (getPathRelation e c); simpl;
    rewrite ?elem_of_setAdd; intuition congruence.
Qed.

Lemma conflictStep_NoDup (e c : str) (acc : Conflicts.t) :
  NoDup (Conflicts.upstream acc) ∧ NoDup (Conflicts.downstream acc) ∧
  NoDup (Conflicts.remove acc) →
  NoDup (Conflicts.upstream (conflictStep e acc c)) ∧
  NoDup (Conflicts.downstream (conflictStep e acc c)) ∧
  NoDup (Conflicts.remove (conflictStep e acc c)).
Proof.
  intros (Hu & Hd & Hr). unfold conflictStep.
  destruct (getPathRelation e c); simpl; split_and!;
    try done; by apply (NoDup_foldl_setAdd [e]).
Qed.

Lemma conflictInner_sets (e : str) (toAdd : list str) (acc : Conflicts.t) (x : str) :
  (x ∈ Conflicts.upstream (foldl (conflictStep e) acc toAdd) ↔
   x ∈ Conflicts.upstream acc ∨
   (x = e ∧ ∃ c, c ∈ toAdd ∧ getPathRelation e c = ancestor)) ∧
  (x ∈ Conflicts.downstream (foldl (conflictStep e) acc toAdd) ↔
   x ∈ Conflicts.downstream acc ∨
   (x = e ∧ ∃ c, c ∈ toAdd ∧ getPathRelation e c = descendant)).
Proof.
  revert acc. induction toAdd as [|c toAdd IH]; intros acc; simpl.
  - split; (split; [auto|]; intros [?|(_ & c & Hc & _)];
            [done|by apply elem_of_nil in Hc]).
  - destruct (IH (conflictStep e acc c)) as [IHu IHd].
    destruct (conflictStep_sets e c acc x) as [Hu Hd].
    rewrite IHu, IHd, Hu, Hd. split.
    + split.
      * intros [[?|[-> ?]]|[-> (c' & ? & ?)]]; auto.
        -- right. split; [done|]. exists c. split; [left|done].
        -- right. split; [done|]. exists c'. split; [by right|done].
      * intros [?|[-> (c' & Hc' & ?)]]; auto.
        apply elem_of_cons in Hc' as [->|?]; [by left; right|].
        right. split; [done|]. by exists c'.
    + split.
      * intros [[?|[-> ?]]|[-> (c' & ? & ?)]]; auto.
        -- right. split; [done|]. exists c. split; [left|done].
        -- right. split; [done|]. exists c'. split; [by right|done].
      * intros [?|[-> (c' & Hc' & ?)]]; auto.
        apply elem_of_cons in Hc' as [->|?]; [by left; right|].
        right. split; [done|]. by exists c'.
Qed.

Lemma scanConflicts_sets_from (devices toAdd : list str) (acc : Conflicts.t) (x : str) :
  let sets := foldl (fun acc existing => foldl (conflictStep existing) acc toAdd)
                acc devices in
  (x ∈ Conflicts.upstream sets ↔
   x ∈ Conflicts.upstream acc ∨
   (x ∈ devices ∧ ∃ c, c ∈ toAdd ∧ getPathRelation x c = ancestor)) ∧
  (x ∈ Conflicts.downstream sets ↔
   x ∈ Conflicts.downstream acc ∨
   (x ∈ devices ∧ ∃ c, c ∈ toAdd ∧ getPathRelation x c = descendant)).
Proof.
  revert acc. induction devices as [|e devices IH]; intros acc; simpl.
  - split; (split; [auto|]; intros [?|[H _]]; [done|by apply elem_of_nil in H]).
  - destruct (IH (foldl (conflictStep e) acc toAdd)) as [IHu IHd].
    destruct (conflictInner_sets e toAdd acc x) as [Hu Hd].
    simpl in IHu, IHd. rewrite IHu, IHd, Hu, Hd. split.
    + split.
      * intros [[?|[-> ?]]|[? ?]]; auto.
        -- right. split; [left|done].
        -- right. split; [by right|done].
      * intros [?|[Hx ?]]; auto.
        apply elem_of_cons in Hx as [->|?]; [by left; right|by right].
    + split.
      * intros [[?|[-> ?]]|[? ?]]; auto.
        -- right. split; [left|done].
        -- right. split; [by right|done].
      * intros [?|[Hx ?]]; auto.
        apply elem_of_cons in Hx as [->|?]; [by left; right|by right].
Qed.

Lemma scanConflicts_NoDup (devices toAdd : list str) :
  NoDup (Conflicts.upstream (scanConflicts devices toAdd)) ∧
  NoDup (Conflicts.downstream (scanConflicts devices toAdd)) ∧
  NoDup (Conflicts.remove (scanConflicts devices toAdd)).
Proof.
  unfold scanConflicts.
  assert (∀ acc,
            NoDup (Conflicts.upstream acc) ∧ NoDup (Conflicts.downstream acc) ∧
            NoDup (Conflicts.remove acc) →
            let sets := foldl (fun acc existing => foldl (conflictStep existing) acc toAdd)
                          acc devices in
            NoDup (Conflicts.upstream sets) ∧ NoDup (Conflicts.downstream sets) ∧
            NoDup (Conflicts.remove sets)) as H.
  { induction devices as [|e devices IH]; intros acc Hacc; [done|]. simpl.
    apply IH. clear IH. revert acc Hacc.
    induction toAdd as [|c toAdd IH]; intros acc Hacc; [done|]. simpl.
    apply IH. by apply conflictStep_NoDup. }
  apply H. simpl. split_and!; apply NoDup_nil_2.
Qed.

(** X25. Of the sets the conflict scan fills, the upstream set holds
    exactly the current devices that are an ancestor of a path to add, the
    downstream set exactly those that are a descendant of one, and the
    to-remove set is their union; none of the three holds a path twice;
    and, the paths to add being those a selection keeps, no device is both
    upstream and downstream. *)
Theorem scanConflicts_sets (devices sel : list str) :
  let toAdd := selectionToAdd sel in
  let sets := scanConflicts devices toAdd in
  (∀ e, e ∈ Conflicts.upstream sets ↔
        e ∈ devices ∧ ∃ c, c ∈ toAdd ∧ getPathRelation e c = ancestor) ∧
  (∀ e, e ∈ Conflicts.downstream sets ↔
        e ∈ devices ∧ ∃ c, c ∈ toAdd ∧ getPathRelation e c = descendant) ∧
  (∀ e, e ∈ Conflicts.remove sets ↔
        e ∈ Conflicts.upstream sets ∨ e ∈ Conflicts.downstream sets) ∧
  (∀ e, e ∈ Conflicts.upstream sets → e ∉ Conflicts.downstream sets) ∧
  NoDup (Conflicts.upstream sets) ∧ NoDup (Conflicts.downstream sets) ∧
  NoDup (Conflicts.remove sets).
Proof.
  intros toAdd sets.
  assert (∀ e, e ∈ Conflicts.upstream sets ↔
               e ∈ devices ∧ ∃ c, c ∈ toAdd ∧ getPathRelation e c = ancestor) as Hup.
  { intros e. unfold sets, scanConflicts.
    destruct (scanConflicts_sets_from devices toAdd (Conflicts.mk [] [] []) e) as [H _].
    cbv zeta in H. rewrite H. simpl. rewrite elem_of_nil. tauto. }
  assert (∀ e, e ∈ Conflicts.downstream sets ↔
               e ∈ devices ∧ ∃ c, c ∈ toAdd ∧ getPathRelation e c = descendant) as Hdown.
  { intros e. unfold sets, scanConflicts.
    destruct (scanConflicts_sets_from devices toAdd (Conflicts.mk [] [] []) e) as [_ H].
    cbv zeta in H. rewrite H. simpl. rewrite elem_of_nil. tauto. }
  split; [done|]. split; [done|]. split; [|split].
  - intros e. rewrite Hup, Hdown. unfold sets.
    rewrite elem_of_scanConflicts_remove. unfold conflicting. split.
    + intros [He (c & Hc & [Hr|Hr])]; [left|right]; split; [done| |done|]; by exists c.
    + intros [[He (c & Hc & Hr)]|[He (c & Hc & Hr)]]; (split; [done|]); exists c; auto.
  - intros e He Hd. apply Hup in He as [_ (c1 & Hc1 & Hr1)].
    apply Hdown in Hd as [_ (c2 & Hc2 & Hr2)].
    apply getPathRelation_flip in Hr2.
    apply (selectionToAdd_compatible sel c2 c1 Hc2 Hc1). left.
    apply (getPathRelation_ancestor_trans c2 e c1); [done|].
    apply qualifies_relation. by left.
  - apply scanConflicts_NoDup.
Qed.

(** ** Marking folders as devices, end to end *)

Section MarkedFolders.

Context {C : Collator}.

(** The Device Set after marking the selection and confirming whatever
    was staged. *)
Lemma elem_of_marked_devicePaths (st : AppState) (x : str) :
  pendingConflict st = None →
  let toAdd := selectionToAdd (setFrom (selectedPaths st)) in
  x ∈ devicePaths (confirmDeviceConflict (markSelectionAsDevices st)) ↔
  (x ∈ devicePaths st ∧ x ∉ Conflicts.remove (scanConflicts (devicePaths st) toAdd)) ∨
  x ∈ toAdd.
Proof.
  intros Hnone toAdd.
  destruct (markSelectionAsDevices_cases st)
    as [(Hst & Hsel)|[(Hne & Hboth & Hdev)|(Hst & Hdev)]].
  - rewrite Hst. unfold confirmDeviceConflict. rewrite Hnone.
    unfold toAdd. rewrite Hsel. simpl. rewrite scanConflicts_remove_nil.
    rewrite !elem_of_nil. tauto.
  - assert (pendingConflict (markSelectionAsDevices st) = None) as Hp.
    { rewrite <- Hnone. unfold markSelectionAsDevices.
      destruct (length (selectedPaths st) =? 0); [done|].
      destruct (negb _ || negb _) eqn:E; [|by destruct (selectionToAdd _)].
      exfalso. unfold planConflict in E. simpl in E. rewrite !length_sortBy in E.
      destruct Hboth as [H1 H2]. by rewrite H1, H2 in E. }
    unfold confirmDeviceConflict. rewrite Hp, Hdev.
    rewrite elem_of_foldl_setAdd, elem_of_setFrom.
    destruct Hboth as [Hrem _]. fold toAdd in Hrem. rewrite Hrem, elem_of_nil. tauto.
  - unfold confirmDeviceConflict. rewrite Hst. simpl.
    rewrite elem_of_foldl_setAdd, elem_of_setFrom, list_elem_of_filter.
    rewrite setHas_false, elem_of_setFrom, !elem_of_sortBy. fold toAdd. tauto.
Qed.

(** X26. Marking a selection and confirming the plan, if one was staged,
    makes every folder kept from the selection a device, and every point
    at or beneath such a folder is then owned by a device that names this
    very folder. *)
Theorem marked_folder_owns (st : AppState) (c p : str) :
  deviceSetInvariant (devicePaths st) →
  pendingConflict st = None →
  c ∈ selectionToAdd (setFrom (selectedPaths st)) →
  qualifies c p = true →
  let st' := confirmDeviceConflict (markSelectionAsDevices st) in
  c ∈ devicePaths st' ∧
  deviceSetInvariant (devicePaths st') ∧
  ∃ d, computeOwnerDevice p (devicePaths st') = Some d ∧
       toComparableSegments d = toComparableSegments c.
Proof.
  intros Hinv Hnone Hc Hq st'.
  assert (c ∈ devicePaths st') as Hin
    by (apply elem_of_marked_devicePaths; [done|by right]).
  pose proof (confirmDeviceConflict_invariant st Hinv Hnone) as Hinv'. fold st' in Hinv'.
  split; [done|]. split; [done|].
  destruct (computeOwnerDevice p (devicePaths st')) as [d|] eqn:Hown.
  - exists d. split; [done|].
    apply computeOwnerDevice_some in Hown as (i & Hi & Hqd & _).
    apply list_elem_of_lookup_2 in Hi.
    destruct (decide (d = c)) as [->|Hne]; [done|].
    destruct (Hinv' d c Hi Hin Hne) as [Hna Hnd].
    pose proof (qualifying_overlap p d c Hqd Hq) as Hov.
    destruct (getPathRelation d c) eqn:Hrel; try done.
    by apply getPathRelation_same_segments in Hrel as [_ ?].
  - rewrite computeOwnerDevice_none in Hown. rewrite (Hown c Hin) in Hq. done.
Qed.

End MarkedFolders.

Lemma marked_folder_owns_witness :
  let st0 := mkApp None [] [] [lit "root/A/sub"] [] ∅ [lit "root/A"] []
               None ∅ None [] ∅ in
  lit "root/A" ∈ devicePaths (confirmDeviceConflict (markSelectionAsDevices st0)).
Proof.
  intros st0. apply (marked_folder_owns st0 (lit "root/A") (lit "root/A/p")).
  - intros a b Ha Hb Hne. apply list_elem_of_singleton in Ha, Hb. congruence.
  - reflexivity.
  - vm_compute. left.
  - reflexivity.
Defined.

(** ** The device list and its bulk actions *)

Lemma beginMergeDevices_cases (ps : list str) (suggested : str) (st : AppState) :
  let members := filter (fun p => truthy p = true) (setFrom ps) in
  beginMergeDevices ps suggested st = st ∨
  (beginMergeDevices ps suggested st
     = setMergeName suggested
         (setPendingMerge (Some (PendingMerge.mk members suggested)) st) ∧
   2 ≤ length members ∧ NoDup members ∧
   ∀ p, p ∈ members ↔ p ∈ ps ∧ p ≠ []).
Proof.
  intros members. unfold beginMergeDevices. fold members.
  destruct (Nat.ltb_spec (length members) 2) as [|Hlen]; [by left|].
  right. split; [done|]. split; [done|]. split.
  - apply NoDup_filter, NoDup_setFrom.
  - intros p. unfold members.
    by rewrite list_elem_of_filter, truthy_true, elem_of_setFrom, (comm and).
Qed.

Lemma confirmMergeDevices_absorbed `{Collator} (freshId : str) (st : AppState)
    (pm : PendingMerge.t) :
  pendingMerge st = Some pm →
  (∀ p, p ∈ PendingMerge.memberPaths pm → p ∈ devicePaths st) →
  ∀ x, x ∈ devicePaths (confirmMergeDevices freshId st) ↔ x ∈ devicePaths st.
Proof.
  intros Hpm Hsub x. unfold confirmMergeDevices. rewrite Hpm.
  destruct (negb (truthy (trim (mergeName st)))); [done|]. simpl.
  rewrite foldl_setAdd_absorbed; [apply elem_of_setFrom|].
  intros y Hy. rewrite elem_of_setFrom in Hy. rewrite elem_of_setFrom. by apply Hsub.
Qed.

Section DevicesPanel.

Context {C : Collator}.

Lemma elem_of_deviceMembers (st : AppState) (it : DeviceListItem.t) (p : str) :
  p ∈ deviceMembers st it ↔ p ∈ memberPathsForItem it ∧ p ∈ devicePaths st.
Proof.
  unfold deviceMembers.
  by rewrite list_elem_of_filter, setHas_true, elem_of_setFrom, (comm and).
Qed.

Lemma mergeSelected_loop (st : AppState) (keys : list str) (acc : list str * str) (p : str) :
  (∀ q, q ∈ acc.1 → q ∈ devicePaths st) →
  p ∈ (foldl (mergeSelectedStep st) acc keys).1 → p ∈ devicePaths st.
Proof.
  revert acc. induction keys as [|k keys IH]; intros acc Hacc; [apply Hacc|].
  simpl. apply IH. intros q. unfold mergeSelectedStep.
  destruct (keyToItem (items st) !! k) as [it|]; [|apply Hacc]. simpl.
  rewrite elem_of_app, elem_of_deviceMembers. intros [?|[_ ?]]; [by apply Hacc|done].
Qed.

(** X27. A merge started from the devices panel stages current devices
    only: at least two of them, none twice. Whatever name is typed, to
    confirm it leaves the members of the Device Set as they were, so that
    the Device-Set invariant is kept. *)
Theorem mergeSelected_keeps_devices (checkedKeys : list str) (typed freshId : str)
    (st : AppState) :
  pendingMerge st = None →
  let st1 := mergeSelected checkedKeys st in
  let st2 := confirmMergeDevices freshId (setMergeName typed st1) in
  devicePaths st1 = devicePaths st ∧ mergedDevices st1 = mergedDevices st ∧
  (∀ pm, pendingMerge st1 = Some pm →
         2 ≤ length (PendingMerge.memberPaths pm) ∧
         NoDup (PendingMerge.memberPaths pm) ∧
         ∀ p, p ∈ PendingMerge.memberPaths pm → p ∈ devicePaths st ∧ p ≠ []) ∧
  (∀ x, x ∈ devicePaths st2 ↔ x ∈ devicePaths st) ∧
  (deviceSetInvariant (devicePaths st) → deviceSetInvariant (devicePaths st2)).
Proof.
  intros Hnone st1 st2.
  assert (st1 = st ∨
          ∃ unique suggested,
            (∀ p, p ∈ unique → p ∈ devicePaths st) ∧
            st1 = beginMergeDevices unique suggested st) as Hcases.
  { unfold st1, mergeSelected. destruct (length (setFrom checkedKeys) <? 2); [by left|].
    destruct (length _ <? 2); [by left|]. right. eexists _, _. split; [|done].
    intros p Hp. rewrite elem_of_setFrom in Hp.
    apply (mergeSelected_loop st _ ([], [])) in Hp; [done|].
    intros q Hq. by apply elem_of_nil in Hq. }
  assert (devicePaths st1 = devicePaths st ∧ mergedDevices st1 = mergedDevices st ∧
          ∀ pm, pendingMerge st1 = Some pm →
                2 ≤ length (PendingMerge.memberPaths pm) ∧
                NoDup (PendingMerge.memberPaths pm) ∧
                ∀ p, p ∈ PendingMerge.memberPaths pm → p ∈ devicePaths st ∧ p ≠ [])
    as (Hdevs & Hmds & Hpm).
  { destruct Hcases as [->|(unique & suggested & Hsub & ->)].
    - split; [done|]. split; [done|]. intros pm Hpm. congruence.
    - destruct (beginMergeDevices_cases unique suggested st) as [->|(-> & Hlen & Hnd & Hmem)].
      + split; [done|]. split; [done|]. intros pm Hpm. congruence.
      + split; [done|]. split; [done|]. intros pm [= <-]. simpl.
        split; [done|]. split; [done|]. intros p Hp. apply Hmem in Hp as [Hp Hne].
        split; [by apply Hsub|done]. }
  split; [done|]. split; [done|]. split; [done|].
  assert (∀ x, x ∈ devicePaths st2 ↔ x ∈ devicePaths st) as Hsame.
  { intros x. rewrite <- Hdevs. unfold st2.
    destruct (pendingMerge st1) as [pm|] eqn:Hp.
    - change (devicePaths st1) with (devicePaths (setMergeName typed st1)).
      apply (confirmMergeDevices_absorbed freshId (setMergeName typed st1) pm); [done|].
      intros p Hin. simpl. rewrite Hdevs. by apply (Hpm pm eq_refl).
    - unfold confirmMergeDevices. simpl. by rewrite Hp. }
  split; [done|].
  rewrite !deviceSetInvariant_alt. intros Hinv a b Ha Hb. apply Hinv; by apply Hsame.
Qed.

Lemma deleteChecked_loop (st : AppState) (keys : list str) (acc : list str) (p : str) :
  p ∈ foldl (deleteCheckedStep st) acc keys ↔
  p ∈ acc ∨ ∃ k it, k ∈ keys ∧ keyToItem (items st) !! k = Some it ∧
                    p ∈ memberPathsForItem it ∧ p ∈ devicePaths st.
Proof.
  revert acc. induction keys as [|k keys IH]; intros acc; simpl.
  - split; [by left|]. intros [?|(k & it & Hk & _)]; [done|by apply elem_of_nil in Hk].
  - rewrite IH. unfold deleteCheckedStep.
    destruct (keyToItem (items st) !! k) as [it|] eqn:Hit.
    + rewrite elem_of_app, elem_of_deviceMembers. split.
      * intros [[?|[? ?]]|(k' & it' & Hk' & ? & ? & ?)].
        -- by left.
        -- right. exists k, it. split; [left|done].
        -- right. exists k', it'. split; [by right|done].
      * intros [?|(k' & it' & Hk' & Hit' & ? & ?)]; [by left; left|].
        apply elem_of_cons in Hk' as [->|Hk'].
        -- left. right. rewrite Hit in Hit'. injection Hit' as <-. done.
        -- right. by exists k', it'.
    + split.
      * intros [?|(k' & it' & Hk' & ? & ? & ?)]; [by left|].
        right. exists k', it'. split; [by right|done].
      * intros [?|(k' & it' & Hk' & Hit' & ? & ?)]; [by left|].
        apply elem_of_cons in Hk' as [->|Hk']; [congruence|].
        right. by exists k', it'.
Qed.

(** X28. Deleting the checked items of the devices panel removes from the
    Device Set exactly the member paths of the checked items that are in
    the list, and keeps the Device-Set invariant. *)
Theorem deleteChecked_removes (checkedKeys : list str) (st : AppState) :
  let st' := deleteChecked checkedKeys st in
  (∀ x, x ∈ devicePaths st' ↔
        x ∈ devicePaths st ∧
        ¬ ∃ k it, k ∈ checkedKeys ∧ keyToItem (items st) !! k = Some it ∧
                  x ∈ memberPathsForItem it) ∧
  (deviceSetInvariant (devicePaths st) → deviceSetInvariant (devicePaths st')).
Proof.
  intros st'.
  assert (∀ x, x ∈ setFrom (foldl (deleteCheckedStep st) [] (setFrom checkedKeys)) ↔
               x ∈ devicePaths st ∧
               ∃ k it, k ∈ checkedKeys ∧ keyToItem (items st) !! k = Some it ∧
                       x ∈ memberPathsForItem it) as Hunique.
  { intros x. rewrite elem_of_setFrom, deleteChecked_loop, elem_of_nil.
    setoid_rewrite elem_of_setFrom. split.
    - intros [?|(k & it & ? & ? & ? & ?)]; [done|]. split; [done|]. by exists k, it.
    - intros [? (k & it & ? & ? & ?)]. right. by exists k, it. }
  split.
  - intros x. unfold st', deleteChecked.
    destruct (Nat.eqb_spec (length (setFrom checkedKeys)) 0) as [Hz|_].
    { split; [|by intros [? _]]. intros Hx. split; [done|].
      intros (k & it & Hk & _). apply elem_of_setFrom in Hk.
      apply nil_length_inv in Hz. rewrite Hz in Hk. by apply elem_of_nil in Hk. }
    destruct (Nat.eqb_spec
                (length (setFrom (foldl (deleteCheckedStep st) [] (setFrom checkedKeys))))
                0) as [Hz|_].
    + split; [|by intros [? _]]. intros Hx. split; [done|].
      intros Hex. apply nil_length_inv in Hz.
      assert (x ∈ setFrom (foldl (deleteCheckedStep st) [] (setFrom checkedKeys))) as Hin
        by (apply Hunique; by split).
      rewrite Hz in Hin. by apply elem_of_nil in Hin.
    + rewrite removeDevices_devicePaths, Hunique. tauto.
  - intros Hinv. unfold st', deleteChecked.
    destruct (length _ =? 0); [done|]. destruct (length _ =? 0); [done|].
    by apply removeDevices_invariant.
Qed.

Lemma elem_of_mergedMemberSet (mds : list MergedDevice.t) (p : str) :
  p ∈ mergedMemberSet mds ↔ ∃ md, md ∈ mds ∧ p ∈ MergedDevice.memberPaths md.
Proof.
  unfold mergedMemberSet. induction mds as [|md mds IH] using rev_ind.
  - simpl. split; [by intros ?%elem_of_nil|]. intros (md & Hmd & _).
    by apply elem_of_nil in Hmd.
  - rewrite foldl_app. simpl. rewrite elem_of_foldl_setAdd, IH. split.
    + intros [(md' & ? & ?)|?].
      * exists md'. split; [apply elem_of_app; by left|done].
      * exists md. split; [apply elem_of_app; right; left|done].
    + intros (md' & Hmd' & ?). apply elem_of_app in Hmd' as [?|Hmd'].
      * left. by exists md'.
      * apply list_elem_of_singleton in Hmd' as ->. by right.
Qed.

Lemma length_filter_mono {A} (P Q : A → Prop) {Pdec : ∀ x, Decision (P x)}
    {Qdec : ∀ x, Decision (Q x)} (l : list A) :
  (∀ x, x ∈ l → P x → Q x) → length (filter P l) ≤ length (filter Q l).
Proof.
  induction l as [|x l IH]; intros H; [done|]. rewrite !filter_cons.
  assert (length (filter P l) ≤ length (filter Q l)) as Hle
    by (apply IH; intros y Hy; apply H; by right).
  destruct (decide (P x)) as [Hp|Hp].
  - rewrite decide_True by (apply H; [left|done]). simpl. lia.
  - destruct (decide (Q x)); simpl; lia.
Qed.

(** X29. The number of entries of the devices panel is never more than
    the device count shown in the header of the graph, and the two agree
    when no merged device has a blank name. *)
Theorem deviceEntityCount_items (st : AppState) :
  length (items st) ≤ deviceEntityCount st ∧
  ((∀ md, md ∈ mergedDevices st → trim (MergedDevice.name md) ≠ []) →
   deviceEntityCount st = length (items st)).
Proof.
  assert (length (items st)
          = length (mergedDevices st)
            + length (filter (fun p => p ∉ mergedMemberSet (mergedDevices st))
                        (devicePaths st))) as Hitems.
  { unfold items. rewrite length_app, !length_map, length_sortBy. f_equal.
    rewrite (list_filter_iff _ (fun p => p ∉ mergedMemberSet (mergedDevices st)))
      by (intros p; apply setHas_false).
    by rewrite sortBy_perm. }
  rewrite Hitems. unfold deviceEntityCount. split.
  - apply Nat.add_le_mono_l. apply length_filter_mono. intros p _ Hp.
    apply mergedNameByPath_none. intros md Hmd Hin. exfalso. apply Hp.
    apply elem_of_mergedMemberSet. by exists md.
  - intros Hnames. f_equal. f_equal. apply list_filter_iff. intros p.
    rewrite mergedNameByPath_none, elem_of_mergedMemberSet. split.
    + intros H (md & Hmd & Hin). by apply (Hnames md Hmd), H.
    + intros H md Hmd Hin. exfalso. apply H. by exists md.
Qed.

End DevicesPanel.

Lemma mergeSelected_keeps_devices_witness :
  let st0 := mkApp None [] [] [lit "root/A"; lit "root/B"] [] ∅ [] [] None ∅ None [] ∅ in
  devicePaths (mergeSelected [lit "p:root/A"; lit "p:root/B"] st0) = devicePaths st0.
Proof.
  intros st0.
  apply (mergeSelected_keeps_devices (C := codeUnitCollator)
           [lit "p:root/A"; lit "p:root/B"] [] [] st0).
  reflexivity.
Defined.

(** ** The folder tree *)

Section FolderTree.

Implicit Types (m : gmap str FileTreeNode.t).

Lemma collectFolderPaths_spec m (fuel : nat) (set : list str) (key x : str) :
  x ∈ collectFolderPaths fuel m set key ↔ x ∈ set ∨ visits m fuel key x.
Proof.
  revert set key. induction fuel as [|fuel IH]; intros set key; simpl; [tauto|].
  destruct (m !! key) as [n|] eqn:Hn.
  - assert (∀ cs acc, x ∈ foldl (collectFolderPaths fuel m) acc cs ↔
                      x ∈ acc ∨ ∃ c, c ∈ cs ∧ visits m fuel c x) as Hloop.
    { induction cs as [|c cs IHcs]; intros acc; simpl.
      - split; [by left|]. intros [?|(c & Hc & _)]; [done|by apply elem_of_nil in Hc].
      - rewrite IHcs, IH. split.
        + intros [[?|?]|(c' & ? & ?)]; [by left| |].
          * right. exists c. split; [left|done].
          * right. exists c'. split; [by right|done].
        + intros [?|(c' & Hc' & ?)]; [by left; left|].
          apply elem_of_cons in Hc' as [->|?]; [by left; right|].
          right. by exists c'. }
    rewrite Hloop, elem_of_setAdd. split.
    + intros [[?| ->]|?]; [by left| |].
      * right. exists n. split; [done|by left].
      * right. exists n. split; [done|by right].
    + intros [?|(n' & [= <-] & [->|?])]; [by left; left|by left; right|by right].
  - split; [by left|]. intros [?|(n & ? & _)]; done.
Qed.

Lemma collectFolderPaths_NoDup m (fuel : nat) (set : list str) (key : str) :
  NoDup set → NoDup (collectFolderPaths fuel m set key).
Proof.
  revert set key. induction fuel as [|fuel IH]; intros set key Hnd; simpl; [done|].
  destruct (m !! key) as [n|]; [|done].
  assert (∀ cs acc, NoDup acc → NoDup (foldl (collectFolderPaths fuel m) acc cs)) as Hloop.
  { induction cs as [|c cs IHcs]; intros acc Hacc; simpl; [done|]. by apply IHcs, IH. }
  apply Hloop. by apply (NoDup_foldl_setAdd [FileTreeNode.path n]).
Qed.

Lemma visits_S m (fuel : nat) (key x : str) :
  visits m fuel key x → visits m (S fuel) key x.
Proof.
  revert key. induction fuel as [|fuel IH]; intros key; [done|].
  intros (n & Hn & [->|(c & Hc & Hv)]).
  - exists n. split; [done|by left].
  - exists n. split; [done|]. right. exists c. split; [done|by apply IH].
Qed.

Lemma visits_le m (fuel fuel' : nat) (key x : str) :
  fuel ≤ fuel' → visits m fuel key x → visits m fuel' key x.
Proof. induction 1; [done|]. intros Hv. by apply visits_S, IHle. Qed.

Section WellFormed.

Variable rootName : str.
Variable m : gmap str FileTreeNode.t.
Hypothesis wf : treeWellFormed rootName m.

Lemma visits_stored (fuel : nat) (key x : str) :
  visits m fuel key x → is_Some (m !! x).
Proof.
  destruct wf as (_ & Hpath & Hkids & _).
  revert key. induction fuel as [|fuel IH]; intros key; [done|].
  intros (n & Hn & [->|(c & Hc & Hv)]).
  - rewrite (Hpath key n Hn). by exists n.
  - by apply (IH c).
Qed.

Lemma visits_child (fuel : nat) (key p c : str) (n : FileTreeNode.t) :
  visits m fuel key p → m !! p = Some n → c ∈ FileTreeNode.children n →
  visits m (S fuel) key c.
Proof.
  destruct wf as (_ & Hpath & Hkids & _). intros Hv Hn Hc.
  assert (visits m 1 c c) as Hcc.
  { destruct (Hkids p n c Hn Hc) as [[nc Hnc] _]. exists nc. split; [done|].
    left. by rewrite (Hpath c nc Hnc). }
  revert key Hv. induction fuel as [|fuel IH]; intros key; [done|].
  intros (nk & Hnk & [->|(c' & Hc' & Hv)]).
  - rewrite (Hpath key nk Hnk) in Hn. rewrite Hn in Hnk. injection Hnk as <-.
    exists n. split; [done|]. right. exists c. split; [done|].
    apply (visits_le m 1); [lia|done].
  - exists nk. split; [done|]. right. exists c'. split; [done|by apply IH].
Qed.

Lemma visits_all (x : str) : is_Some (m !! x) → visits m (size m) rootName x.
Proof.
  destruct wf as (Hroot & Hpath & Hkids & Hparent).
  assert (∀ len x, length x = len → is_Some (m !! x) →
                   visits m (size (filter (fun k => length k ≤ length x) (dom m)))
                     rootName x) as Hbounded.
  { intros len. induction len as [len IH] using lt_wf_ind. intros c Hlen Hc.
    destruct (decide (c = rootName)) as [->|Hne].
    - apply (visits_le m 1).
      + assert ({[rootName]} ⊆ filter (fun k => length k ≤ length rootName) (dom m)) as Hsub.
        { intros k Hk. apply elem_of_singleton in Hk as ->.
          apply elem_of_filter. split; [done|]. by apply elem_of_dom. }
        apply subseteq_size in Hsub. by rewrite size_singleton in Hsub.
      + destruct Hroot as [n Hn]. exists n. split; [done|]. left.
        by rewrite (Hpath rootName n Hn).
    - destruct (Hparent c Hc Hne) as (k & n & Hn & Hin).
      destruct (Hkids k n c Hn Hin) as [_ Hlt].
      assert (visits m (size (filter (fun k' => length k' ≤ length k) (dom m)))
                rootName k) as Hk.
      { apply (IH (length k)); [lia|done|by exists n]. }
      apply (visits_child _ _ k c n) in Hk; [|done..].
      apply (visits_le m _ _ _ _ ) with (2 := Hk).
      assert (filter (fun k' => length k' ≤ length k) (dom m)
              ⊂ filter (fun k' => length k' ≤ length c) (dom m)) as Hsub.
      { split.
        - intros y Hy. apply elem_of_filter in Hy as [Hy1 Hy2].
          apply elem_of_filter. split; [lia|done].
        - intros Hsup. assert (c ∈ filter (fun k' => length k' ≤ length k) (dom m)) as Hc'.
          { apply Hsup, elem_of_filter. split; [done|]. by apply elem_of_dom. }
          apply elem_of_filter in Hc' as [Hc' _]. lia. }
      apply subset_size in Hsub. lia. }
  intros Hx. apply (visits_le m (size (filter (fun k => length k ≤ length x) (dom m)))).
  - rewrite <- (size_dom m). apply subseteq_size. intros y Hy.
    by apply elem_of_filter in Hy as [_ ?].
  - by apply (Hbounded (length x)).
Qed.

End WellFormed.

Lemma sameShape_refl m : sameShape m m.
Proof. intros k. by destruct (m !! k). Qed.

Lemma sameShape_trans m1 m2 m3 : sameShape m1 m2 → sameShape m2 m3 → sameShape m1 m3.
Proof.
  intros H12 H23 k. specialize (H12 k). specialize (H23 k).
  destruct (m1 !! k), (m2 !! k), (m3 !! k); try done.
  destruct H12 as (? & ? & H1), H23 as (? & ? & H2).
  split; [congruence|]. split; [congruence|]. intros c. by rewrite H1, H2.
Qed.

Lemma sameShape_stored m m' (k : str) :
  sameShape m m' → is_Some (m !! k) ↔ is_Some (m' !! k).
Proof.
  intros H. specialize (H k). destruct (m !! k), (m' !! k); [|done|done|done].
  split; intros _; by eexists.
Qed.

Lemma sameShape_wellFormed (rootName : str) m m' :
  sameShape m m' → treeWellFormed rootName m → treeWellFormed rootName m'.
Proof.
  intros Hs (Hroot & Hpath & Hkids & Hparent). split; [|split; [|split]].
  - by apply (sameShape_stored m m' rootName Hs).
  - intros k n' Hn'. pose proof (Hs k) as Hk. rewrite Hn' in Hk.
    destruct (m !! k) as [n|] eqn:Hn; [|done]. destruct Hk as (_ & <- & _).
    by apply Hpath.
  - intros k n' c Hn' Hc. pose proof (Hs k) as Hk. rewrite Hn' in Hk.
    destruct (m !! k) as [n|] eqn:Hn; [|done]. destruct Hk as (_ & _ & Hmem).
    apply Hmem in Hc. destruct (Hkids k n c Hn Hc) as [Hsome Hlt].
    split; [|done]. by apply (sameShape_stored m m' c Hs).
  - intros c Hc Hne. apply (sameShape_stored m m' c Hs) in Hc.
    destruct (Hparent c Hc Hne) as (k & n & Hn & Hin).
    pose proof (Hs k) as Hk. rewrite Hn in Hk.
    destruct (m' !! k) as [n'|] eqn:Hn'; [|done]. destruct Hk as (_ & _ & Hmem).
    exists k, n'. split; [done|]. by apply Hmem.
Qed.

Lemma sortRec_sameShape `{Collator} (fuel : nat) m (key : str) :
  sameShape m (sortRec fuel m key).
Proof.
  revert m key. induction fuel as [|fuel IH]; intros m key; simpl;
    [apply sameShape_refl|].
  destruct (m !! key) as [node|] eqn:Hnode; [|apply sameShape_refl].
  destruct (length (FileTreeNode.children node) =? 0); [apply sameShape_refl|].
  set (sorted := sortBy _ (FileTreeNode.children node)).
  assert (sameShape m (<[key := FileTreeNode.mk (FileTreeNode.name node)
                                  (FileTreeNode.path node) sorted]> m)) as Hstep.
  { intros k. destruct (decide (k = key)) as [->|Hne].
    - rewrite lookup_insert_eq, Hnode. simpl. split; [done|]. split; [done|].
      intros c. unfold sorted. by rewrite elem_of_sortBy.
    - rewrite lookup_insert_ne by done. by destruct (m !! k). }
  revert Hstep. generalize (<[key := FileTreeNode.mk (FileTreeNode.name node)
                                       (FileTreeNode.path node) sorted]> m).
  generalize sorted. clear sorted.
  induction sorted as [|c cs IHcs]; intros m' Hm'; simpl; [done|].
  apply IHcs. eapply sameShape_trans; [exact Hm'|apply IH].
Qed.

Lemma nodeName_sameShape m m' (c : str) :
  sameShape m m' → nodeName m c = nodeName m' c.
Proof.
  intros Hs. specialize (Hs c). unfold nodeName.
  destruct (m !! c), (m' !! c); try done. by destruct Hs.
Qed.

Lemma visits_sameShape m m' (fuel : nat) (key x : str) :
  sameShape m m' → visits m fuel key x → visits m' fuel key x.
Proof.
  intros Hs. revert key. induction fuel as [|fuel IH]; intros key; [done|].
  intros (n & Hn & Hv). pose proof (Hs key) as Hk. rewrite Hn in Hk.
  destruct (m' !! key) as [n'|] eqn:Hn'; [|done]. destruct Hk as (_ & Hpath & Hmem).
  exists n'. split; [done|]. destruct Hv as [->|(c & Hc & Hv)]; [by left|].
  right. exists c. split; [by apply Hmem|by apply IH].
Qed.

Lemma StronglySorted_ext {A} (R R' : A → A → Prop) (l : list A) :
  (∀ a b, R a b → R' a b) → StronglySorted R l → StronglySorted R' l.
Proof.
  intros HR. induction 1 as [|a l Hl IH Hall]; constructor; [done|].
  eapply Forall_impl; [exact Hall|]. intros b. apply HR.
Qed.

Section SortedChildren.

Context {C : Collator} {CC : ConsistentCollator C}.

Lemma childrenSorted_sameNames m m' (k : str) :
  sameShape m m' → m !! k = m' !! k → childrenSorted m k → childrenSorted m' k.
Proof.
  intros Hs Hk. unfold childrenSorted. rewrite <- Hk.
  destruct (m !! k) as [n|]; [|done]. apply StronglySorted_ext.
  intros a b. unfold notAfter. by rewrite !(nodeName_sameShape m m' _ Hs).
Qed.

Lemma childrenSorted_sorted m (key k : str) (node : FileTreeNode.t) :
  m !! key = Some node →
  let sorted := sortBy (fun a b => localeCompare (nodeName m a) (nodeName m b))
                  (FileTreeNode.children node) in
  let m1 := <[key := FileTreeNode.mk (FileTreeNode.name node) (FileTreeNode.path node)
                       sorted]> m in
  sameShape m m1 ∧ childrenSorted m1 key ∧ (childrenSorted m k → childrenSorted m1 k).
Proof.
  intros Hnode sorted m1.
  assert (sameShape m m1) as Hs.
  { intros k'. unfold m1. destruct (decide (k' = key)) as [->|Hne].
    - rewrite lookup_insert_eq, Hnode. simpl. split; [done|]. split; [done|].
      intros c. unfold sorted. by rewrite elem_of_sortBy.
    - rewrite lookup_insert_ne by done. by destruct (m !! k'). }
  assert (childrenSorted m1 key) as Hkey.
  { unfold childrenSorted, m1. rewrite lookup_insert_eq. simpl. fold m1.
    apply (StronglySorted_ext
             (notAfter (fun a b => localeCompare (nodeName m a) (nodeName m b)))).
    - intros a b. unfold notAfter. by rewrite !(nodeName_sameShape m m1 _ Hs).
    - apply sortBy_strongly_sorted.
      + intros a b. unfold notAfter. apply (@collate_total C CC).
      + intros a b c. unfold notAfter. apply (@collate_trans C CC). }
  split; [done|]. split; [done|]. intros Hk.
  destruct (decide (k = key)) as [->|Hne]; [done|].
  apply (childrenSorted_sameNames m m1 k Hs); [|done].
  unfold m1. by rewrite lookup_insert_ne.
Qed.

Lemma sortRec_keeps_sorted (fuel : nat) m (key k : str) :
  childrenSorted m k → childrenSorted (sortRec fuel m key) k.
Proof.
  revert m key. induction fuel as [|fuel IH]; intros m key Hk; simpl; [done|].
  destruct (m !! key) as [node|] eqn:Hnode; [|done].
  destruct (length (FileTreeNode.children node) =? 0); [done|].
  destruct (childrenSorted_sorted m key k node Hnode) as (_ & _ & Hstep).
  cbv zeta in Hstep. specialize (Hstep Hk). revert Hstep.
  generalize (<[key := FileTreeNode.mk (FileTreeNode.name node) (FileTreeNode.path node)
                         (sortBy (fun a b => localeCompare (nodeName m a) (nodeName m b))
                            (FileTreeNode.children node))]> m).
  generalize (sortBy (fun a b => localeCompare (nodeName m a) (nodeName m b))
                (FileTreeNode.children node)).
  intros cs. induction cs as [|c cs IHcs]; intros m' Hm'; simpl; [done|].
  by apply IHcs, IH.
Qed.

Lemma sortRec_loop_keeps_sorted (fuel : nat) (cs : list str) m (k : str) :
  childrenSorted m k → childrenSorted (foldl (sortRec fuel) m cs) k.
Proof.
  revert m. induction cs as [|c cs IH]; intros m Hk; simpl; [done|].
  by apply IH, sortRec_keeps_sorted.
Qed.

Lemma sortRec_sorts (rootName : str) (fuel : nat) m (key x : str) :
  treeWellFormed rootName m → visits m fuel key x →
  childrenSorted (sortRec fuel m key) x.
Proof.
  revert m key. induction fuel as [|fuel IH]; intros m key Hwf; [done|].
  intros (n & Hn & Hv). simpl. rewrite Hn.
  assert (FileTreeNode.path n = key) as Hpath by (by apply Hwf).
  destruct (FileTreeNode.children n) as [|c0 cs0] eqn:Hkids.
  - simpl. destruct Hv as [->|(c & Hc & _)]; [|by apply elem_of_nil in Hc].
    rewrite Hpath. unfold childrenSorted. rewrite Hn, Hkids. constructor.
  - cbn [length Nat.eqb]. rewrite <- Hkids.
    destruct (childrenSorted_sorted m key x n Hn) as (Hs1 & Hkey & _).
    cbv zeta in Hs1, Hkey.
    set (sorted := sortBy (fun a b => localeCompare (nodeName m a) (nodeName m b))
                     (FileTreeNode.children n)) in *.
    set (m1 := <[key := FileTreeNode.mk (FileTreeNode.name n) (FileTreeNode.path n)
                          sorted]> m) in *.
    destruct Hv as [->|(c & Hc & Hv)].
    + rewrite Hpath. apply sortRec_loop_keeps_sorted. exact Hkey.
    + assert (c ∈ sorted) as Hin by (unfold sorted; by rewrite elem_of_sortBy, Hkids).
      clear Hkey. revert Hs1 Hin. generalize m1. generalize sorted.
      intros l. induction l as [|c' l IHl]; intros m' Hs Hin; simpl.
      { by apply elem_of_nil in Hin. }
      destruct (decide (c' = c)) as [->|Hne].
      * apply sortRec_loop_keeps_sorted. apply IH.
        -- by apply (sameShape_wellFormed rootName m m').
        -- by apply (visits_sameShape m m').
      * apply IHl.
        -- eapply sameShape_trans; [exact Hs|apply sortRec_sameShape].
        -- apply elem_of_cons in Hin as [?|?]; [congruence|done].
Qed.

End SortedChildren.

(** The builder's inner loop. *)
Lemma insertSegment_spec (rootName : str) m (cur seg : str) :
  treeWellFormed rootName m → is_Some (m !! cur) →
  let r := insertSegment (m, cur) seg in
  treeWellFormed rootName r.1 ∧ r.2 = cur ++ SLASH :: seg ∧
  ∀ x, is_Some (r.1 !! x) ↔ is_Some (m !! x) ∨ x = cur ++ SLASH :: seg.
Proof.
  intros (Hroot & Hpath & Hkids & Hparent) [nc Hcur]. unfold insertSegment. simpl.
  set (next := cur ++ SLASH :: seg).
  destruct (m !! next) as [nn|] eqn:Hnext; simpl.
  { split; [done|]. split; [done|]. intros x. split; [by left|].
    intros [?| ->]; [done|by exists nn]. }
  assert (next ≠ cur) as Hne.
  { intros E. apply (f_equal length) in E. unfold next in E.
    rewrite length_app in E. simpl in E. lia. }
  set (new := FileTreeNode.mk (decodeStandardName seg) next []).
  assert (∀ k, alter (pushChild next) cur (<[next := new]> m) !! k
               = if decide (k = next) then Some new
                 else if decide (k = cur) then Some (pushChild next nc)
                 else m !! k) as Hlook.
  { intros k. destruct (decide (k = next)) as [->|Hk].
    - rewrite lookup_alter_ne by done. apply lookup_insert_eq.
    - destruct (decide (k = cur)) as [->|Hk'].
      + rewrite lookup_alter_eq, lookup_insert_ne by done. by rewrite Hcur.
      + rewrite lookup_alter_ne, lookup_insert_ne by done. done. }
  assert (∀ x, is_Some (alter (pushChild next) cur (<[next := new]> m) !! x) ↔
               is_Some (m !! x) ∨ x = next) as Hdom.
  { intros x. rewrite Hlook. destruct (decide (x = next)) as [->|Hx].
    - split; [by right|]. intros _. by eexists.
    - destruct (decide (x = cur)) as [->|Hx'].
      + split; [intros _; left; by eexists|]. intros _. by eexists.
      + split; [by left|]. by intros [?|?]. }
  split; [|split; [done|exact Hdom]].
  split; [|split; [|split]].
  - apply Hdom. by left.
  - intros k n. rewrite Hlook. destruct (decide (k = next)) as [->|Hk].
    + by intros [= <-].
    + destruct (decide (k = cur)) as [->|Hk'].
      * intros [= <-]. simpl. by apply Hpath.
      * apply Hpath.
  - intros k n c. rewrite Hlook. destruct (decide (k = next)) as [->|Hk].
    + intros [= <-]. simpl. by intros ?%elem_of_nil.
    + destruct (decide (k = cur)) as [->|Hk'].
      * intros [= <-]. simpl. rewrite elem_of_app, list_elem_of_singleton.
        intros [Hc| ->].
        -- destruct (Hkids cur nc c Hcur Hc) as [Hs Hlt]. split; [|done].
           apply Hdom. by left.
        -- split; [apply Hdom; by right|]. unfold next. rewrite length_app. simpl. lia.
      * intros Hn Hc. destruct (Hkids k n c Hn Hc) as [Hs Hlt]. split; [|done].
        apply Hdom. by left.
  - intros c Hc Hcne. apply Hdom in Hc as [Hc| ->].
    + destruct (Hparent c Hc Hcne) as (k & n & Hn & Hin).
      assert (k ≠ next) as Hk by (intros ->; congruence).
      destruct (decide (k = cur)) as [->|Hk'].
      * exists cur, (pushChild next nc). rewrite Hlook.
        rewrite decide_False, decide_True by done. split; [done|].
        simpl. apply elem_of_app. left. congruence.
      * exists k, n. rewrite Hlook. by rewrite !decide_False by done.
    + exists cur, (pushChild next nc). rewrite Hlook.
      rewrite decide_False, decide_True by done. split; [done|].
      simpl. apply elem_of_app. right. left.
Qed.

Lemma insertSegments_spec (rootName : str) (segs : list str) m (cur : str) :
  treeWellFormed rootName m → is_Some (m !! cur) →
  let r := foldl insertSegment (m, cur) segs in
  treeWellFormed rootName r.1 ∧
  ∀ x, is_Some (r.1 !! x) ↔
       is_Some (m !! x) ∨
       ∃ k, 1 ≤ k ≤ length segs ∧ x = cur ++ SLASH :: join SLASH (take k segs).
Proof.
  revert m cur. induction segs as [|seg segs IH]; intros m cur Hwf Hcur; simpl.
  - split; [done|]. intros x. split; [by left|]. intros [?|(k & Hk & _)]; [done|lia].
  - destruct (insertSegment_spec rootName m cur seg Hwf Hcur) as (Hwf' & Hkey & Hdom).
    destruct (insertSegment (m, cur) seg) as [m' cur'] eqn:Hstep. simpl in *. subst cur'.
    destruct (IH m' (cur ++ SLASH :: seg) Hwf') as [Hwf'' Hdom''].
    { apply Hdom. by right. }
    split; [done|]. intros x. rewrite Hdom'', Hdom. split.
    + intros [[?| ->]|(k & Hk & ->)].
      * by left.
      * right. exists 1. split; [lia|]. done.
      * right. exists (S k). split; [lia|]. simpl.
        destruct segs as [|s segs]; [simpl in Hk; lia|].
        destruct k as [|k]; [lia|]. simpl. by rewrite <- app_assoc.
    + intros [?|(k & Hk & ->)]; [by left; left|].
      destruct k as [|k]; [lia|]. simpl. destruct k as [|k].
      * left. right. done.
      * right. exists (S k). split; [lia|].
        destruct segs as [|s segs]; [simpl in Hk; lia|]. simpl. by rewrite <- app_assoc.
Qed.

Lemma insertPaths_spec (rootName : str) (paths : list str) m :
  treeWellFormed rootName m →
  let r := foldl (insertPath rootName) m paths in
  treeWellFormed rootName r ∧
  ∀ x, is_Some (r !! x) ↔
       is_Some (m !! x) ∨
       ∃ p k, p ∈ paths ∧ 1 ≤ k ≤ length (splitFolderSegments p) ∧
              x = rootName ++ SLASH :: join SLASH (take k (splitFolderSegments p)).
Proof.
  revert m. induction paths as [|p paths IH]; intros m Hwf; simpl.
  - split; [done|]. intros x. split; [by left|].
    intros [?|(p & k & Hp & _)]; [done|by apply elem_of_nil in Hp].
  - assert (treeWellFormed rootName (insertPath rootName m p) ∧
            ∀ x, is_Some (insertPath rootName m p !! x) ↔
                 is_Some (m !! x) ∨
                 ∃ k, 1 ≤ k ≤ length (splitFolderSegments p) ∧
                      x = rootName ++ SLASH :: join SLASH (take k (splitFolderSegments p)))
      as [Hwf' Hdom'].
    { unfold insertPath. destruct (splitFolderSegments p) as [|s segs] eqn:Hsegs.
      - simpl. split; [done|]. intros x. split; [by left|].
        intros [?|(k & Hk & _)]; [done|lia].
      - cbn [length Nat.eqb].
        apply (insertSegments_spec rootName (s :: segs) m rootName Hwf).
        by destruct Hwf as [? _]. }
    destruct (IH _ Hwf') as [Hwf'' Hdom'']. split; [done|].
    intros x. rewrite Hdom'', Hdom'. split.
    + intros [[?|(k & ? & ?)]|(p' & k & ? & ? & ?)].
      * by left.
      * right. exists p, k. split; [left|done].
      * right. exists p', k. split; [by right|done].
    + intros [?|(p' & k & Hp' & ? & ?)]; [by left; left|].
      apply elem_of_cons in Hp' as [->|?].
      * left. right. by exists k.
      * right. by exists p', k.
Qed.

Lemma treeWellFormed_root (rootName : str) :
  treeWellFormed rootName {[ rootName := FileTreeNode.mk rootName rootName [] ]}.
Proof.
  split; [|split; [|split]].
  - rewrite lookup_singleton_eq. by eexists.
  - intros k n Hn. apply lookup_singleton_Some in Hn as [<- <-]. done.
  - intros k n c Hn Hc. apply lookup_singleton_Some in Hn as [<- <-].
    by apply elem_of_nil in Hc.
  - intros c [n Hn] Hne. apply lookup_singleton_Some in Hn as [<- _]. done.
Qed.

Lemma splitFolderSegments_raw (p : str) :
  splitFolderSegments p ≠ [] →
  rawSegments p = splitFolderSegments p ++ [List.last (rawSegments p) []].
Proof.
  unfold splitFolderSegments.
  destruct (negb (truthy (normalizePath p))); [done|].
  change (filter (fun s => truthy s = true) (map trim (split SLASH (normalizePath p))))
    with (rawSegments p).
  destruct (length (rawSegments p) <=? 1) eqn:Hlen; [done|]. intros _.
  apply app_removelast_last. intros E. by rewrite E in Hlen.
Qed.

Lemma folder_key_is_ancestor (p : str) (k : nat) :
  1 ≤ k ≤ length (splitFolderSegments p) →
  head (rawSegments p) ≠ Some (lit "root") →
  getPathRelation (lit "root/" ++ join SLASH (take k (splitFolderSegments p))) p = ancestor.
Proof.
  intros Hk Hhead.
  assert (splitFolderSegments p ≠ []) as Hne by (intros E; rewrite E in Hk; simpl in Hk; lia).
  pose proof (splitFolderSegments_raw p Hne) as Hraw.
  set (segs := splitFolderSegments p) in *.
  apply getPathRelation_ancestor_prefix. rewrite root_join_segments.
  - assert (toComparableSegments p = rawSegments p) as ->.
    { rewrite toComparableSegments_raw. unfold stripRootPrefix.
      destruct (rawSegments p) as [|s rest]; [done|].
      destruct (decide (s = lit "root")) as [->|]; [|done]. by destruct Hhead. }
    rewrite Hraw. split.
    + destruct segs as [|s segs']; [done|]. destruct k; [lia|done].
    + split.
      * apply prefix_app_r. apply prefix_take.
      * intros E. apply (f_equal length) in E.
        rewrite length_take, length_app in E. simpl in E. lia.
  - intros seg Hseg. apply (elem_of_rawSegments p). rewrite Hraw.
    apply elem_of_app. left. apply elem_of_take in Hseg as (i & Hi & _).
    by apply list_elem_of_lookup_2 in Hi.
Qed.

(** X30. The folder tree built from the point paths has the root and, for
    every path, one node for each non-empty prefix of its folder segments,
    stored under the root name followed by the joined prefix, which is also
    the path of the node; the set collected from the tree holds exactly the
    paths of these nodes, each once. Unless a path starts with the root
    segment, each of its folder nodes is a strict ancestor of the path.
    With a consistent collation the children of every node are in
    ascending order of their names. *)
Theorem folder_tree_paths `{Collator} (paths : list str) :
  let nodes := buildFolderTreeFromPaths paths (lit "root") in
  let isFolderKey := fun x =>
    x = lit "root" ∨
    ∃ p k, p ∈ paths ∧ 1 ≤ k ≤ length (splitFolderSegments p) ∧
           x = lit "root/" ++ join SLASH (take k (splitFolderSegments p)) in
  (∀ x, is_Some (nodes !! x) ↔ isFolderKey x) ∧
  (∀ x n, nodes !! x = Some n → FileTreeNode.path n = x) ∧
  (paths ≠ [] → ∀ x, x ∈ treeFolderPathSetMemo paths ↔ isFolderKey x) ∧
  NoDup (treeFolderPathSetMemo paths) ∧
  (∀ p k, p ∈ paths → 1 ≤ k ≤ length (splitFolderSegments p) →
          head (rawSegments p) ≠ Some (lit "root") →
          getPathRelation (lit "root/" ++ join SLASH (take k (splitFolderSegments p))) p
          = ancestor) ∧
  (ConsistentCollator H → ∀ x, is_Some (nodes !! x) → childrenSorted nodes x).
Proof.
  intros nodes isFolderKey.
  destruct (insertPaths_spec (lit "root") paths _ (treeWellFormed_root (lit "root")))
    as [Hwf0 Hdom0].
  set (nodes0 := foldl (insertPath (lit "root"))
                   {[ lit "root" := FileTreeNode.mk (lit "root") (lit "root") [] ]} paths)
    in *.
  assert (sameShape nodes0 nodes) as Hshape by apply sortRec_sameShape.
  pose proof (sameShape_wellFormed (lit "root") nodes0 nodes Hshape Hwf0) as Hwf.
  assert (∀ x, is_Some (nodes !! x) ↔ isFolderKey x) as Hdom.
  { intros x. rewrite <- (sameShape_stored nodes0 nodes x Hshape), Hdom0.
    unfold isFolderKey. split.
    - intros [[n Hn]|?]; [|by right]. left.
      by apply lookup_singleton_Some in Hn as [<- _].
    - intros [->|?]; [|by right]. left. rewrite lookup_singleton_eq. by eexists. }
  split; [done|]. split; [by destruct Hwf as (_ & ? & _)|]. split; [|split].
  - intros Hne x. unfold treeFolderPathSetMemo. destruct paths as [|p0 paths']; [done|].
    cbn [length Nat.eqb]. fold nodes.
    rewrite collectFolderPaths_spec, elem_of_nil, <- Hdom. split.
    + intros [?|Hv]; [done|]. by apply (visits_stored (lit "root") nodes Hwf) in Hv.
    + intros Hx. right. by apply (visits_all (lit "root") nodes Hwf).
  - unfold treeFolderPathSetMemo. destruct (length paths =? 0); [apply NoDup_nil_2|].
    apply collectFolderPaths_NoDup, NoDup_nil_2.
  - split; [intros p k _ Hk Hhead; by apply folder_key_is_ancestor|].
    intros CC x Hx. apply (sortRec_sorts (lit "root")); [done|].
    apply (visits_all (lit "root") nodes0 Hwf0).
    by apply (sameShape_stored nodes0 nodes x Hshape).
Qed.

End FolderTree.

(** For a path that starts with the root segment the root is doubled in
    the keys of its folder nodes, which then do not contain the path. *)
Lemma folder_key_of_rooted_path :
  is_Some (@buildFolderTreeFromPaths codeUnitCollator [lit "root/A/p"] (lit "root")
             !! lit "root/root/A") ∧
  getPathRelation (lit "root/root/A") (lit "root/A/p") = disjoint.
Proof. split; [|by vm_compute]. vm_compute. by eexists. Qed.
